(** * Crossword-AI: the constraint-satisfaction engine of [generate.py]

    A shallow embedding of [CrosswordCreator] (node consistency, AC-3,
    the search heuristics and the backtracking search) together with the
    properties its specification states about it.

    Conventions of the embedding.
    - A Python [set] is a list; the order of the list is the iteration
      order of the set.  Set difference and filtering keep the order of
      the left operand.
    - A Python [dict] is an association list in insertion order.
    - A method of [CrosswordCreator] is a computation over the store
      [self.domains]; it either returns a value and a new store or
      raises one of the exceptions Python raises there.
    - The [while] loop of [ac3] and the recursion of [backtrack] take
      fuel.  [ac3] and [solve] supply it themselves, and it is proved
      below that what they supply never runs out.
    - The dictionary that [backtrack] mutates in place is threaded
      through the search: a call returns the contents of the dictionary
      together with the flag that tells [None] from the dictionary.
    - The state carries one ghost field, a counter of the calls of
      [backtrack].

    The file has the model first (in the order of [generate.py]), then
    the vocabulary of the specification, then the lemmas, and at the
    end one theorem for each property of the specification. *)

From Stdlib Require Import List String Ascii Bool Arith ZArith Lia Permutation.
Import ListNotations.
Local Open Scope string_scope.
Local Open Scope nat_scope.
Local Open Scope list_scope.

(* ================================================================== *)
(** ** Variables of the puzzle *)
(* ================================================================== *)

Inductive Direction : Type := ACROSS | DOWN.

(** [Variable(i, j, direction, List.length)] of [crossword.py]; equality is
    structural. *)
Record Var : Type := mkVar {
  var_i : nat;
  var_j : nat;
  var_direction : Direction;
  var_length : nat
}.

Definition direction_eqb (a b : Direction) : bool :=
  match a, b with
  | ACROSS, ACROSS | DOWN, DOWN => true
  | _, _ => false
  end.

Definition var_eqb (x y : Var) : bool :=
  (var_i x =? var_i y) && (var_j x =? var_j y)
  && direction_eqb (var_direction x) (var_direction y)
  && (var_length x =? var_length y).

(* ================================================================== *)
(** ** Outcomes and the two monads *)
(* ================================================================== *)

Inductive exn : Type := KeyError | IndexError | TypeError.

Inductive result (A : Type) : Type :=
| Ok (a : A)
| Raise (e : exn)
| OutOfFuel.

Arguments Ok {A} a.
Arguments Raise {A} e.
Arguments OutOfFuel {A}.

Definition rbind {A B} (r : result A) (k : A -> result B) : result B :=
  match r with
  | Ok a => k a
  | Raise e => Raise e
  | OutOfFuel => OutOfFuel
  end.

Declare Scope py_scope.
Delimit Scope py_scope with py.

Notation "x <-- c1 ;; c2" := (rbind c1 (fun x => c2))
  (at level 61, c1 at next level, right associativity) : py_scope.

Local Open Scope py_scope.

(** ** Python containers *)

Section Dict.
Context {V : Type}.

Definition dict : Type := list (Var * V).

Fixpoint dict_get (k : Var) (d : dict) : option V :=
  match d with
  | [] => None
  | (k', v) :: d' => if var_eqb k k' then Some v else dict_get k d'
  end.

(** [d[k] = v]: overwrite in place, or append a new entry. *)
Fixpoint dict_set (k : Var) (v : V) (d : dict) : dict :=
  match d with
  | [] => [(k, v)]
  | (k', v') :: d' =>
      if var_eqb k k' then (k', v) :: d' else (k', v') :: dict_set k v d'
  end.

(** [del d[k]] for a key that is present. *)
Fixpoint dict_del (k : Var) (d : dict) : dict :=
  match d with
  | [] => []
  | (k', v') :: d' =>
      if var_eqb k k' then d' else (k', v') :: dict_del k d'
  end.

Definition dict_keys (d : dict) : list Var := map fst d.
Definition dict_values (d : dict) : list V := map snd d.

Definition dict_mem (k : Var) (d : dict) : bool :=
  match dict_get k d with Some _ => true | None => false end.
End Dict.

Arguments dict V : clear implicits.

Definition var_mem (v : Var) (s : list Var) : bool := existsb (var_eqb v) s.

(** [s - t] on sets of variables. *)
Definition var_diff (s t : list Var) : list Var :=
  filter (fun v => negb (var_mem v t)) s.

(** [set(xs)] on words: the distinct elements. *)
Definition word_set (xs : list string) : list string := nodup string_dec xs.

(** [s.remove(w)] on a set of words in which [w] occurs. *)
Definition set_remove (w : string) (s : list string) : list string :=
  filter (fun u => negb (String.eqb u w)) s.

(** [w[k]] for a natural index. *)
Definition str_index (w : string) (k : nat) : result ascii :=
  match String.get k w with
  | Some ch => Ok ch
  | None => Raise IndexError
  end.

(** ** [sorted(xs, key=...)]: a stable sort on the decorated list *)

Section Sorted.
Context {K A : Type} (ltb : K -> K -> bool).

Fixpoint insert_by (x : K * A) (l : list (K * A)) : list (K * A) :=
  match l with
  | [] => [x]
  | y :: l' => if ltb (fst y) (fst x) then y :: insert_by x l' else x :: l
  end.

Definition sort_by (l : list (K * A)) : list (K * A) :=
  fold_right insert_by [] l.

Definition sorted (keys : list K) (xs : list A) : list A :=
  map snd (sort_by (combine keys xs)).
End Sorted.

(** Order on the tuples [(len(domain), -degree)]. *)
Definition pair_ltb (p q : nat * Z) : bool :=
  (fst p <? fst q) || ((fst p =? fst q) && (snd p <? snd q)%Z).

(* ================================================================== *)
(** ** The constraint graph *)
(* ================================================================== *)

(** The part of [Crossword] the solver reads: the set of variables, the
    word list and the overlap table.  [overlaps c x y] is [None] when
    the two slots share no cell and [Some (i, j)] when cell [i] of [x]
    is cell [j] of [y].  The solver looks the table up only at pairs of
    distinct variables of the graph, which is where the table of
    [crossword.py] has entries. *)
Record Crossword : Type := mkCrossword {
  variables : list Var;
  words : list string;
  overlaps : Var -> Var -> option (nat * nat)
}.

(** Modelled from the spec: [Crossword.neighbors] lives in
    [crossword.py], which is not part of the sources at hand; the spec
    defines neighbors(v) as all variables with a defined overlap with
    [v] (a variable is no neighbor of itself). *)
Definition neighbors (c : Crossword) (v : Var) : list Var :=
  filter (fun u => negb (var_eqb u v)
                   && match overlaps c v u with Some _ => true | None => false end)
         (variables c).

(** The invariants the spec states for a constructed graph. *)
Record wf_crossword (c : Crossword) : Prop := {
  wf_nodup : NoDup (variables c);
  wf_sym : forall x y i j,
      overlaps c x y = Some (i, j) -> overlaps c y x = Some (j, i);
  wf_range : forall x y i j,
      overlaps c x y = Some (i, j) -> i < var_length x /\ j < var_length y
}.

(* ================================================================== *)
(** ** The solver state *)
(* ================================================================== *)

Definition assignment : Type := dict string.

(** [domains] is [self.domains].  [searches] is a ghost counter: the
    number of times [backtrack] has been entered. *)
Record state : Type := mkState {
  domains : dict (list string);
  searches : nat
}.

Definition M (A : Type) : Type := state -> result (A * state).

Definition ret {A} (a : A) : M A := fun s => Ok (a, s).

Definition bind {A B} (m : M A) (k : A -> M B) : M B :=
  fun s => match m s with
           | Ok (a, s') => k a s'
           | Raise e => Raise e
           | OutOfFuel => OutOfFuel
           end.

Notation "x <- c1 ;; c2" := (bind c1 (fun x => c2))
  (at level 61, c1 at next level, right associativity) : py_scope.
Notation "c1 ;;; c2" := (bind c1 (fun _ => c2))
  (at level 61, right associativity) : py_scope.

Definition raise {A} (e : exn) : M A := fun _ => Raise e.
Definition out_of_fuel {A} : M A := fun _ => OutOfFuel.
Definition lift {A} (r : result A) : M A :=
  fun s => rbind r (fun a => Ok (a, s)).

Definition get_domains : M (dict (list string)) :=
  fun s => Ok (domains s, s).
Definition put_domains (d : dict (list string)) : M unit :=
  fun s => Ok (tt, mkState d (searches s)).
Definition tick : M unit :=
  fun s => Ok (tt, mkState (domains s) (S (searches s))).

(** [self.domains[v]] as an expression. *)
Definition domain_of (v : Var) : M (list string) :=
  d <- get_domains ;;
  match dict_get v d with
  | Some ws => ret ws
  | None => raise KeyError
  end.

(** [self.domains[v] = ws]. *)
Definition set_domain (v : Var) (ws : list string) : M unit :=
  d <- get_domains ;; put_domains (dict_set v ws d).

(** [self.domains[v].remove(w)]. *)
Definition domain_remove (v : Var) (w : string) : M unit :=
  ws <- domain_of v ;; set_domain v (set_remove w ws).

Fixpoint for_each {A} (xs : list A) (body : A -> M unit) : M unit :=
  match xs with
  | [] => ret tt
  | x :: xs' => body x ;;; for_each xs' body
  end.

Fixpoint map_m {A B} (f : A -> M B) (xs : list A) : M (list B) :=
  match xs with
  | [] => ret []
  | x :: xs' => y <- f x ;; ys <- map_m f xs' ;; ret (y :: ys)
  end.

(** [__init__]: every variable starts with a copy of the word list. *)
Definition init (c : Crossword) : state :=
  mkState (map (fun var => (var, words c)) (variables c)) 0.

(* ================================================================== *)
(** ** Node consistency *)
(* ================================================================== *)

Definition enforce_node_consistency : M unit :=
  d <- get_domains ;;
  for_each (dict_keys d) (fun variable =>
    ws <- domain_of variable ;;
    let words_to_remove :=
      filter (fun word => negb (String.length word =? var_length variable)) ws in
    for_each words_to_remove (fun word => domain_remove variable word)).

(* ================================================================== *)
(** ** Arc consistency *)
(* ================================================================== *)

(** The inner loop of [revise]: is there a [word_y] with
    [word_x[i] == word_y[j]]?  The loop stops at the first match. *)
Fixpoint match_found (word_x : string) (i : nat) (dy : list string) (j : nat)
  : result bool :=
  match dy with
  | [] => Ok false
  | word_y :: dy' =>
      a <-- str_index word_x i ;;
      b <-- str_index word_y j ;;
      if Ascii.eqb a b then Ok true else match_found word_x i dy' j
  end.

(** The outer loop of [revise]: collects [to_remove]. *)
Fixpoint revise_scan (y : Var) (i j : nat) (dx : list string) : M (list string) :=
  match dx with
  | [] => ret []
  | word_x :: dx' =>
      dy <- domain_of y ;;
      found <- lift (match_found word_x i dy j) ;;
      rest <- revise_scan y i j dx' ;;
      ret (if found then rest else word_x :: rest)
  end.

Definition revise (c : Crossword) (x y : Var) : M bool :=
  match overlaps c x y with
  | None => ret false
  | Some (i, j) =>
      dx <- domain_of x ;;
      to_remove <- revise_scan y i j dx ;;
      for_each to_remove (fun word => domain_remove x word) ;;;
      ret (negb (List.length to_remove =? 0))
  end.

(** The default queue of [ac3]: every ordered pair of neighbors. *)
Definition all_arcs (c : Crossword) : list (Var * Var) :=
  flat_map (fun x => map (fun y => (x, y)) (neighbors c x)) (variables c).

Fixpoint ac3_loop (c : Crossword) (fuel : nat) (queue : list (Var * Var)) : M bool :=
  match queue with
  | [] => ret true
  | (x, y) :: queue' =>
      match fuel with
      | 0 => out_of_fuel
      | S fuel' =>
          revised <- revise c x y ;;
          if revised then
            dx <- domain_of x ;;
            if List.length dx =? 0 then ret false
            else ac3_loop c fuel'
                   (queue' ++ map (fun neighbor => (neighbor, x))
                                  (var_diff (neighbors c x) [y]))
          else ac3_loop c fuel' queue'
      end
  end.

Definition total_size (d : dict (list string)) : nat :=
  list_sum (map (fun e => List.length (snd e)) d).

(** Enough iterations for the queue to drain: every revision that
    enqueues arcs removes at least one word. *)
Definition ac3_fuel (c : Crossword) (queue : list (Var * Var))
           (d : dict (list string)) : nat :=
  S (List.length queue + List.length (variables c) * total_size d).

Definition ac3 (c : Crossword) (arcs : option (list (Var * Var))) : M bool :=
  let arcs := match arcs with None => all_arcs c | Some arcs => arcs end in
  d <- get_domains ;;
  ac3_loop c (ac3_fuel c arcs d) arcs.

(* ================================================================== *)
(** ** Checks on assignments *)
(* ================================================================== *)

Definition assignment_complete (c : Crossword) (a : assignment) : bool :=
  List.length (var_diff (variables c) (dict_keys a)) =? 0.

(** The loop over the neighbors [n] of [i] in [consistent]. *)
Fixpoint agree_neighbors (c : Crossword) (a : assignment) (i : Var)
         (n : list Var) : result bool :=
  match n with
  | [] => Ok true
  | j :: n' =>
      if var_mem j (dict_keys a) then
        wi <-- match dict_get i a with Some w => Ok w | None => Raise KeyError end ;;
        ov <-- match overlaps c i j with Some ov => Ok ov | None => Raise TypeError end ;;
        ci <-- str_index wi (fst ov) ;;
        wj <-- match dict_get j a with Some w => Ok w | None => Raise KeyError end ;;
        cj <-- str_index wj (snd ov) ;;
        if negb (Ascii.eqb ci cj) then Ok false else agree_neighbors c a i n'
      else agree_neighbors c a i n'
  end.

(** The loop over the assigned variables [i] in [consistent]. *)
Fixpoint agree_all (c : Crossword) (a : assignment) (keys : list Var)
  : result bool :=
  match keys with
  | [] => Ok true
  | i :: keys' =>
      ok <-- agree_neighbors c a i (neighbors c i) ;;
      if ok then agree_all c a keys' else Ok false
  end.

Definition consistent (c : Crossword) (a : assignment) : result bool :=
  if negb (List.length (dict_values a) =? List.length (word_set (dict_values a)))
  then Ok false
  else if existsb (fun e => negb (String.length (snd e) =? var_length (fst e))) a
  then Ok false
  else agree_all c a (dict_keys a).

(* ================================================================== *)
(** ** Search heuristics *)
(* ================================================================== *)

Section OrderDomainValues.
Variable c : Crossword.
Variable var : Var.
Variable a : assignment.

(** The loop of [_neighbor] over the domain of [temp]. *)
Fixpoint _neighbor_count (temp : Var) (v : string) (dt : list string)
  : result nat :=
  match dt with
  | [] => Ok 0
  | i :: dt' =>
      one <-- (if String.eqb i v then Ok 1
               else match overlaps c var temp with
                    | Some (k, j) =>
                        vk <-- str_index v k ;;
                        ij <-- str_index i j ;;
                        Ok (if negb (Ascii.eqb vk ij) then 1 else 0)
                    | None => Ok 0
                    end) ;;
      rest <-- _neighbor_count temp v dt' ;;
      Ok (one + rest)
  end.

Definition _neighbor (temp : Var) (v : string) : M nat :=
  if negb (dict_mem temp a) then
    dt <- domain_of temp ;;
    lift (_neighbor_count temp v dt)
  else ret 0.

(** The loop of [_value] over the neighbors of [var]. *)
Fixpoint _value_loop (_vars : list Var) (val : string) (ns : list Var) : M nat :=
  match ns with
  | [] => ret 0
  | i :: ns' =>
      one <- (if var_mem i _vars then _neighbor i val else ret 0) ;;
      rest <- _value_loop _vars val ns' ;;
      ret (one + rest)
  end.

Definition _value (_vars : list Var) (val : string) : M nat :=
  temp <- domain_of var ;;
  set_domain var [val] ;;;
  count <- _value_loop _vars val (neighbors c var) ;;
  set_domain var temp ;;;
  ret count.

Definition order_domain_values : M (list string) :=
  dv <- domain_of var ;;
  if List.length dv =? 0 then ret []
  else
    temp_domain <- get_domains ;;
    for_each a (fun e => set_domain (fst e) [snd e]) ;;;
    let _vars := var_diff (variables c) (dict_keys a) in
    dv' <- domain_of var ;;
    keys <- map_m (_value _vars) dv' ;;
    let _val := sorted Nat.ltb keys dv' in
    put_domains temp_domain ;;;
    _val <- domain_of var ;;
    ret _val.
End OrderDomainValues.

(** The sort key of [select_unassigned_variable]:
    [(len(self.domains[var]), -len(self.crossword.neighbors(var)))]. *)
Definition select_key (c : Crossword) (var : Var) : M (nat * Z) :=
  ws <- domain_of var ;;
  ret (List.length ws, (- Z.of_nat (List.length (neighbors c var)))%Z).

Definition select_unassigned_variable (c : Crossword) (a : assignment)
  : M (option Var) :=
  let _vars := var_diff (variables c) (dict_keys a) in
  keys <- map_m (select_key c) _vars ;;
  let sorted_vars_left := sorted pair_ltb keys _vars in
  ret (match sorted_vars_left with
       | v :: _ => Some v
       | [] => None
       end).

(* ================================================================== *)
(** ** Backtracking search *)
(* ================================================================== *)

(** What a call of [backtrack] leaves behind: whether it returned the
    assignment (rather than [None]), and the contents of the dictionary
    it was given, which is the very object it returns. *)
Definition search_result : Type := (bool * assignment)%type.

(** The [for] loop of [backtrack]; [recur] is the recursive call. *)
Fixpoint try_values (recur : assignment -> M search_result) (_var : Var)
         (vals : list string) (a : assignment) : M search_result :=
  match vals with
  | [] => ret (false, a)
  | i :: vals' =>
      r <- recur (dict_set _var i a) ;;
      if fst r then ret r
      else try_values recur _var vals' (dict_del _var (snd r))
  end.

Fixpoint backtrack (c : Crossword) (fuel : nat) (a : assignment)
  : M search_result :=
  match fuel with
  | 0 => out_of_fuel
  | S fuel' =>
      tick ;;;
      ok <- lift (consistent c a) ;;
      if negb ok then ret (false, a)
      else if assignment_complete c a then ret (true, a)
      else
        _var <- select_unassigned_variable c a ;;
        match _var with
        | None => raise KeyError
        | Some _var =>
            vals <- order_domain_values c _var a ;;
            try_values (backtrack c fuel') _var vals a
        end
  end.

(** The recursion of [backtrack] is as deep as there are variables. *)
Definition backtrack_fuel (c : Crossword) : nat := S (List.length (variables c)).

Definition solve (c : Crossword) : M (option assignment) :=
  enforce_node_consistency ;;;
  ac3 c None ;;;
  r <- backtrack c (backtrack_fuel c) [] ;;
  ret (if fst r then Some (snd r) else None).

(** Running the program: construct the creator, then [solve()]. *)
Definition run (c : Crossword) : result (option assignment * state) :=
  solve c (init c).

(* ================================================================== *)
(** ** Rendering an assignment *)
(* ================================================================== *)

(** A two-dimensional array of optional letters, as a list of rows. *)
Definition grid : Type := list (list (option ascii)).

(** [l[n] = x] on a Python list: [IndexError] past the end. *)
Fixpoint list_set {A} (n : nat) (x : A) (l : list A) {struct l}
  : result (list A) :=
  match l, n with
  | [], _ => Raise IndexError
  | _ :: l', 0 => Ok (x :: l')
  | y :: l', S n' => l'' <-- list_set n' x l' ;; Ok (y :: l'')
  end.

(** [l[n]] on a Python list. *)
Definition list_index {A} (l : list A) (n : nat) : result A :=
  match nth_error l n with
  | Some x => Ok x
  | None => Raise IndexError
  end.

(** [letters[i][j] = ch]; the rows are separate lists. *)
Definition grid_set (i j : nat) (ch : ascii) (letters : grid) : result grid :=
  row <-- list_index letters i ;;
  row' <-- list_set j (Some ch) row ;;
  list_set i row' letters.

(** The row and the column of the [k]-th cell of a slot. *)
Definition cell_row (variable : Var) (k : nat) : nat :=
  var_i variable + match var_direction variable with DOWN => k | ACROSS => 0 end.

Definition cell_col (variable : Var) (k : nat) : nat :=
  var_j variable + match var_direction variable with ACROSS => k | DOWN => 0 end.

(** The loop [for k in range(len(word))] of [letter_grid]. *)
Fixpoint fill_word (variable : Var) (word : string) (ks : list nat)
         (letters : grid) : result grid :=
  match ks with
  | [] => Ok letters
  | k :: ks' =>
      let i := cell_row variable k in
      let j := cell_col variable k in
      ch <-- str_index word k ;;
      letters' <-- grid_set i j ch letters ;;
      fill_word variable word ks' letters'
  end.

(** The loop [for variable, word in assignment.items()]. *)
Fixpoint fill_all (a : assignment) (letters : grid) : result grid :=
  match a with
  | [] => Ok letters
  | (variable, word) :: a' =>
      letters' <-- fill_word variable word (seq 0 (String.length word)) letters ;;
      fill_all a' letters'
  end.

(** [letter_grid]; [height] and [width] are [self.crossword.height] and
    [self.crossword.width]. *)
Definition letter_grid (height width : nat) (a : assignment) : result grid :=
  let letters := repeat (repeat None width) height in
  fill_all a letters.

(* ================================================================== *)
(** ** What the specification calls complete and consistent *)
(* ================================================================== *)

(** Every variable of the graph has an entry. *)
Definition complete_spec (c : Crossword) (a : assignment) : Prop :=
  forall v, In v (variables c) -> exists w, dict_get v a = Some w.

(** The two characters [wx[i]] and [wy[j]] exist and are equal. *)
Definition agree_at (wx : string) (i : nat) (wy : string) (j : nat) : Prop :=
  exists ch, String.get i wx = Some ch /\ String.get j wy = Some ch.

(** No two entries share a word, every word is as long as its variable,
    and assigned neighbors agree at their overlap. *)
Record consistent_spec (c : Crossword) (a : assignment) : Prop := {
  cs_distinct : NoDup (dict_values a);
  cs_lengths : forall v w, In (v, w) a -> String.length w = var_length v;
  cs_agree : forall x y wx wy i j,
      dict_get x a = Some wx -> dict_get y a = Some wy ->
      In y (neighbors c x) -> overlaps c x y = Some (i, j) ->
      agree_at wx i wy j
}.

(** Domain [ws'] was obtained from [ws] by removing words. *)
Definition shrunk (ws' ws : list string) : Prop :=
  exists keep, ws' = filter keep ws.

(** Store [d'] has the keys of [d], each with a shrunk domain. *)
Definition store_le (d' d : dict (list string)) : Prop :=
  Forall2 (fun e' e => fst e' = fst e /\ shrunk (snd e') (snd e)) d' d.

(** Arc [(x, y)] is consistent in store [d]: every word left for [x] has
    a partner left for [y]. *)
Definition arc_consistent (c : Crossword) (d : dict (list string))
           (x y : Var) : Prop :=
  forall i j dx w,
    overlaps c x y = Some (i, j) ->
    dict_get x d = Some dx -> In w dx ->
    exists dy w', dict_get y d = Some dy /\ In w' dy /\ agree_at w i w' j.

(* ================================================================== *)
(** ** The specification's orderings and frames *)
(* ================================================================== *)

(** [v[k] != u[j]]. *)
Definition differ_at (v : string) (k : nat) (u : string) (j : nat) : bool :=
  match String.get k v, String.get j u with
  | Some a, Some b => negb (Ascii.eqb a b)
  | _, _ => false
  end.

(** The number of values that choosing [v] for [var] eliminates from
    the domains of the unassigned neighbors of [var]. *)
Definition eliminated (c : Crossword) (d : dict (list string)) (a : assignment)
           (var : Var) (v : string) : nat :=
  list_sum
    (map (fun n =>
            if dict_mem n a then 0
            else match overlaps c var n, dict_get n d with
                 | Some (k, j), Some dn =>
                     List.length (filter (fun u => differ_at v k u j) dn)
                 | _, _ => 0
                 end)
         (neighbors c var)).

(** [l] is in ascending order of [key]. *)
Fixpoint ascending (key : string -> nat) (l : list string) : bool :=
  match l with
  | x :: (y :: _) as rest => (key x <=? key y) && ascending key rest
  | _ => true
  end.

(** Every domain of [s'] is contained in the domain the same variable
    had in [s]. *)
Definition domains_shrink (s s' : state) : Prop :=
  forall v ws', dict_get v (domains s') = Some ws' ->
                exists ws, dict_get v (domains s) = Some ws /\ incl ws' ws.

(** The claim that a wiped-out domain makes [solve] return the failure
    value with [backtrack] never entered. *)
Definition skips_search_on_wipeout (c : Crossword) : Prop :=
  forall s1 s2,
    enforce_node_consistency (init c) = Ok (tt, s1) ->
    ac3 c None s1 = Ok (false, s2) ->
    exists s3, run c = Ok (None, s3) /\ searches s3 = 0.

(* ================================================================== *)
(** ** Example puzzles *)
(* ================================================================== *)

(** Two slots of length two that cross in one cell: the first cell of
    the across slot is the second cell of the down slot.
<<
      _ #
      _ _
>> *)
Definition slot_across : Var := mkVar 1 0 ACROSS 2.

(** The down slot. *)
Definition slot_down : Var := mkVar 0 0 DOWN 2.

(** The overlap table of the two slots. *)
Definition corner_overlaps (x y : Var) : option (nat * nat) :=
  if var_eqb x slot_across && var_eqb y slot_down then Some (0, 1)
  else if var_eqb x slot_down && var_eqb y slot_across then Some (1, 0)
  else None.

(** The puzzle over a given word list. *)
Definition corner (ws : list string) : Crossword :=
  mkCrossword [slot_across; slot_down] ws corner_overlaps.

(** A word list with one word that fits no slot. *)
Definition letters : list string := ["AB"; "CA"; "BC"; "XYZ"].

(** The words of [letters] that fit the slots. *)
Definition letters_fit : list string := ["AB"; "CA"; "BC"].

(** Two slots [x] and [y] sharing one cell: cell [i] of [x] is cell [j]
    of [y]. *)
Definition crossing (x y : Var) (i j : nat) (ws : list string) : Crossword :=
  mkCrossword [x; y] ws
    (fun u v => if var_eqb u x && var_eqb v y then Some (i, j)
                else if var_eqb u y && var_eqb v x then Some (j, i)
                else None).

(** An across slot whose second cell is the first cell of a down slot,
    both of length [n]. *)
Definition tee (n : nat) : list string -> Crossword :=
  crossing (mkVar 0 0 ACROSS n) (mkVar 0 1 DOWN n) 1 0.

(** An across and a down slot of length two that share their first cell. *)
Definition ell : list string -> Crossword :=
  crossing (mkVar 0 0 ACROSS 2) (mkVar 0 0 DOWN 2) 0 0.

(** The domains of a store, in the order of its variables. *)
Definition domain_list (s : state) : list (list string) :=
  dict_values (domains s).

(* ================================================================== *)
(** ** Reading a rendered grid *)
(* ================================================================== *)

(** [letters[i][j]], when the cell exists. *)
Definition grid_get (letters : grid) (i j : nat) : option (option ascii) :=
  match nth_error letters i with
  | Some row => nth_error row j
  | None => None
  end.

(** A grid of [height] rows of [width] cells each. *)
Definition shaped (height width : nat) (letters : grid) : Prop :=
  List.length letters = height
  /\ Forall (fun row => List.length row = width) letters.

(** Every letter of [word], placed in the slot [variable], falls on a
    cell of a grid of the given size. *)
Definition word_inside (height width : nat) (variable : Var) (word : string)
  : Prop :=
  forall k, k < String.length word ->
            cell_row variable k < height /\ cell_col variable k < width.

(* ================================================================== *)
(** ** Invariants and closed forms used in the proofs *)
(* ================================================================== *)

(** *** Computations *)

(** A computation that never writes to the state. *)
Definition read_only {A} (m : M A) : Prop :=
  forall s a s', m s = Ok (a, s') -> s' = s.

(** A computation that leaves the ghost counter alone. *)
Definition keeps_count {A} (m : M A) : Prop :=
  forall s a s', m s = Ok (a, s') -> searches s' = searches s.


(** The first element of [l] has a key that no other key is below. *)
Definition head_least {K A : Type} (ltb : K -> K -> bool) (l : list (K * A)) : Prop :=
  match l with
  | [] => True
  | h :: _ => forall y, In y l -> ltb (fst y) (fst h) = false
  end.

(** *** Propagation *)

(** The set left after the loop [for word in ws: s.remove(word)]. *)
Definition remove_all (ws : list string) (s : list string) : list string :=
  fold_left (fun acc w => set_remove w acc) ws s.

(** The store only shrank and the ghost counter did not move. *)
Definition state_le (s' s : state) : Prop :=
  store_le (domains s') (domains s) /\ searches s' = searches s.

(** [len(word) == variable.length]. *)
Definition fits (variable : Var) (word : string) : bool :=
  String.length word =? var_length variable.

(** One round of the outer loop of [enforce_node_consistency]. *)
Definition node_step (variable : Var) : M unit :=
  ws <- domain_of variable ;;
  let words_to_remove :=
    filter (fun word => negb (String.length word =? var_length variable)) ws in
  for_each words_to_remove (fun word => domain_remove variable word).

(** The store that node consistency produces. *)
Definition node_filtered (d : dict (list string)) : dict (list string) :=
  map (fun e => (fst e, filter (fits (fst e)) (snd e))) d.

(** [wx[i] == wy[j]], false when a character is missing. *)
Definition chars_eqb (wx : string) (i : nat) (wy : string) (j : nat) : bool :=
  match String.get i wx, String.get j wy with
  | Some a, Some b => Ascii.eqb a b
  | _, _ => false
  end.

(** Does some word of [dy] support [wx]? *)
Definition has_match (wx : string) (i : nat) (dy : list string) (j : nat) : bool :=
  existsb (fun wy => chars_eqb wx i wy j) dy.

(** The store after [revise(x, y)] over the overlap [(i, j)], when [dx]
    and [dy] are the two domains before. *)
Definition revised_state (s : state) (x : Var) (i : nat) (dx dy : list string)
           (j : nat) : state :=
  mkState (dict_set x (filter (fun wx => has_match wx i dy j) dx) (domains s))
          (searches s).

(** The arcs that [ac3] puts back after a revision of [(x, y)]. *)
Definition requeued (c : Crossword) (x y : Var) : list (Var * Var) :=
  map (fun neighbor => (neighbor, x)) (var_diff (neighbors c x) [y]).

(** Every arc of the queue joins a variable to one of its neighbors. *)
Definition queue_wf (c : Crossword) (q : list (Var * Var)) : Prop :=
  forall x y, In (x, y) q -> In x (variables c) /\ In y (neighbors c x).

(** Every arc outside the queue is already consistent. *)
Definition arcs_inv (c : Crossword) (q : list (Var * Var))
           (d : dict (list string)) : Prop :=
  forall x y, In x (variables c) -> In y (neighbors c x) ->
              In (x, y) q \/ arc_consistent c d x y.

(** The store has a domain for every variable, and every word in a
    domain is as long as its variable. *)
Definition ready (c : Crossword) (d : dict (list string)) : Prop :=
  (forall v, In v (variables c) -> exists ws, dict_get v d = Some ws)
  /\ (forall v ws w, dict_get v d = Some ws -> In w ws ->
                     String.length w = var_length v).

(** Every word that [sol] gives to a variable is in that variable's
    domain. *)
Definition holds_sol (c : Crossword) (sol : assignment)
           (d : dict (list string)) : Prop :=
  forall v w, In v (variables c) -> dict_get v sol = Some w ->
              exists ws, dict_get v d = Some ws /\ In w ws.

(** The state in which [solve] starts the search. *)
Record propagated (c : Crossword) (r : bool) (s2 : state) : Prop := {
  pg_ready : ready c (domains s2);
  pg_count : searches s2 = 0;
  pg_sol : forall sol,
      complete_spec c sol -> consistent_spec c sol ->
      (forall v w, In v (variables c) -> dict_get v sol = Some w -> In w (words c)) ->
      holds_sol c sol (domains s2);
  pg_wipeout : r = false ->
      exists x, In x (variables c) /\ dict_get x (domains s2) = Some []
}.

(** *** Search *)

(** On failure the dictionary is as it was; on success it passed both
    checks; the store is untouched either way. *)
Definition search_post (c : Crossword) (a : assignment) (s : state)
           (r : search_result) (s' : state) : Prop :=
  (fst r = false -> snd r = a)
  /\ (fst r = true ->
      consistent c (snd r) = Ok true /\ assignment_complete c (snd r) = true)
  /\ domains s' = domains s.

(** The store after [for i in assignment: self.domains[i] = {assignment[i]}]. *)
Definition overlay (a : assignment) (d : dict (list string)) : dict (list string) :=
  fold_left (fun acc e => dict_set (fst e) [snd e] acc) a d.

(** Dictionary [a] is part of [sol]. *)
Definition part_of (a sol : assignment) : Prop :=
  forall v w, dict_get v a = Some w -> dict_get v sol = Some w.

(** Number of variables still without a word. *)
Definition unassigned (c : Crossword) (a : assignment) : nat :=
  List.length (var_diff (variables c) (dict_keys a)).

(** What is known of a dictionary on entry to [backtrack]. *)
Definition tidy (c : Crossword) (a : assignment) : Prop :=
  NoDup (dict_keys a) /\ incl (dict_keys a) (variables c).

(** [sol] is a complete consistent assignment whose words are all still
    in the domains of [s]. *)
Definition solution_in (c : Crossword) (sol : assignment) (s : state) : Prop :=
  complete_spec c sol /\ consistent_spec c sol /\ holds_sol c sol (domains s).

(** What a call with enough fuel does: it returns, and it returns the
    assignment when the dictionary is part of a solution. *)
Definition answers (c : Crossword) (sol : assignment)
           (recur : assignment -> M search_result)
           (a : assignment) (s : state) : Prop :=
  exists r s', recur a s = Ok (r, s') /\
               (solution_in c sol s -> part_of a sol -> fst r = true).

(** *** Rendering *)

(** The list with [x] at index [n], when the index exists. *)
Fixpoint put {A} (n : nat) (x : A) (l : list A) {struct l} : list A :=
  match l, n with
  | [], _ => []
  | _ :: l', 0 => x :: l'
  | y :: l', S n' => y :: put n' x l'
  end.

(** The writes [letters[i][j] = ch] that a word causes, from its [k]-th
    letter on. *)
Fixpoint word_writes (variable : Var) (k : nat) (word : string)
  : list (nat * nat * ascii) :=
  match word with
  | EmptyString => []
  | String ch rest =>
      (cell_row variable k, cell_col variable k, ch)
        :: word_writes variable (S k) rest
  end.

(** The writes of [letter_grid], in the order in which they happen. *)
Definition writes_of (a : assignment) : list (nat * nat * ascii) :=
  flat_map (fun e => word_writes (fst e) 0 (snd e)) a.

Fixpoint apply_writes (ws : list (nat * nat * ascii)) (letters : grid)
  : result grid :=
  match ws with
  | [] => Ok letters
  | (i, j, ch) :: ws' =>
      letters' <-- grid_set i j ch letters ;; apply_writes ws' letters'
  end.

(** The letter of the last write to cell [(i, j)]. *)
Fixpoint last_write (ws : list (nat * nat * ascii)) (i j : nat) : option ascii :=
  match ws with
  | [] => None
  | (i', j', ch) :: ws' =>
      match last_write ws' i j with
      | Some ch' => Some ch'
      | None => if (i' =? i) && (j' =? j) then Some ch else None
      end
  end.

(* ================================================================== *)
(** ** Basic facts: equality tests and containers *)
(* ================================================================== *)

Lemma direction_eqb_eq a b : direction_eqb a b = true <-> a = b.
Proof. destruct a, b; simpl; split; congruence. Qed.

Lemma var_eqb_eq x y : var_eqb x y = true <-> x = y.
Proof.
  destruct x as [xi xj xd xl], y as [yi yj yd yl]; unfold var_eqb; simpl.
  rewrite !andb_true_iff, !Nat.eqb_eq, direction_eqb_eq.
  split.
  - intros [[[-> ->] ->] ->]; reflexivity.
  - intros H; injection H as -> -> -> ->; auto.
Qed.

Lemma var_eqb_refl x : var_eqb x x = true.
Proof. apply var_eqb_eq; reflexivity. Qed.

Lemma var_eqb_neq x y : var_eqb x y = false <-> x <> y.
Proof.
  split.
  - intros H E; subst; rewrite var_eqb_refl in H; discriminate.
  - intros H; destruct (var_eqb x y) eqn:E; auto.
    apply var_eqb_eq in E; contradiction.
Qed.

Lemma var_eqb_sym x y : var_eqb x y = var_eqb y x.
Proof.
  destruct (var_eqb x y) eqn:E.
  - apply var_eqb_eq in E; subst; symmetry; apply var_eqb_refl.
  - apply var_eqb_neq in E; symmetry; apply var_eqb_neq; auto.
Qed.

Lemma var_eq_dec (x y : Var) : {x = y} + {x <> y}.
Proof.
  destruct (var_eqb x y) eqn:E.
  - left; apply var_eqb_eq; assumption.
  - right; apply var_eqb_neq; assumption.
Defined.

Ltac var_cases x y :=
  let E := fresh "E" in
  destruct (var_eqb x y) eqn:E;
  [apply var_eqb_eq in E; try subst | pose proof E; apply var_eqb_neq in E].

Lemma var_mem_In v s : var_mem v s = true <-> In v s.
Proof.
  unfold var_mem; rewrite existsb_exists; split.
  - intros (u & Hu & E); apply var_eqb_eq in E; subst; assumption.
  - intros H; exists v; split; [assumption | apply var_eqb_refl].
Qed.

Lemma var_mem_not_In v s : var_mem v s = false <-> ~ In v s.
Proof.
  rewrite <- var_mem_In; destruct (var_mem v s); split; congruence.
Qed.

Lemma var_diff_In v s t : In v (var_diff s t) <-> In v s /\ ~ In v t.
Proof.
  unfold var_diff; rewrite filter_In, negb_true_iff, var_mem_not_In; tauto.
Qed.

Lemma neighbors_In c v u :
  In u (neighbors c v) <->
  In u (variables c) /\ u <> v /\ exists ij, overlaps c v u = Some ij.
Proof.
  unfold neighbors; rewrite filter_In, andb_true_iff, negb_true_iff, var_eqb_neq.
  destruct (overlaps c v u) as [ij|]; split.
  - intros (H1 & H2 & _); eauto.
  - intros (H1 & H2 & _); auto.
  - intros (_ & _ & H); discriminate.
  - intros (_ & _ & ij & H); discriminate.
Qed.

Lemma neighbors_sym c x y :
  wf_crossword c -> In x (variables c) -> In y (neighbors c x) ->
  In x (neighbors c y).
Proof.
  intros W Hx Hy; apply neighbors_In in Hy; destruct Hy as (Hy & Hn & [i j] & Ho).
  apply neighbors_In; repeat split; auto.
  exists (j, i); apply (wf_sym c W); assumption.
Qed.

Section DictFacts.
Context {V : Type}.
Implicit Types (d : dict V) (k : Var) (v : V).

Lemma dict_get_In k d v : dict_get k d = Some v -> In (k, v) d.
Proof.
  induction d as [|[k' v'] d IH]; simpl; [discriminate|].
  var_cases k k'.
  - intros [= ->]; left; reflexivity.
  - intros Hg; right; apply IH; assumption.
Qed.

Lemma dict_get_keys k d : In k (dict_keys d) <-> exists v, dict_get k d = Some v.
Proof.
  induction d as [|[k' v'] d IH]; simpl.
  - split; [tauto | intros [v H]; discriminate].
  - var_cases k k'.
    + split; eauto.
    + rewrite <- IH; split; [intros [H1|H1]; [congruence | assumption] | auto].
Qed.

Lemma dict_get_None k d : dict_get k d = None <-> ~ In k (dict_keys d).
Proof.
  rewrite dict_get_keys; destruct (dict_get k d) as [u|]; split; try congruence.
  - intros H; exfalso; apply H; eauto.
  - intros _ [u' H]; discriminate.
Qed.

Lemma dict_mem_In k d : dict_mem k d = true <-> In k (dict_keys d).
Proof.
  unfold dict_mem; rewrite dict_get_keys.
  destruct (dict_get k d) as [u|]; split; eauto; try discriminate.
  intros [u' H]; discriminate.
Qed.

Lemma In_nodup_keys k d v :
  NoDup (dict_keys d) -> In (k, v) d -> dict_get k d = Some v.
Proof.
  induction d as [|[k' v'] d IH]; simpl; [tauto|].
  intros Hn [H|H]; inversion Hn; subst.
  - injection H as -> ->; rewrite var_eqb_refl; reflexivity.
  - var_cases k k'.
    + exfalso; apply H2; apply (in_map fst) in H; assumption.
    + apply IH; assumption.
Qed.

Lemma dict_get_set_same k v d : dict_get k (dict_set k v d) = Some v.
Proof.
  induction d as [|[k' v'] d IH]; simpl.
  - rewrite var_eqb_refl; reflexivity.
  - destruct (var_eqb k k') eqn:E; simpl; rewrite E; auto.
Qed.

Lemma dict_get_set_other k k' v d :
  k' <> k -> dict_get k' (dict_set k v d) = dict_get k' d.
Proof.
  intros Hn; induction d as [|[k0 v0] d IH]; simpl.
  - apply var_eqb_neq in Hn; rewrite Hn; reflexivity.
  - var_cases k k0; simpl.
    + apply var_eqb_neq in Hn; rewrite Hn; reflexivity.
    + rewrite IH; reflexivity.
Qed.

Lemma dict_set_id k v d : dict_get k d = Some v -> dict_set k v d = d.
Proof.
  induction d as [|[k0 v0] d IH]; simpl; [discriminate|].
  var_cases k k0.
  - intros [= ->]; reflexivity.
  - intros Hg; rewrite IH; auto.
Qed.

Lemma dict_set_set k v v' d :
  dict_set k v' (dict_set k v d) = dict_set k v' d.
Proof.
  induction d as [|[k0 v0] d IH]; simpl.
  - rewrite var_eqb_refl; reflexivity.
  - destruct (var_eqb k k0) eqn:E; simpl; rewrite E; [reflexivity|].
    rewrite IH; reflexivity.
Qed.

Lemma dict_keys_set_present k v d :
  In k (dict_keys d) -> dict_keys (dict_set k v d) = dict_keys d.
Proof.
  induction d as [|[k0 v0] d IH]; simpl; [tauto|].
  intros H; var_cases k k0; simpl; [reflexivity|].
  rewrite IH; [reflexivity | destruct H; congruence].
Qed.

Lemma dict_set_absent k v d :
  ~ In k (dict_keys d) -> dict_set k v d = d ++ [(k, v)].
Proof.
  induction d as [|[k0 v0] d IH]; simpl; [reflexivity|].
  intros H; var_cases k k0; [exfalso; auto|].
  rewrite IH; auto.
Qed.

(** Adding an entry for a fresh key and deleting it again gives the
    dictionary back, entry for entry. *)
Lemma dict_del_set k v d :
  ~ In k (dict_keys d) -> dict_del k (dict_set k v d) = d.
Proof.
  induction d as [|[k0 v0] d IH]; simpl.
  - rewrite var_eqb_refl; reflexivity.
  - intros H; var_cases k k0; [exfalso; auto|].
    simpl; rewrite H0, IH; auto.
Qed.
End DictFacts.

(* ================================================================== *)
(** ** Reasoning about computations *)
(* ================================================================== *)

Lemma state_eta s : mkState (domains s) (searches s) = s.
Proof. destruct s; reflexivity. Qed.

Lemma bind_inv {A B} (m : M A) (k : A -> M B) s r :
  bind m k s = Ok r -> exists a s1, m s = Ok (a, s1) /\ k a s1 = Ok r.
Proof.
  unfold bind; destruct (m s) as [[a s1]| |]; try discriminate; eauto.
Qed.

Lemma bind_ok {A B} (m : M A) (k : A -> M B) s a s1 :
  m s = Ok (a, s1) -> bind m k s = k a s1.
Proof. unfold bind; intros ->; reflexivity. Qed.

Lemma lift_inv {A} (r : result A) s a s' :
  lift r s = Ok (a, s') -> r = Ok a /\ s' = s.
Proof. unfold lift; destruct r; simpl; intros [=]; subst; auto. Qed.

Lemma domain_of_inv v s ws s' :
  domain_of v s = Ok (ws, s') -> dict_get v (domains s) = Some ws /\ s' = s.
Proof.
  unfold domain_of, bind, get_domains, ret, raise.
  destruct (dict_get v (domains s)); intros [=]; subst; auto.
Qed.

Lemma domain_of_ok v s ws :
  dict_get v (domains s) = Some ws -> domain_of v s = Ok (ws, s).
Proof.
  unfold domain_of, bind, get_domains, ret; intros ->; reflexivity.
Qed.

Lemma set_domain_eq v ws s :
  set_domain v ws s = Ok (tt, mkState (dict_set v ws (domains s)) (searches s)).
Proof. reflexivity. Qed.

Tactic Notation "inv_bind" hyp(H) "as" ident(a) ident(s1) ident(H1) :=
  apply bind_inv in H; destruct H as (a & s1 & H1 & H).

Lemma read_only_ret {A} (a : A) : read_only (ret a).
Proof. intros s b s' [=]; auto. Qed.

Lemma read_only_lift {A} (r : result A) : read_only (lift r).
Proof. intros s a s' H; apply lift_inv in H; tauto. Qed.

Lemma read_only_domain_of v : read_only (domain_of v).
Proof. intros s a s' H; apply domain_of_inv in H; tauto. Qed.

Lemma read_only_bind {A B} (m : M A) (k : A -> M B) :
  read_only m -> (forall a, read_only (k a)) -> read_only (bind m k).
Proof.
  intros Hm Hk s b s' H; inv_bind H as a s1 H1.
  apply Hm in H1; subst; eapply Hk; eassumption.
Qed.

Lemma read_only_map_m {A B} (f : A -> M B) xs :
  (forall x, read_only (f x)) -> read_only (map_m f xs).
Proof.
  intros Hf; induction xs as [|x xs IH]; simpl.
  - apply read_only_ret.
  - apply read_only_bind; [apply Hf|]; intros y.
    apply read_only_bind; [apply IH|]; intros ys; apply read_only_ret.
Qed.

Create HintDb ro.
#[local] Hint Resolve read_only_ret read_only_lift read_only_domain_of
  read_only_bind read_only_map_m : ro.

Lemma read_only_keeps_count {A} (m : M A) : read_only m -> keeps_count m.
Proof. intros H s a s' E; apply H in E; subst; reflexivity. Qed.

Lemma keeps_count_bind {A B} (m : M A) (k : A -> M B) :
  keeps_count m -> (forall a, keeps_count (k a)) -> keeps_count (bind m k).
Proof.
  intros Hm Hk s b s' H; inv_bind H as a s1 H1.
  apply Hm in H1; apply Hk in H; congruence.
Qed.

Lemma keeps_count_set_domain v ws : keeps_count (set_domain v ws).
Proof. intros s a s' [=]; subst; reflexivity. Qed.

Lemma keeps_count_put_domains d : keeps_count (put_domains d).
Proof. intros s a s' [=]; subst; reflexivity. Qed.

Lemma keeps_count_for_each {A} (body : A -> M unit) xs :
  (forall x, keeps_count (body x)) -> keeps_count (for_each xs body).
Proof.
  intros Hb; induction xs as [|x xs IH]; simpl.
  - apply read_only_keeps_count, read_only_ret.
  - apply keeps_count_bind; auto.
Qed.

Lemma keeps_count_map_m {A B} (f : A -> M B) xs :
  (forall x, keeps_count (f x)) -> keeps_count (map_m f xs).
Proof.
  intros Hf; induction xs as [|x xs IH]; simpl.
  - apply read_only_keeps_count, read_only_ret.
  - apply keeps_count_bind; [apply Hf|]; intros y.
    apply keeps_count_bind; [apply IH|]; intros ys.
    apply read_only_keeps_count, read_only_ret.
Qed.

(* ================================================================== *)
(** ** The value-ordering heuristic leaves the store as it found it *)
(* ================================================================== *)

Lemma read_only__neighbor c var a temp v : read_only (_neighbor c var a temp v).
Proof.
  unfold _neighbor; destruct (negb (dict_mem temp a)); auto with ro.
Qed.

Lemma read_only__value_loop c var a _vars val ns :
  read_only (_value_loop c var a _vars val ns).
Proof.
  induction ns as [|i ns IH]; simpl; auto with ro.
  apply read_only_bind.
  - destruct (var_mem i _vars); auto using read_only__neighbor with ro.
  - intros one; auto with ro.
Qed.

Lemma keeps_count__value c var a _vars val :
  keeps_count (_value c var a _vars val).
Proof.
  unfold _value.
  apply keeps_count_bind; [apply read_only_keeps_count; auto with ro|]; intros temp.
  apply keeps_count_bind; [apply keeps_count_set_domain|]; intros _.
  apply keeps_count_bind;
    [apply read_only_keeps_count, read_only__value_loop|]; intros n.
  apply keeps_count_bind; [apply keeps_count_set_domain|]; intros _.
  apply read_only_keeps_count; auto with ro.
Qed.

(** Whenever [order_domain_values] returns, it returns the domain of
    [var] as it stands in the store, and the store is what it was. *)
Lemma order_domain_values_inv c var a s vals s' :
  order_domain_values c var a s = Ok (vals, s') ->
  dict_get var (domains s) = Some vals /\ s' = s.
Proof.
  unfold order_domain_values; intros H.
  inv_bind H as dv s0 Hdv. apply domain_of_inv in Hdv; destruct Hdv as [Hdv ->].
  destruct (List.length dv =? 0) eqn:El.
  - injection H as <- <-. apply Nat.eqb_eq in El.
    destruct dv; [auto | discriminate].
  - inv_bind H as temp_domain s0 Ht. injection Ht as <- <-.
    inv_bind H as u1 s1 Hf.
    assert (Hc1 : searches s1 = searches s).
    { revert Hf; apply keeps_count_for_each; intros x; apply keeps_count_set_domain. }
    inv_bind H as dv' s1' Hdv'. apply domain_of_inv in Hdv'; destruct Hdv' as [_ ->].
    inv_bind H as keys s2 Hk.
    assert (Hc2 : searches s2 = searches s1).
    { revert Hk; apply keeps_count_map_m; intros x; apply keeps_count__value. }
    inv_bind H as u2 s3 Hp. injection Hp as _ <-.
    inv_bind H as v4 s4 Hg.
    apply domain_of_inv in Hg; simpl in Hg; destruct Hg as [Hg ->].
    injection H as <- <-.
    split; [assumption|].
    rewrite Hc2, Hc1; apply state_eta.
Qed.

(* ================================================================== *)
(** ** [sorted] rearranges, and puts a least key first *)
(* ================================================================== *)

Section SortedFacts.
Context {K A : Type} (ltb : K -> K -> bool).

Lemma insert_by_perm (x : K * A) l : Permutation (x :: l) (insert_by ltb x l).
Proof.
  induction l as [|y l IH]; simpl; [apply Permutation_refl|].
  destruct (ltb (fst y) (fst x)); [|apply Permutation_refl].
  eapply perm_trans; [apply perm_swap|]; apply perm_skip; exact IH.
Qed.

Lemma sort_by_perm (l : list (K * A)) : Permutation l (sort_by ltb l).
Proof.
  induction l as [|x l IH]; simpl; [apply perm_nil|].
  eapply perm_trans; [apply perm_skip; exact IH | apply insert_by_perm].
Qed.

Lemma sorted_In keys (xs : list A) x : In x (sorted ltb keys xs) -> In x xs.
Proof.
  unfold sorted; intros H; apply in_map_iff in H; destruct H as ([k y] & <- & H).
  apply (Permutation_in _ (Permutation_sym (sort_by_perm _))) in H.
  apply in_combine_r in H; assumption.
Qed.

Lemma sorted_nonempty keys (xs : list A) :
  List.length keys = List.length xs -> xs <> [] -> sorted ltb keys xs <> [].
Proof.
  unfold sorted; intros Hl Hx E; apply map_eq_nil in E.
  pose proof (Permutation_length (sort_by_perm (combine keys xs))) as Hp.
  rewrite E in Hp; simpl in Hp.
  rewrite length_combine, Hl, Nat.min_id in Hp.
  destruct xs; [congruence | discriminate].
Qed.

Hypothesis ltb_irrefl : forall k, ltb k k = false.
Hypothesis ltb_asym : forall k k', ltb k k' = true -> ltb k' k = false.
Hypothesis ltb_negtrans :
  forall k1 k2 k3, ltb k1 k2 = false -> ltb k2 k3 = false -> ltb k1 k3 = false.

Lemma insert_by_head_least (x : K * A) l :
  head_least ltb l -> head_least ltb (insert_by ltb x l).
Proof.
  destruct l as [|h t]; simpl.
  - intros _ y [<-|[]]; apply ltb_irrefl.
  - intros Hh; destruct (ltb (fst h) (fst x)) eqn:E; simpl.
    + intros y [<-|Hy]; [apply ltb_irrefl|].
      apply (Permutation_in _ (Permutation_sym (insert_by_perm x t))) in Hy.
      destruct Hy as [<-|Hy]; [apply ltb_asym; assumption|].
      apply Hh; right; assumption.
    + intros y [<-|Hy]; [apply ltb_irrefl|].
      eapply ltb_negtrans; [apply Hh; exact Hy | exact E].
Qed.

Lemma sort_by_head_least (l : list (K * A)) : head_least ltb (sort_by ltb l).
Proof.
  induction l as [|x l IH]; simpl; [exact I|].
  apply insert_by_head_least; exact IH.
Qed.
End SortedFacts.

Lemma pair_ltb_irrefl k : pair_ltb k k = false.
Proof.
  unfold pair_ltb; rewrite Nat.ltb_irrefl, Z.ltb_irrefl, andb_false_r; reflexivity.
Qed.

Ltac pair_ltb_solve :=
  unfold pair_ltb;
  repeat match goal with
         | |- context [?x <? ?y] => destruct (Nat.ltb_spec x y)
         | |- context [?x =? ?y] => destruct (Nat.eqb_spec x y)
         | |- context [(?x <? ?y)%Z] => destruct (Z.ltb_spec x y)
         | H : context [?x <? ?y] |- _ => destruct (Nat.ltb_spec x y)
         | H : context [?x =? ?y] |- _ => destruct (Nat.eqb_spec x y)
         | H : context [(?x <? ?y)%Z] |- _ => destruct (Z.ltb_spec x y)
         end; simpl in *; try reflexivity; try discriminate; try lia.

Lemma pair_ltb_asym k k' : pair_ltb k k' = true -> pair_ltb k' k = false.
Proof. destruct k, k'; simpl; intros H; revert H; pair_ltb_solve. Qed.

Lemma pair_ltb_negtrans k1 k2 k3 :
  pair_ltb k1 k2 = false -> pair_ltb k2 k3 = false -> pair_ltb k1 k3 = false.
Proof.
  destruct k1, k2, k3; simpl; intros H1 H2; revert H1 H2; pair_ltb_solve.
Qed.

Lemma pair_ltb_fst k k' : pair_ltb k k' = false -> fst k' <= fst k.
Proof. destruct k, k'; simpl; intros H; revert H; pair_ltb_solve. Qed.

(* ================================================================== *)
(** ** Variable selection *)
(* ================================================================== *)

Lemma map_m_inv {A B} (f : A -> M B) xs :
  (forall x, read_only (f x)) ->
  forall s ys s', map_m f xs s = Ok (ys, s') ->
  s' = s /\ Forall2 (fun x y => f x s = Ok (y, s)) xs ys.
Proof.
  intros Hf; induction xs as [|x xs IH]; simpl; intros s ys s' H.
  - injection H as <- <-; auto.
  - inv_bind H as y s1 Hy. pose proof (Hf _ _ _ _ Hy); subst s1.
    inv_bind H as ys' s2 Hys. apply IH in Hys; destruct Hys as [-> Hys].
    injection H as <- <-; auto.
Qed.

Lemma map_m_total {A B} (f : A -> M B) xs s :
  (forall x, In x xs -> exists y, f x s = Ok (y, s)) ->
  exists ys, map_m f xs s = Ok (ys, s).
Proof.
  induction xs as [|x xs IH]; simpl; intros H.
  - eexists; reflexivity.
  - destruct (H x (or_introl eq_refl)) as [y Hy].
    destruct IH as [ys Hys]; [intros; apply H; right; assumption|].
    exists (y :: ys); rewrite (bind_ok _ _ _ _ _ Hy), (bind_ok _ _ _ _ _ Hys).
    reflexivity.
Qed.

Lemma Forall2_combine_In {A B} (R : A -> B -> Prop) xs ys x y :
  Forall2 R xs ys -> In (y, x) (combine ys xs) -> R x y.
Proof.
  induction 1 as [|x0 y0 xs ys H0 H IH]; simpl; [tauto|].
  intros [E|E]; [injection E as -> ->; assumption | auto].
Qed.

Lemma Forall2_combine_ex {A B} (R : A -> B -> Prop) xs ys x :
  Forall2 R xs ys -> In x xs -> exists y, In (y, x) (combine ys xs).
Proof.
  induction 1 as [|x0 y0 xs ys H0 H IH]; simpl; [tauto|].
  intros [<-|E]; [eauto|]. destruct (IH E) as [y Hy]; eauto.
Qed.

Lemma read_only_select_key c var : read_only (select_key c var).
Proof. unfold select_key; auto with ro. Qed.

Lemma select_key_inv c var s k s' :
  select_key c var s = Ok (k, s') ->
  exists ws, dict_get var (domains s) = Some ws /\ fst k = List.length ws.
Proof.
  unfold select_key; intros H; inv_bind H as ws s1 Hw.
  apply domain_of_inv in Hw; destruct Hw as [Hw ->].
  injection H as <- <-; eauto.
Qed.

(** The selected variable is unassigned and has a smallest domain among
    the unassigned ones; nothing is selected only when none is left. *)
Lemma select_inv c a s r s' :
  select_unassigned_variable c a s = Ok (r, s') ->
  s' = s /\
  match r with
  | None => var_diff (variables c) (dict_keys a) = []
  | Some v =>
      In v (var_diff (variables c) (dict_keys a)) /\
      exists dv, dict_get v (domains s) = Some dv /\
        forall u du, In u (var_diff (variables c) (dict_keys a)) ->
                     dict_get u (domains s) = Some du ->
                     List.length dv <= List.length du
  end.
Proof.
  unfold select_unassigned_variable; intros H.
  set (vars := var_diff (variables c) (dict_keys a)) in *.
  inv_bind H as keys s1 Hk.
  apply map_m_inv in Hk; [|apply read_only_select_key].
  destruct Hk as [-> Hk]. injection H as <- <-. split; [reflexivity|].
  destruct (sorted pair_ltb keys vars) as [|v rest] eqn:Es.
  - destruct vars as [|u vars']; [reflexivity|].
    exfalso; revert Es; apply sorted_nonempty; [|discriminate].
    symmetry; eapply Forall2_length; eassumption.
  - split; [apply (sorted_In pair_ltb keys); rewrite Es; left; reflexivity|].
    unfold sorted in Es.
    pose proof (sort_by_head_least pair_ltb pair_ltb_irrefl pair_ltb_asym
                  pair_ltb_negtrans (combine keys vars)) as Hl.
    pose proof (sort_by_perm pair_ltb (combine keys vars)) as Hp.
    destruct (sort_by pair_ltb (combine keys vars)) as [|[kh h] t]; [discriminate|].
    simpl in Es; injection Es as -> _; simpl in Hl.
    assert (Hh : In (kh, v) (combine keys vars)).
    { apply (Permutation_in _ (Permutation_sym Hp)); left; reflexivity. }
    pose proof (Forall2_combine_In _ _ _ _ _ Hk Hh) as Hkv.
    apply select_key_inv in Hkv; destruct Hkv as (dv & Hdv & Hlen).
    exists dv; split; [assumption|]. intros u du Hu Hdu.
    destruct (Forall2_combine_ex _ _ _ _ Hk Hu) as [ku Hku].
    pose proof (Forall2_combine_In _ _ _ _ _ Hk Hku) as Hkk.
    apply select_key_inv in Hkk; destruct Hkk as (du' & Hdu' & Hlu).
    assert (du' = du) by congruence; subst du'.
    specialize (Hl (ku, u) (Permutation_in _ Hp Hku)); simpl in Hl.
    apply pair_ltb_fst in Hl; simpl in *; lia.
Qed.

Lemma select_total c a s :
  (forall u, In u (variables c) -> exists du, dict_get u (domains s) = Some du) ->
  exists r, select_unassigned_variable c a s = Ok (r, s).
Proof.
  intros Hd; unfold select_unassigned_variable.
  set (vars := var_diff (variables c) (dict_keys a)).
  destruct (map_m_total (select_key c) vars s) as [keys Hk].
  - intros u Hu. apply var_diff_In in Hu; destruct Hu as [Hu _].
    destruct (Hd u Hu) as [du Hdu]; eexists. unfold select_key.
    rewrite (bind_ok _ _ _ _ _ (domain_of_ok _ _ _ Hdu)); reflexivity.
  - rewrite (bind_ok _ _ _ _ _ Hk); eexists; reflexivity.
Qed.

(* ================================================================== *)
(** ** What a call of [backtrack] guarantees on return *)
(* ================================================================== *)

Lemma try_values_inv c recur _var vals :
  (forall a0 s r s', recur a0 s = Ok (r, s') -> search_post c a0 s r s') ->
  forall a s r s',
    ~ In _var (dict_keys a) ->
    try_values recur _var vals a s = Ok (r, s') ->
    search_post c a s r s'.
Proof.
  intros Hrec; induction vals as [|i vals IH]; simpl; intros a s r s' Hfresh H.
  - injection H as <- <-; repeat split; simpl; auto; discriminate.
  - inv_bind H as r1 s1 H1. apply Hrec in H1; destruct H1 as (Hf & Ht & Hd).
    destruct r1 as [[|] a1]; simpl in *.
    + unfold ret in H; injection H as <- <-.
      split; [discriminate | split; [intros _; apply Ht; reflexivity | assumption]].
    + rewrite (Hf eq_refl), dict_del_set in H by assumption.
      apply IH in H; [|assumption].
      destruct H as (Hf' & Ht' & Hd'); repeat split; auto; try apply Ht'; auto.
      congruence.
Qed.

Lemma backtrack_inv c fuel :
  forall a s r s',
    backtrack c fuel a s = Ok (r, s') -> search_post c a s r s'.
Proof.
  induction fuel as [|fuel IH]; simpl; intros a s r s' H; [discriminate|].
  inv_bind H as u s1 Ht. injection Ht as _ <-.
  inv_bind H as ok s2 Hc. apply lift_inv in Hc; destruct Hc as [Hc ->].
  destruct ok; simpl in H.
  2:{ injection H as <- <-; repeat split; simpl; auto; discriminate. }
  destruct (assignment_complete c a) eqn:Ec.
  { injection H as <- <-; repeat split; simpl; auto; discriminate. }
  inv_bind H as sel s3 Hs. apply select_inv in Hs; destruct Hs as [-> Hs].
  destruct sel as [_var|]; [|discriminate].
  destruct Hs as [Hin _]. apply var_diff_In in Hin; destruct Hin as [_ Hfresh].
  inv_bind H as vals s4 Ho. apply order_domain_values_inv in Ho.
  destruct Ho as [_ ->].
  apply (try_values_inv c _ _ _ IH) in H; [|assumption].
  destruct H as (Hf & Ht & Hd); repeat split; auto; apply Ht; auto.
Qed.

(* ================================================================== *)
(** ** The check [consistent] against the specification's definition *)
(* ================================================================== *)

Lemma get_in_range w : forall k, k < String.length w -> exists ch, String.get k w = Some ch.
Proof.
  induction w as [|ch0 w IH]; simpl; intros k Hk; [lia|].
  destruct k as [|k]; [eauto|]. apply IH; lia.
Qed.

Lemma str_index_ok w k :
  k < String.length w -> exists ch, str_index w k = Ok ch /\ String.get k w = Some ch.
Proof.
  intros Hk; destruct (get_in_range w k Hk) as [ch Hc].
  exists ch; unfold str_index; rewrite Hc; auto.
Qed.

Lemma str_index_inv w k ch : str_index w k = Ok ch -> String.get k w = Some ch.
Proof. unfold str_index; destruct (String.get k w); intros [=]; subst; auto. Qed.

Lemma ascii_eqb_eq a b : Ascii.eqb a b = true <-> a = b.
Proof. apply Ascii.eqb_eq. Qed.

Lemma nodup_length_le (l : list string) :
  List.length (nodup string_dec l) <= List.length l.
Proof.
  induction l as [|x l IH]; simpl; [lia|].
  destruct (in_dec string_dec x l); simpl; lia.
Qed.

Lemma nodup_length_NoDup (l : list string) :
  List.length (nodup string_dec l) = List.length l <-> NoDup l.
Proof.
  split.
  - induction l as [|x l IH]; simpl; [constructor|].
    destruct (in_dec string_dec x l) as [Hi|Hi]; simpl; intros H.
    + pose proof (nodup_length_le l); lia.
    + constructor; [assumption | apply IH; lia].
  - intros H; rewrite nodup_fixed_point; auto.
Qed.

Lemma lengths_check a :
  existsb (fun e : Var * string =>
             negb (String.length (snd e) =? var_length (fst e))) a = false <->
  (forall v w, In (v, w) a -> String.length w = var_length v).
Proof.
  split.
  - intros H v w Hin.
    destruct (Nat.eqb_spec (String.length w) (var_length v)) as [E|E]; [assumption|].
    assert (Ht : existsb (fun e : Var * string =>
                            negb (String.length (snd e) =? var_length (fst e))) a = true).
    { apply existsb_exists; exists (v, w); split; [assumption|]; simpl.
      apply negb_true_iff, Nat.eqb_neq; assumption. }
    congruence.
  - intros H.
    destruct (existsb _ a) eqn:E; [|reflexivity].
    apply existsb_exists in E; destruct E as ([v w] & Hin & Hne); simpl in Hne.
    apply negb_true_iff, Nat.eqb_neq in Hne. specialize (H v w Hin); contradiction.
Qed.

Lemma agree_neighbors_inv c a i n :
  agree_neighbors c a i n = Ok true ->
  forall j, In j n -> In j (dict_keys a) ->
  exists wi wj p q,
    dict_get i a = Some wi /\ dict_get j a = Some wj /\
    overlaps c i j = Some (p, q) /\ agree_at wi p wj q.
Proof.
  induction n as [|j0 n IH]; simpl; intros H j Hj Hk; [tauto|].
  destruct (var_mem j0 (dict_keys a)) eqn:Em.
  - destruct (dict_get i a) as [wi|] eqn:Ei; [simpl in H|discriminate].
    destruct (overlaps c i j0) as [[p q]|] eqn:Eo; [simpl in H|discriminate].
    destruct (str_index wi p) as [ci| |] eqn:Eci; try discriminate; simpl in H.
    destruct (dict_get j0 a) as [wj|] eqn:Ej; [simpl in H|discriminate].
    destruct (str_index wj q) as [cj| |] eqn:Ecj; try discriminate; simpl in H.
    destruct (Ascii.eqb ci cj) eqn:Ec; simpl in H; [|discriminate].
    destruct Hj as [<-|Hj]; [|eapply IH; eassumption].
    apply ascii_eqb_eq in Ec; subst cj.
    exists wi, wj, p, q; repeat split; auto.
    exists ci; split; apply str_index_inv; assumption.
  - destruct Hj as [<-|Hj]; [|eapply IH; eassumption].
    apply var_mem_In in Hk; congruence.
Qed.

Lemma agree_all_inv c a keys :
  agree_all c a keys = Ok true ->
  forall i, In i keys -> agree_neighbors c a i (neighbors c i) = Ok true.
Proof.
  induction keys as [|i0 keys IH]; simpl; intros H i Hi; [tauto|].
  destruct (agree_neighbors c a i0 (neighbors c i0)) as [[|]| |] eqn:E;
    simpl in H; try discriminate.
  destruct Hi as [<-|Hi]; auto.
Qed.

(** A dictionary that passes [consistent] is consistent in the sense of
    the specification. *)
Lemma consistent_sound c a : consistent c a = Ok true -> consistent_spec c a.
Proof.
  unfold consistent; intros H.
  destruct (List.length (dict_values a) =? List.length (word_set (dict_values a))) eqn:El;
    simpl in H; [|discriminate].
  destruct (existsb _ a) eqn:Ee; [discriminate|].
  constructor.
  - apply nodup_length_NoDup. apply Nat.eqb_eq in El. symmetry; exact El.
  - apply lengths_check; assumption.
  - intros x y wx wy i j Hx Hy Hn Ho.
    assert (Hkx : In x (dict_keys a)) by (apply dict_get_keys; eauto).
    assert (Hky : In y (dict_keys a)) by (apply dict_get_keys; eauto).
    pose proof (agree_all_inv _ _ _ H x Hkx) as Hx'.
    destruct (agree_neighbors_inv _ _ _ _ Hx' y Hn Hky)
      as (wi & wj & p & q & Hi & Hj & Ho' & Hag).
    congruence.
Qed.

Lemma complete_sound c a : assignment_complete c a = true -> complete_spec c a.
Proof.
  unfold assignment_complete, complete_spec; intros H v Hv.
  apply Nat.eqb_eq in H. apply length_zero_iff_nil in H.
  apply dict_get_keys.
  destruct (in_dec var_eq_dec v (dict_keys a)) as [Hi|Hi]; [assumption|].
  assert (Hd : In v (var_diff (variables c) (dict_keys a)))
    by (apply var_diff_In; auto).
  rewrite H in Hd; destruct Hd.
Qed.

Lemma complete_iff c a :
  assignment_complete c a = true <-> incl (variables c) (dict_keys a).
Proof.
  unfold assignment_complete; rewrite Nat.eqb_eq, length_zero_iff_nil; split.
  - intros H v Hv.
    destruct (in_dec var_eq_dec v (dict_keys a)) as [Hi|Hi]; [assumption|].
    assert (Hd : In v (var_diff (variables c) (dict_keys a)))
      by (apply var_diff_In; auto).
    rewrite H in Hd; destruct Hd.
  - intros H. destruct (var_diff (variables c) (dict_keys a)) as [|v l] eqn:E;
      [reflexivity|].
    assert (Hd : In v (var_diff (variables c) (dict_keys a)))
      by (rewrite E; left; reflexivity).
    apply var_diff_In in Hd; destruct Hd as [Hv Hn]; exfalso; auto.
Qed.

(** Under the range invariant, with every word as long as its variable,
    the neighbor check reads only characters that exist. *)
Lemma agree_neighbors_total c a i n :
  (forall x y p q, overlaps c x y = Some (p, q) ->
                   p < var_length x /\ q < var_length y) ->
  (forall v w, In (v, w) a -> String.length w = var_length v) ->
  In i (dict_keys a) ->
  incl n (neighbors c i) ->
  exists b, agree_neighbors c a i n = Ok b /\
    ((forall j wi wj p q, In j n -> dict_get i a = Some wi ->
        dict_get j a = Some wj -> overlaps c i j = Some (p, q) ->
        agree_at wi p wj q) -> b = true).
Proof.
  intros Hr Hl Hi; induction n as [|j n IH]; simpl; intros Hn.
  - exists true; auto.
  - destruct IH as (b & Hb & Hbt); [intros u Hu; apply Hn; right; assumption|].
    destruct (var_mem j (dict_keys a)) eqn:Em.
    2:{ exists b; split; [assumption|]. intros H; apply Hbt.
        intros j' wi' wj' p' q' Hj'; apply H; right; assumption. }
    apply dict_get_keys in Hi; destruct Hi as [wi Hwi].
    apply var_mem_In, dict_get_keys in Em; destruct Em as [wj Hwj].
    assert (Hj : In j (neighbors c i)) by (apply Hn; left; reflexivity).
    apply neighbors_In in Hj; destruct Hj as (_ & _ & [p q] & Ho).
    destruct (Hr _ _ _ _ Ho) as [Hp Hq].
    rewrite Hwi, Ho, Hwj; simpl.
    rewrite <- (Hl _ _ (dict_get_In _ _ _ Hwi)) in Hp.
    rewrite <- (Hl _ _ (dict_get_In _ _ _ Hwj)) in Hq.
    destruct (str_index_ok _ _ Hp) as (ci & Hci & Hgi).
    destruct (str_index_ok _ _ Hq) as (cj & Hcj & Hgj).
    rewrite Hci, Hcj; simpl.
    destruct (Ascii.eqb ci cj) eqn:Ec; simpl.
    + exists b; split; [assumption|]. intros H; apply Hbt.
      intros j' wi' wj' p' q' Hj' Hi'; apply H; [right; assumption | congruence].
    + exists false; split; [reflexivity|]. intros H.
      destruct (H j wi wj p q (or_introl eq_refl) eq_refl Hwj Ho) as (ch & H1 & H2).
      assert (ci = cj) by congruence. apply ascii_eqb_eq in H0; congruence.
Qed.

Lemma agree_all_total c a keys :
  (forall x y p q, overlaps c x y = Some (p, q) ->
                   p < var_length x /\ q < var_length y) ->
  (forall v w, In (v, w) a -> String.length w = var_length v) ->
  incl keys (dict_keys a) ->
  exists b, agree_all c a keys = Ok b /\
    ((forall i j wi wj p q, In j (neighbors c i) -> dict_get i a = Some wi ->
        dict_get j a = Some wj -> overlaps c i j = Some (p, q) ->
        agree_at wi p wj q) -> b = true).
Proof.
  intros Hr Hl; induction keys as [|i keys IH]; simpl; intros Hk.
  - exists true; auto.
  - destruct (agree_neighbors_total c a i (neighbors c i) Hr Hl)
      as (b1 & Hb1 & Ht1); [apply Hk; left; reflexivity | apply incl_refl|].
    destruct IH as (b2 & Hb2 & Ht2); [intros u Hu; apply Hk; right; assumption|].
    rewrite Hb1; simpl. destruct b1.
    + exists b2; split; [assumption|]. intros H; apply Ht2; assumption.
    + exists false; split; [reflexivity|]. intros H; apply Ht1.
      intros; eapply H; eauto.
Qed.

(** [consistent] always answers under the range invariant, and answers
    [True] on a dictionary that is consistent per the specification. *)
Lemma consistent_total c a :
  (forall x y p q, overlaps c x y = Some (p, q) ->
                   p < var_length x /\ q < var_length y) ->
  exists b, consistent c a = Ok b /\ (consistent_spec c a -> b = true).
Proof.
  intros Hr; unfold consistent.
  destruct (List.length (dict_values a) =? List.length (word_set (dict_values a))) eqn:El;
    simpl.
  2:{ exists false; split; [reflexivity|]. intros [Hd _ _].
      apply nodup_length_NoDup in Hd. apply Nat.eqb_neq in El.
      unfold word_set in El; congruence. }
  destruct (existsb _ a) eqn:Ee.
  { exists false; split; [reflexivity|]. intros [_ Hl _].
    apply lengths_check in Hl; congruence. }
  pose proof (proj1 (lengths_check a) Ee) as Hl.
  destruct (agree_all_total c a (dict_keys a) Hr Hl (incl_refl _)) as (b & Hb & Ht).
  exists b; split; [assumption|]. intros [_ _ Hag]; apply Ht.
  intros; eapply Hag; eauto.
Qed.

(* ================================================================== *)
(** ** Removing words from a domain *)
(* ================================================================== *)

Lemma remove_all_filter ws s :
  remove_all ws s = filter (fun u => negb (existsb (String.eqb u) ws)) s.
Proof.
  revert s; induction ws as [|w ws IH]; simpl; intros s.
  - induction s as [|u s IHs]; simpl; [reflexivity | rewrite <- IHs; reflexivity].
  - unfold remove_all in *; simpl; rewrite IH. unfold set_remove.
    induction s as [|u s IHs]; simpl; [reflexivity|].
    destruct (String.eqb u w); simpl; rewrite IHs; reflexivity.
Qed.

Lemma existsb_eqb_In u (ws : list string) :
  existsb (String.eqb u) ws = true <-> In u ws.
Proof.
  rewrite existsb_exists; split.
  - intros (w & Hw & E); apply String.eqb_eq in E; subst; assumption.
  - intros H; exists u; split; [assumption | apply String.eqb_refl].
Qed.

(** Removing exactly the words that fail [keep] leaves those that pass. *)
Lemma remove_all_rejects keep (s : list string) :
  remove_all (filter (fun w => negb (keep w)) s) s = filter keep s.
Proof.
  rewrite remove_all_filter; apply filter_ext_in; intros u Hu.
  destruct (keep u) eqn:Ek.
  - apply negb_true_iff.
    destruct (existsb _ _) eqn:E; [|reflexivity].
    apply existsb_eqb_In, filter_In in E; destruct E as [_ E].
    rewrite Ek in E; discriminate.
  - apply negb_false_iff, existsb_eqb_In, filter_In; split; [assumption|].
    rewrite Ek; reflexivity.
Qed.

Lemma for_each_remove v ws : forall s dv,
  dict_get v (domains s) = Some dv ->
  for_each ws (fun word => domain_remove v word) s =
  Ok (tt, mkState (dict_set v (remove_all ws dv) (domains s)) (searches s)).
Proof.
  induction ws as [|w ws IH]; simpl; intros s dv Hg.
  - unfold remove_all; simpl. rewrite (dict_set_id _ _ _ Hg), state_eta; reflexivity.
  - assert (Hr : domain_remove v w s =
                 Ok (tt, mkState (dict_set v (set_remove w dv) (domains s))
                                 (searches s))).
    { unfold domain_remove.
      rewrite (bind_ok _ _ _ _ _ (domain_of_ok _ _ _ Hg)); reflexivity. }
    rewrite (bind_ok _ _ _ _ _ Hr).
    rewrite (IH _ (set_remove w dv)); simpl.
    + rewrite dict_set_set; reflexivity.
    + apply dict_get_set_same.
Qed.

Lemma shrunk_refl ws : shrunk ws ws.
Proof.
  exists (fun _ => true). induction ws; simpl; congruence.
Qed.

Lemma shrunk_trans ws1 ws2 ws3 : shrunk ws1 ws2 -> shrunk ws2 ws3 -> shrunk ws1 ws3.
Proof.
  intros [f ->] [g ->]. exists (fun w => g w && f w).
  induction ws3 as [|w ws IH]; simpl; [reflexivity|].
  destruct (g w); simpl; [destruct (f w)|]; rewrite IH; reflexivity.
Qed.

Lemma shrunk_incl ws' ws : shrunk ws' ws -> incl ws' ws.
Proof. intros [f ->] w H; apply filter_In in H; tauto. Qed.

Lemma shrunk_length ws' ws : shrunk ws' ws -> List.length ws' <= List.length ws.
Proof. intros [f ->]; apply filter_length_le. Qed.

Lemma store_le_refl d : store_le d d.
Proof.
  induction d; constructor; auto using shrunk_refl.
Qed.

Lemma store_le_trans d1 d2 d3 : store_le d1 d2 -> store_le d2 d3 -> store_le d1 d3.
Proof.
  unfold store_le; intros H12; revert d3; induction H12 as [|e1 e2 d1 d2 [Hk Hs] H IH];
    intros d3 H23; inversion H23 as [|e2' e3 d2' d3' [Hk' Hs'] H']; subst; constructor.
  - split; [congruence | eapply shrunk_trans; eassumption].
  - apply IH; assumption.
Qed.

Lemma store_le_set v ws dv d :
  dict_get v d = Some dv -> shrunk ws dv -> store_le (dict_set v ws d) d.
Proof.
  induction d as [|[k0 v0] d IH]; simpl; [discriminate|].
  destruct (var_eqb v k0).
  - intros [= ->] Hs; constructor; [auto | apply store_le_refl].
  - intros Hg Hs; constructor; [auto using shrunk_refl | apply IH; assumption].
Qed.

Lemma store_le_get d' d v ws' :
  store_le d' d -> dict_get v d' = Some ws' ->
  exists ws, dict_get v d = Some ws /\ shrunk ws' ws.
Proof.
  induction 1 as [|[k' w'] [k w] d' d [Hk Hs] H IH]; simpl in *; [discriminate|].
  subst k'; destruct (var_eqb v k); [intros [= <-]; eauto | exact IH].
Qed.

Lemma store_le_get_back d' d v ws :
  store_le d' d -> dict_get v d = Some ws ->
  exists ws', dict_get v d' = Some ws' /\ shrunk ws' ws.
Proof.
  induction 1 as [|[k' w'] [k w] d' d [Hk Hs] H IH]; simpl in *; [discriminate|].
  subst k'; destruct (var_eqb v k); [intros [= <-]; eauto | exact IH].
Qed.

Lemma store_le_keys d' d : store_le d' d -> dict_keys d' = dict_keys d.
Proof.
  induction 1 as [|e' e d' d [Hk _] H IH]; simpl; congruence.
Qed.

Lemma store_le_size d' d : store_le d' d -> total_size d' <= total_size d.
Proof.
  unfold total_size.
  induction 1 as [|e' e d' d [_ Hs] H IH]; simpl; [lia|].
  apply shrunk_length in Hs; lia.
Qed.

Lemma total_size_set v ws dv d :
  dict_get v d = Some dv ->
  total_size (dict_set v ws d) + List.length dv = total_size d + List.length ws.
Proof.
  unfold total_size.
  induction d as [|[k0 v0] d IH]; simpl; [discriminate|].
  destruct (var_eqb v k0); simpl.
  - intros [= ->]; lia.
  - intros Hg; specialize (IH Hg); lia.
Qed.

Lemma state_le_refl s : state_le s s.
Proof. split; [apply store_le_refl | reflexivity]. Qed.

Lemma state_le_trans s1 s2 s3 : state_le s1 s2 -> state_le s2 s3 -> state_le s1 s3.
Proof.
  intros [H1 E1] [H2 E2]; split; [eapply store_le_trans; eassumption | congruence].
Qed.

Lemma for_each_state_le {A} (body : A -> M unit) xs :
  (forall x s u s', body x s = Ok (u, s') -> state_le s' s) ->
  forall s u s', for_each xs body s = Ok (u, s') -> state_le s' s.
Proof.
  intros Hb; induction xs as [|x xs IH]; simpl; intros s u s' H.
  - injection H as _ <-; apply state_le_refl.
  - inv_bind H as u1 s1 H1.
    eapply state_le_trans; [eapply IH; eassumption | eapply Hb; eassumption].
Qed.

(* ================================================================== *)
(** ** Node consistency *)
(* ================================================================== *)

Lemma node_step_eq variable s ws :
  dict_get variable (domains s) = Some ws ->
  node_step variable s =
  Ok (tt, mkState (dict_set variable (filter (fits variable) ws) (domains s))
                  (searches s)).
Proof.
  intros Hg; unfold node_step.
  rewrite (bind_ok _ _ _ _ _ (domain_of_ok _ _ _ Hg)).
  rewrite (for_each_remove _ _ _ _ Hg).
  rewrite (remove_all_rejects (fits variable)); reflexivity.
Qed.

Lemma node_step_le variable s u s' :
  node_step variable s = Ok (u, s') -> state_le s' s.
Proof.
  intros H. destruct (dict_get variable (domains s)) as [ws|] eqn:Hg.
  - rewrite (node_step_eq _ _ _ Hg) in H; injection H as _ <-; split; simpl; auto.
    eapply store_le_set; [eassumption | eexists; reflexivity].
  - unfold node_step in H; inv_bind H as ws s1 Hd.
    apply domain_of_inv in Hd; destruct Hd; congruence.
Qed.

Lemma enforce_node_consistency_le s u s' :
  enforce_node_consistency s = Ok (u, s') -> state_le s' s.
Proof.
  unfold enforce_node_consistency; intros H.
  inv_bind H as d s1 Hd; injection Hd as <- <-.
  revert H; apply for_each_state_le; intros x; apply node_step_le.
Qed.

Lemma dict_get_app_r {V} k (d1 d2 : dict V) :
  ~ In k (dict_keys d1) -> dict_get k (d1 ++ d2) = dict_get k d2.
Proof.
  induction d1 as [|[k0 v0] d1 IH]; simpl; [reflexivity|].
  intros H; var_cases k k0; [exfalso; auto | apply IH; auto].
Qed.

Lemma dict_set_app_r {V} k (v : V) (d1 d2 : dict V) :
  ~ In k (dict_keys d1) -> dict_set k v (d1 ++ d2) = d1 ++ dict_set k v d2.
Proof.
  induction d1 as [|[k0 v0] d1 IH]; simpl; [reflexivity|].
  intros H; var_cases k k0; [exfalso; auto | rewrite IH; auto].
Qed.

Lemma node_loop_eq d2 : forall d1 n,
  NoDup (dict_keys (d1 ++ d2)) ->
  for_each (dict_keys d2) node_step (mkState (d1 ++ d2) n) =
  Ok (tt, mkState (d1 ++ node_filtered d2) n).
Proof.
  induction d2 as [|[k ws] d2 IH]; simpl; intros d1 n Hn; [reflexivity|].
  assert (Hk : ~ In k (dict_keys d1)).
  { unfold dict_keys in Hn; rewrite map_app in Hn; simpl in Hn.
    apply NoDup_remove_2 in Hn. intros Hin; apply Hn, in_or_app; left; exact Hin. }
  assert (Hg : dict_get k (domains (mkState (d1 ++ (k, ws) :: d2) n)) = Some ws).
  { simpl; rewrite dict_get_app_r by assumption; simpl.
    rewrite var_eqb_refl; reflexivity. }
  rewrite (bind_ok _ _ _ _ _ (node_step_eq _ _ _ Hg)); simpl.
  rewrite dict_set_app_r by assumption; simpl; rewrite var_eqb_refl.
  change (d1 ++ (k, filter (fits k) ws) :: d2)
    with (d1 ++ [(k, filter (fits k) ws)] ++ d2).
  rewrite app_assoc, IH.
  - rewrite <- app_assoc; reflexivity.
  - rewrite <- app_assoc; simpl.
    unfold dict_keys in *; rewrite map_app in *; simpl in *; exact Hn.
Qed.

Lemma enforce_node_consistency_eq s :
  NoDup (dict_keys (domains s)) ->
  enforce_node_consistency s =
  Ok (tt, mkState (node_filtered (domains s)) (searches s)).
Proof.
  intros Hn; unfold enforce_node_consistency.
  unfold bind at 1; simpl.
  destruct s as [d n]; simpl in *.
  apply (node_loop_eq d [] n); exact Hn.
Qed.

(* ================================================================== *)
(** ** [revise] *)
(* ================================================================== *)

Lemma chars_eqb_agree wx i wy j : chars_eqb wx i wy j = true <-> agree_at wx i wy j.
Proof.
  unfold chars_eqb, agree_at.
  destruct (String.get i wx) as [a|], (String.get j wy) as [b|]; split;
    try discriminate; try (intros (ch & H1 & H2); discriminate).
  - intros H; apply ascii_eqb_eq in H; subst; eauto.
  - intros (ch & [= ->] & [= ->]); apply ascii_eqb_eq; reflexivity.
Qed.

Lemma has_match_iff wx i dy j :
  has_match wx i dy j = true <-> exists wy, In wy dy /\ agree_at wx i wy j.
Proof.
  unfold has_match; rewrite existsb_exists.
  split; intros (wy & H1 & H2); exists wy; split; auto; apply chars_eqb_agree; auto.
Qed.

Lemma match_found_inv wx i dy j b :
  match_found wx i dy j = Ok b -> b = has_match wx i dy j.
Proof.
  induction dy as [|wy dy IH]; simpl; [intros [= <-]; reflexivity|].
  unfold str_index, chars_eqb.
  destruct (String.get i wx) as [a|]; simpl; [|discriminate].
  destruct (String.get j wy) as [b'|]; simpl; [|discriminate].
  destruct (Ascii.eqb a b'); simpl; [intros [= <-]; reflexivity | exact IH].
Qed.

Lemma match_found_total wx i dy j :
  i < String.length wx -> (forall wy, In wy dy -> j < String.length wy) ->
  match_found wx i dy j = Ok (has_match wx i dy j).
Proof.
  intros Hi; induction dy as [|wy dy IH]; simpl; intros Hj; [reflexivity|].
  destruct (str_index_ok wx i Hi) as (a & Ha & Ga).
  destruct (str_index_ok wy j (Hj wy (or_introl eq_refl))) as (b & Hb & Gb).
  rewrite Ha, Hb; simpl. unfold chars_eqb; rewrite Ga, Gb.
  destruct (Ascii.eqb a b); simpl; [reflexivity|].
  apply IH; intros; apply Hj; right; assumption.
Qed.

Lemma revise_scan_inv y i j dx : forall s tr s',
  revise_scan y i j dx s = Ok (tr, s') ->
  s' = s /\ (dx = [] -> tr = []) /\
  forall dy, dict_get y (domains s) = Some dy ->
             tr = filter (fun wx => negb (has_match wx i dy j)) dx.
Proof.
  induction dx as [|wx dx IH]; simpl; intros s tr s' H.
  - injection H as <- <-; auto.
  - inv_bind H as dy s1 Hd. apply domain_of_inv in Hd; destruct Hd as [Hd ->].
    inv_bind H as found s2 Hf. apply lift_inv in Hf; destruct Hf as [Hf ->].
    inv_bind H as rest s3 Hr. apply IH in Hr; destruct Hr as (-> & _ & Hr).
    injection H as <- <-. split; [reflexivity|]. split; [discriminate|].
    intros dy' Hd'; assert (dy' = dy) by congruence; subst dy'.
    apply match_found_inv in Hf; subst found.
    rewrite (Hr dy Hd). destruct (has_match wx i dy j); reflexivity.
Qed.

Lemma revise_scan_nonempty y i j dx s tr s' :
  revise_scan y i j dx s = Ok (tr, s') -> dx <> [] ->
  exists dy, dict_get y (domains s) = Some dy.
Proof.
  destruct dx as [|wx dx]; [congruence|]; simpl; intros H _.
  inv_bind H as dy s1 Hd. apply domain_of_inv in Hd; destruct Hd as [Hd _]; eauto.
Qed.

Lemma revise_scan_total y i j dy s : forall dx,
  dict_get y (domains s) = Some dy ->
  (forall wx, In wx dx -> i < String.length wx) ->
  (forall wy, In wy dy -> j < String.length wy) ->
  revise_scan y i j dx s =
  Ok (filter (fun wx => negb (has_match wx i dy j)) dx, s).
Proof.
  intros dx Hd; induction dx as [|wx dx IH]; simpl; intros Hi Hj; [reflexivity|].
  rewrite (bind_ok _ _ _ _ _ (domain_of_ok _ _ _ Hd)).
  assert (Hl : lift (match_found wx i dy j) s = Ok (has_match wx i dy j, s)).
  { unfold lift; rewrite match_found_total; auto. }
  rewrite (bind_ok _ _ _ _ _ Hl).
  rewrite (bind_ok _ _ _ _ _ (IH (fun w Hw => Hi w (or_intror Hw)) Hj)).
  unfold ret; destruct (has_match wx i dy j); reflexivity.
Qed.

Lemma filter_all_length {A} (f : A -> bool) l :
  List.length (filter f l) = List.length l -> filter f l = l.
Proof.
  induction l as [|x l IH]; simpl; [reflexivity|].
  destruct (f x); simpl; intros H.
  - rewrite IH; [reflexivity | lia].
  - pose proof (filter_length_le f l); lia.
Qed.

Lemma filter_negb_nil {A} (f : A -> bool) l :
  filter (fun x => negb (f x)) l = [] -> filter f l = l.
Proof.
  induction l as [|x l IH]; simpl; [reflexivity|].
  destruct (f x); simpl; [intros H; rewrite IH; auto | discriminate].
Qed.

Lemma filter_negb_length {A} (f : A -> bool) l :
  List.length (filter f l) + List.length (filter (fun x => negb (f x)) l)
  = List.length l.
Proof.
  induction l as [|x l IH]; simpl; [reflexivity|].
  destruct (f x); simpl; lia.
Qed.

(** Everything [revise] can do when it returns. *)
Lemma revise_inv c x y s r s' :
  revise c x y s = Ok (r, s') ->
  match overlaps c x y with
  | None => r = false /\ s' = s
  | Some (i, j) =>
      exists dx dy,
        dict_get x (domains s) = Some dx /\
        (dx <> [] -> dict_get y (domains s) = Some dy) /\
        s' = revised_state s x i dx dy j /\
        (r = false -> s' = s) /\
        (r = true ->
         List.length (filter (fun wx => has_match wx i dy j) dx) < List.length dx)
  end.
Proof.
  unfold revise; destruct (overlaps c x y) as [[i j]|].
  2:{ intros [= <- <-]; auto. }
  intros H. inv_bind H as dx s1 Hd. apply domain_of_inv in Hd; destruct Hd as [Hd ->].
  inv_bind H as tr s2 Hs.
  pose proof (revise_scan_nonempty _ _ _ _ _ _ _ Hs) as Hne.
  apply revise_scan_inv in Hs; destruct Hs as (-> & Hnil & Hs).
  rewrite (bind_ok _ _ _ _ _ (for_each_remove _ _ _ _ Hd)) in H.
  injection H as <- <-.
  assert (Hex : exists dy, (dx <> [] -> dict_get y (domains s) = Some dy) /\
                           tr = filter (fun wx => negb (has_match wx i dy j)) dx).
  { destruct dx as [|w0 dx0].
    - exists []. split; [congruence | apply Hnil; reflexivity].
    - destruct Hne as [dy Hdy]; [discriminate|].
      exists dy; split; auto. }
  destruct Hex as (dy & Hdy & ->).
  exists dx, dy. split; [assumption|]. split; [assumption|].
  rewrite remove_all_rejects.
  split; [reflexivity|]. split.
  - intros Hr. apply negb_false_iff, Nat.eqb_eq, length_zero_iff_nil in Hr.
    rewrite (filter_negb_nil _ _ Hr), (dict_set_id _ _ _ Hd). apply state_eta.
  - intros Hr. apply negb_true_iff, Nat.eqb_neq in Hr.
    pose proof (filter_negb_length (fun wx => has_match wx i dy j) dx) as Hsum.
    cbv beta in Hsum. lia.
Qed.

Lemma revise_total c x y s i j dx dy :
  overlaps c x y = Some (i, j) ->
  dict_get x (domains s) = Some dx ->
  dict_get y (domains s) = Some dy ->
  (forall wx, In wx dx -> i < String.length wx) ->
  (forall wy, In wy dy -> j < String.length wy) ->
  revise c x y s =
  Ok (negb (List.length (filter (fun wx => negb (has_match wx i dy j)) dx) =? 0),
      revised_state s x i dx dy j).
Proof.
  intros Ho Hx Hy Hi Hj; unfold revise; rewrite Ho.
  rewrite (bind_ok _ _ _ _ _ (domain_of_ok _ _ _ Hx)).
  rewrite (bind_ok _ _ _ _ _ (revise_scan_total _ _ _ _ _ _ Hy Hi Hj)).
  rewrite (bind_ok _ _ _ _ _ (for_each_remove _ _ _ _ Hx)).
  rewrite remove_all_rejects. reflexivity.
Qed.

Lemma revise_le c x y s r s' : revise c x y s = Ok (r, s') -> state_le s' s.
Proof.
  intros H; apply revise_inv in H. destruct (overlaps c x y) as [[i j]|].
  - destruct H as (dx & dy & Hx & _ & -> & _); split; simpl; [|reflexivity].
    eapply store_le_set; [eassumption | eexists; reflexivity].
  - destruct H as [_ ->]; apply state_le_refl.
Qed.

(* ================================================================== *)
(** ** The AC-3 loop *)
(* ================================================================== *)

(** A property of queue and state that one round of the loop maintains
    holds when the loop returns; on success the queue is empty. *)
Lemma ac3_loop_invariant c (P : list (Var * Var) -> state -> Prop) :
  (forall x y q s r s1,
      P ((x, y) :: q) s -> revise c x y s = Ok (r, s1) ->
      P (if r then q ++ requeued c x y else q) s1) ->
  forall fuel q s r s',
    P q s -> ac3_loop c fuel q s = Ok (r, s') ->
    exists q', P q' s' /\ (r = true -> q' = []).
Proof.
  intros Hstep; induction fuel as [|fuel IH]; intros q s r s' HP H.
  - destruct q as [|[x y] q]; simpl in H; [|discriminate].
    injection H as <- <-; eauto.
  - destruct q as [|[x y] q]; simpl in H.
    { injection H as <- <-; eauto. }
    inv_bind H as revised s1 Hr.
    pose proof (Hstep _ _ _ _ _ _ HP Hr) as HP1.
    destruct revised.
    + inv_bind H as dx s2 Hd. apply domain_of_inv in Hd; destruct Hd as [Hd ->].
      destruct (List.length dx =? 0).
      * injection H as <- <-; eexists; split; [eassumption | discriminate].
      * eapply IH; eassumption.
    + eapply IH; eassumption.
Qed.

Lemma ac3_loop_le c fuel q s r s' :
  ac3_loop c fuel q s = Ok (r, s') -> state_le s' s.
Proof.
  intros H.
  assert (Hstep : forall x y (q0 : list (Var * Var)) s0 r0 s1,
             state_le s0 s -> revise c x y s0 = Ok (r0, s1) -> state_le s1 s).
  { intros x y q0 s0 r0 s1 Hle Hr.
    eapply state_le_trans; [eapply revise_le; eassumption | assumption]. }
  destruct (ac3_loop_invariant c (fun _ s1 => state_le s1 s) Hstep
              _ _ _ _ _ (state_le_refl s) H) as (q' & Hle & _).
  exact Hle.
Qed.

Lemma requeued_In c x y u v :
  In (u, v) (requeued c x y) <-> v = x /\ In u (neighbors c x) /\ u <> y.
Proof.
  unfold requeued; rewrite in_map_iff; split.
  - intros (n & [= <- <-] & Hn); apply var_diff_In in Hn; simpl in Hn.
    destruct Hn as [Hn Hy]; repeat split; auto.
  - intros (-> & Hu & Hn); exists u; split; [reflexivity|].
    apply var_diff_In; split; [assumption|]. simpl; intros [E|[]]; congruence.
Qed.

Lemma requeued_wf c x y :
  wf_crossword c -> In x (variables c) -> queue_wf c (requeued c x y).
Proof.
  intros W Hx u v H; apply requeued_In in H; destruct H as (-> & Hu & _).
  split; [apply neighbors_In in Hu; tauto | apply neighbors_sym; assumption].
Qed.

Lemma queue_wf_step c x y q (r : bool) :
  wf_crossword c -> queue_wf c ((x, y) :: q) ->
  queue_wf c (if r then q ++ requeued c x y else q).
Proof.
  intros W Hq u v H.
  assert (Hx : In x (variables c)) by (apply (Hq x y); left; reflexivity).
  destruct r; [apply in_app_or in H; destruct H as [H|H]|].
  - apply Hq; right; assumption.
  - eapply requeued_wf; eassumption.
  - apply Hq; right; assumption.
Qed.

Lemma requeued_length c x y : List.length (requeued c x y) <= List.length (variables c).
Proof.
  unfold requeued, var_diff, neighbors; rewrite length_map.
  eapply Nat.le_trans; [apply filter_length_le|]. apply filter_length_le.
Qed.

(** *** Arc consistency on success *)

Lemma agree_at_sym wx i wy j : agree_at wx i wy j -> agree_at wy j wx i.
Proof. intros (ch & H1 & H2); exists ch; auto. Qed.

Lemma revise_arcs_inv c x y q s r s1 :
  wf_crossword c ->
  queue_wf c ((x, y) :: q) ->
  arcs_inv c ((x, y) :: q) (domains s) ->
  revise c x y s = Ok (r, s1) ->
  arcs_inv c (if r then q ++ requeued c x y else q) (domains s1).
Proof.
  intros W Hq Hinv Hr.
  destruct (Hq x y (or_introl eq_refl)) as [Hx Hy].
  pose proof Hy as Hy'. apply neighbors_In in Hy'.
  destruct Hy' as (Hyv & Hyx & [i j] & Ho).
  apply revise_inv in Hr; rewrite Ho in Hr.
  destruct Hr as (dx & dy & Hdx & Hdy & -> & Hfalse & _).
  set (dx' := filter (fun wx => has_match wx i dy j) dx) in *.
  assert (Hgx : dict_get x (domains (revised_state s x i dx dy j)) = Some dx')
    by apply dict_get_set_same.
  assert (Hgo : forall v, v <> x ->
            dict_get v (domains (revised_state s x i dx dy j))
            = dict_get v (domains s))
    by (intros v Hv; apply dict_get_set_other; assumption).
  (* the arc just revised *)
  assert (Hxy : arc_consistent c (domains (revised_state s x i dx dy j)) x y).
  { intros i' j' dx0 w Ho' Hg Hin.
    rewrite Ho in Ho'; injection Ho' as <- <-.
    rewrite Hgx in Hg; injection Hg as <-.
    apply filter_In in Hin; destruct Hin as [Hin Hm].
    apply has_match_iff in Hm; destruct Hm as (wy & Hwy & Hag).
    exists dy, wy; repeat split; auto.
    rewrite Hgo by assumption. apply Hdy; intros E; rewrite E in Hin; destruct Hin. }
  (* the reverse arc stays consistent: its support was not removed *)
  assert (Hyx' : arc_consistent c (domains s) y x ->
                 arc_consistent c (domains (revised_state s x i dx dy j)) y x).
  { intros Hold i' j' dy0 w Ho' Hg Hin.
    pose proof (wf_sym c W _ _ _ _ Ho) as Hs.
    rewrite Hs in Ho'; injection Ho' as <- <-.
    rewrite Hgo in Hg by assumption.
    destruct (Hold _ _ _ _ Hs Hg Hin) as (dx0 & w' & Hg' & Hin' & Hag).
    assert (dx0 = dx) by congruence; subst dx0.
    assert (dy0 = dy).
    { assert (Hne : dx <> []) by (intros E; rewrite E in Hin'; destruct Hin').
      specialize (Hdy Hne); congruence. }
    subst dy0.
    exists dx', w'; repeat split; auto.
    apply filter_In; split; [assumption|].
    apply has_match_iff; exists w; split; [assumption | apply agree_at_sym; assumption]. }
  (* arcs whose second end is not [x] *)
  assert (Hother : forall u v, v <> x -> arc_consistent c (domains s) u v ->
                   arc_consistent c (domains (revised_state s x i dx dy j)) u v).
  { intros u v Hv Hold i' j' du w Ho' Hg Hin.
    assert (Hw : exists du0, dict_get u (domains s) = Some du0 /\ In w du0).
    { destruct (var_eq_dec u x) as [->|Hu].
      - rewrite Hgx in Hg; injection Hg as <-.
        apply filter_In in Hin; destruct Hin as [Hin _]; eauto.
      - rewrite Hgo in Hg by assumption; eauto. }
    destruct Hw as (du0 & Hg0 & Hin0).
    destruct (Hold _ _ _ _ Ho' Hg0 Hin0) as (dv & w' & Hgv & Hin' & Hag).
    exists dv, w'; repeat split; auto. rewrite Hgo by assumption; assumption. }
  intros u v Hu Hv.
  destruct (var_eq_dec u x) as [->|Hux]; [destruct (var_eq_dec v y) as [->|Hvy]|].
  - right; exact Hxy.
  - destruct (Hinv x v Hu Hv) as [[E|Hin]|Hold].
    + congruence.
    + left; destruct r; [apply in_or_app; left|]; assumption.
    + right; apply Hother; [|assumption].
      apply neighbors_In in Hv; tauto.
  - destruct (Hinv u v Hu Hv) as [[E|Hin]|Hold].
    + congruence.
    + left; destruct r; [apply in_or_app; left|]; assumption.
    + destruct (var_eq_dec v x) as [->|Hvx]; [|right; apply Hother; assumption].
      destruct (var_eq_dec u y) as [->|Huy]; [right; apply Hyx'; assumption|].
      destruct r.
      * left; apply in_or_app; right; apply requeued_In; repeat split; auto.
        apply neighbors_sym; assumption.
      * right; rewrite (Hfalse eq_refl); assumption.
Qed.

Lemma ac3_loop_arc_consistent c fuel q s s' :
  wf_crossword c -> queue_wf c q -> arcs_inv c q (domains s) ->
  ac3_loop c fuel q s = Ok (true, s') ->
  forall x y, In x (variables c) -> In y (neighbors c x) ->
              arc_consistent c (domains s') x y.
Proof.
  intros W Hq Hinv H.
  assert (Hstep : forall x y q0 s0 r s1,
             queue_wf c ((x, y) :: q0) /\ arcs_inv c ((x, y) :: q0) (domains s0) ->
             revise c x y s0 = Ok (r, s1) ->
             queue_wf c (if r then q0 ++ requeued c x y else q0) /\
             arcs_inv c (if r then q0 ++ requeued c x y else q0) (domains s1)).
  { intros x y q0 s0 r s1 [Hq0 Hi0] Hr; split.
    - apply queue_wf_step; assumption.
    - eapply revise_arcs_inv; eassumption. }
  destruct (ac3_loop_invariant c
              (fun q0 s0 => queue_wf c q0 /\ arcs_inv c q0 (domains s0)) Hstep
              _ _ _ _ _ (conj Hq Hinv) H) as (q' & [_ Hinv'] & Hnil).
  rewrite (Hnil eq_refl) in Hinv'. intros x y Hx Hy.
  destruct (Hinv' x y Hx Hy) as [[]|]; assumption.
Qed.

Lemma all_arcs_In c x y :
  In (x, y) (all_arcs c) <-> In x (variables c) /\ In y (neighbors c x).
Proof.
  unfold all_arcs; rewrite in_flat_map; split.
  - intros (x0 & Hx & Hin); apply in_map_iff in Hin.
    destruct Hin as (y0 & [= <- <-] & Hy); auto.
  - intros [Hx Hy]; exists x; split; [assumption|].
    apply in_map_iff; exists y; auto.
Qed.

(** *** Termination and absence of exceptions after node consistency *)

Lemma ready_le c d d' : ready c d -> store_le d' d -> ready c d'.
Proof.
  intros [Hc Hn] Hle; split.
  - intros v Hv; destruct (Hc v Hv) as [ws Hws].
    destruct (store_le_get_back _ _ _ _ Hle Hws) as (ws' & Hg & _); eauto.
  - intros v ws' w Hg Hin.
    destruct (store_le_get _ _ _ _ Hle Hg) as (ws & Hg0 & Hs).
    eapply Hn; [eassumption | apply (shrunk_incl _ _ Hs); assumption].
Qed.

Lemma ac3_loop_total c :
  wf_crossword c ->
  forall fuel q s,
    ready c (domains s) -> queue_wf c q ->
    List.length q + List.length (variables c) * total_size (domains s) < fuel ->
    exists r s',
      ac3_loop c fuel q s = Ok (r, s') /\
      (r = false ->
       exists x, In x (variables c) /\ dict_get x (domains s') = Some []).
Proof.
  intros W; induction fuel as [|fuel IH]; intros q s Hready Hq Hfuel; [lia|].
  destruct q as [|[x y] q]; simpl.
  { exists true, s; split; [reflexivity | discriminate]. }
  destruct (Hq x y (or_introl eq_refl)) as [Hx Hy].
  pose proof Hy as Hy'. apply neighbors_In in Hy'.
  destruct Hy' as (Hyv & Hyx & [i j] & Ho).
  destruct (wf_range c W _ _ _ _ Ho) as [Hi Hj].
  destruct Hready as [Hcover Hnode].
  destruct (Hcover x Hx) as [dx Hdx]. destruct (Hcover y Hyv) as [dy Hdy].
  assert (Hrev := revise_total c x y s i j dx dy Ho Hdx Hdy).
  rewrite (bind_ok _ _ _ _ _ (Hrev
     (fun w Hw => eq_ind_r (fun n => i < n) Hi (Hnode _ _ _ Hdx Hw))
     (fun w Hw => eq_ind_r (fun n => j < n) Hj (Hnode _ _ _ Hdy Hw)))).
  clear Hrev.
  set (tr := filter (fun wx => negb (has_match wx i dy j)) dx).
  set (dx' := filter (fun wx => has_match wx i dy j) dx).
  assert (Hsum : List.length dx' + List.length tr = List.length dx)
    by apply (filter_negb_length (fun wx => has_match wx i dy j)).
  assert (Hle : store_le (domains (revised_state s x i dx dy j)) (domains s)).
  { simpl; eapply store_le_set; [eassumption | eexists; reflexivity]. }
  assert (Hready1 : ready c (domains (revised_state s x i dx dy j)))
    by (eapply ready_le; [split; eassumption | exact Hle]).
  simpl in Hfuel.
  destruct (List.length tr =? 0) eqn:Et; simpl.
  - apply Nat.eqb_eq, length_zero_iff_nil in Et.
    assert (Hs : revised_state s x i dx dy j = s).
    { unfold revised_state. fold dx'. unfold dx'.
      rewrite (filter_negb_nil _ _ Et), (dict_set_id _ _ _ Hdx). apply state_eta. }
    rewrite Hs. apply IH.
    + split; assumption.
    + intros u v Huv; apply Hq; right; assumption.
    + lia.
  - apply Nat.eqb_neq in Et.
    assert (Hgx : dict_get x (domains (revised_state s x i dx dy j)) = Some dx')
      by apply dict_get_set_same.
    rewrite (bind_ok _ _ _ _ _ (domain_of_ok _ _ _ Hgx)).
    destruct (List.length dx' =? 0) eqn:El.
    + apply Nat.eqb_eq, length_zero_iff_nil in El.
      eexists false, _; split; [reflexivity|]. intros _.
      exists x; split; [assumption | rewrite Hgx, El; reflexivity].
    + apply IH.
      * assumption.
      * apply (queue_wf_step c x y q true); assumption.
      * rewrite length_app.
        pose proof (requeued_length c x y) as Hrl.
        pose proof (total_size_set x dx' dx (domains s) Hdx) as Hts.
        change (dict_set x dx' (domains s))
          with (domains (revised_state s x i dx dy j)) in Hts.
        assert (Hmul : List.length (variables c)
                       * total_size (domains (revised_state s x i dx dy j))
                       + List.length (variables c)
                       <= List.length (variables c) * total_size (domains s)).
        { rewrite <- Nat.mul_succ_r. apply Nat.mul_le_mono_l. lia. }
        unfold requeued in Hrl. lia.
Qed.

(** *** Words that take part in a solution are never removed *)

Lemma revise_holds_sol c sol x y s r s1 :
  complete_spec c sol -> consistent_spec c sol ->
  In x (variables c) -> In y (neighbors c x) ->
  holds_sol c sol (domains s) ->
  revise c x y s = Ok (r, s1) ->
  holds_sol c sol (domains s1).
Proof.
  intros Hcp Hcs Hx Hy Hsol Hr v w Hv Hw.
  pose proof Hy as Hy'. apply neighbors_In in Hy'.
  destruct Hy' as (Hyv & Hyx & [i j] & Ho).
  apply revise_inv in Hr; rewrite Ho in Hr.
  destruct Hr as (dx & dy & Hdx & Hdy & -> & _).
  destruct (Hsol v w Hv Hw) as (ws & Hws & Hin).
  destruct (var_eq_dec v x) as [->|Hvx].
  - assert (ws = dx) by congruence; subst ws.
    eexists; split; [apply dict_get_set_same|].
    apply filter_In; split; [assumption|].
    apply has_match_iff.
    destruct (Hcp y Hyv) as [wy Ey].
    destruct (Hsol y wy Hyv Ey) as (wsy & Hwsy & Hiny).
    assert (wsy = dy).
    { assert (Hne : dx <> []) by (intros E; rewrite E in Hin; destruct Hin).
      specialize (Hdy Hne); congruence. }
    subst wsy. exists wy; split; [assumption|].
    eapply (cs_agree c sol Hcs); eassumption.
  - exists ws; split; [|assumption].
    simpl; rewrite dict_get_set_other by assumption; assumption.
Qed.

Lemma ac3_loop_holds_sol c sol fuel q s r s' :
  wf_crossword c -> complete_spec c sol -> consistent_spec c sol ->
  queue_wf c q -> holds_sol c sol (domains s) ->
  ac3_loop c fuel q s = Ok (r, s') ->
  holds_sol c sol (domains s').
Proof.
  intros W Hcp Hcs Hq Hsol H.
  assert (Hstep : forall x y q0 s0 (r0 : bool) s1,
             queue_wf c ((x, y) :: q0) /\ holds_sol c sol (domains s0) ->
             revise c x y s0 = Ok (r0, s1) ->
             queue_wf c (if r0 then q0 ++ requeued c x y else q0) /\
             holds_sol c sol (domains s1)).
  { intros x y q0 s0 r0 s1 [Hq0 Hs0] Hr; split.
    - apply queue_wf_step; assumption.
    - destruct (Hq0 x y (or_introl eq_refl)) as [Hx Hy].
      eapply revise_holds_sol; eassumption. }
  destruct (ac3_loop_invariant c
              (fun q0 s0 => queue_wf c q0 /\ holds_sol c sol (domains s0)) Hstep
              _ _ _ _ _ (conj Hq Hsol) H) as (q' & [_ Hsol'] & _).
  exact Hsol'.
Qed.

(* ================================================================== *)
(** ** Value ordering always answers on a ready store *)
(* ================================================================== *)

Lemma for_each_overlay (a : assignment) : forall s,
  for_each a (fun e => set_domain (fst e) [snd e]) s =
  Ok (tt, mkState (overlay a (domains s)) (searches s)).
Proof.
  induction a as [|[k w] a IH]; simpl; intros s.
  - unfold ret; rewrite state_eta; reflexivity.
  - rewrite (bind_ok _ _ _ _ _ (set_domain_eq k [w] s)).
    rewrite IH; reflexivity.
Qed.

Lemma overlay_other (a : assignment) v : forall d,
  ~ In v (dict_keys a) -> dict_get v (overlay a d) = dict_get v d.
Proof.
  induction a as [|[k w] a IH]; simpl; intros d Hn; [reflexivity|].
  unfold overlay in *; simpl. rewrite IH by tauto.
  apply dict_get_set_other; intros E; apply Hn; left; congruence.
Qed.

Lemma _neighbor_count_total c var temp v k j dt :
  overlaps c var temp = Some (k, j) ->
  k < String.length v ->
  (forall u, In u dt -> j < String.length u) ->
  exists n, _neighbor_count c var temp v dt = Ok n.
Proof.
  intros Ho Hk; induction dt as [|u dt IH]; simpl; intros Hj; [eauto|].
  destruct IH as [n Hn]; [intros; apply Hj; right; assumption|].
  rewrite Hn, Ho.
  destruct (str_index_ok v k Hk) as (a1 & Ha1 & _).
  destruct (str_index_ok u j (Hj u (or_introl eq_refl))) as (a2 & Ha2 & _).
  rewrite Ha1, Ha2; simpl.
  destruct (String.eqb u v); simpl; eauto.
Qed.

Lemma _value_loop_total c var a _vars val s ns :
  wf_crossword c ->
  incl ns (neighbors c var) ->
  (forall i, In i _vars -> ~ In i (dict_keys a)) ->
  var_length var = String.length val ->
  (forall i, In i ns -> In i _vars ->
             exists di, dict_get i (domains s) = Some di /\
                        forall u, In u di -> String.length u = var_length i) ->
  exists n, _value_loop c var a _vars val ns s = Ok (n, s).
Proof.
  intros W Hns Hvars Hlen; induction ns as [|i ns IH]; simpl; intros Hd.
  - eexists; reflexivity.
  - destruct IH as [n Hn].
    { intros u Hu; apply Hns; right; assumption. }
    { intros u Hu; apply Hd; right; assumption. }
    assert (H1 : exists m, (if var_mem i _vars then _neighbor c var a i val else ret 0) s
                           = Ok (m, s)).
    { destruct (var_mem i _vars) eqn:Em; [|eexists; reflexivity].
      apply var_mem_In in Em.
      destruct (Hd i (or_introl eq_refl) Em) as (di & Hdi & Hli).
      unfold _neighbor.
      assert (Hm : dict_mem i a = false).
      { destruct (dict_mem i a) eqn:E; [|reflexivity].
        apply dict_mem_In in E; exfalso; eapply Hvars; eassumption. }
      rewrite Hm; simpl.
      rewrite (bind_ok _ _ _ _ _ (domain_of_ok _ _ _ Hdi)).
      assert (Hi : In i (neighbors c var)) by (apply Hns; left; reflexivity).
      apply neighbors_In in Hi; destruct Hi as (_ & _ & [k j] & Ho).
      destruct (wf_range c W _ _ _ _ Ho) as [Hk Hj].
      destruct (_neighbor_count_total c var i val k j di Ho) as [m Hmc].
      - lia.
      - intros u Hu; rewrite (Hli u Hu); assumption.
      - exists m; unfold lift; rewrite Hmc; reflexivity. }
    destruct H1 as [m Hm].
    rewrite (bind_ok _ _ _ _ _ Hm), (bind_ok _ _ _ _ _ Hn).
    eexists; reflexivity.
Qed.

Lemma order_domain_values_total c var a s dv :
  wf_crossword c -> ready c (domains s) ->
  In var (variables c) -> ~ In var (dict_keys a) ->
  dict_get var (domains s) = Some dv ->
  order_domain_values c var a s = Ok (dv, s).
Proof.
  intros W [Hcover Hnode] Hvar Hfresh Hdv; unfold order_domain_values.
  rewrite (bind_ok _ _ _ _ _ (domain_of_ok _ _ _ Hdv)).
  destruct (List.length dv =? 0) eqn:El.
  { apply Nat.eqb_eq, length_zero_iff_nil in El; subst; reflexivity. }
  unfold bind at 1; simpl.
  rewrite (bind_ok _ _ _ _ _ (for_each_overlay a s)).
  set (s1 := mkState (overlay a (domains s)) (searches s)).
  assert (Hdv1 : dict_get var (domains s1) = Some dv)
    by (simpl; rewrite overlay_other; assumption).
  rewrite (bind_ok _ _ _ _ _ (domain_of_ok _ _ _ Hdv1)).
  set (_vars := var_diff (variables c) (dict_keys a)).
  destruct (map_m_total (_value c var a _vars) dv s1) as [keys Hkeys].
  - intros val Hval. unfold _value.
    rewrite (bind_ok _ _ _ _ _ (domain_of_ok _ _ _ Hdv1)).
    rewrite (bind_ok _ _ _ _ _ (set_domain_eq var [val] s1)).
    set (s2 := mkState (dict_set var [val] (domains s1)) (searches s1)).
    destruct (_value_loop_total c var a _vars val s2 (neighbors c var) W)
      as [n Hn].
    + apply incl_refl.
    + intros i Hi; apply var_diff_In in Hi; tauto.
    + symmetry; eapply Hnode; eassumption.
    + intros i Hi Hiv. apply var_diff_In in Hiv; destruct Hiv as [Hiv Hia].
      destruct (Hcover i Hiv) as [di Hdi]. exists di; split.
      * simpl. rewrite dict_get_set_other.
        -- rewrite overlay_other; assumption.
        -- apply neighbors_In in Hi; tauto.
      * intros u Hu; eapply Hnode; eassumption.
    + rewrite (bind_ok _ _ _ _ _ Hn).
      rewrite (bind_ok _ _ _ _ _ (set_domain_eq var dv s2)).
      exists n; unfold ret; simpl.
      rewrite dict_set_set. rewrite dict_set_id; [reflexivity | exact Hdv1].
  - rewrite (bind_ok _ _ _ _ _ Hkeys).
    unfold bind at 1; simpl. rewrite state_eta.
    rewrite (bind_ok _ _ _ _ _ (domain_of_ok _ _ _ Hdv)). reflexivity.
Qed.

(* ================================================================== *)
(** ** The search finds a solution when there is one *)
(* ================================================================== *)

Lemma filter_length_lt {A} (f g : A -> bool) l x :
  (forall y, f y = true -> g y = true) ->
  In x l -> g x = true -> f x = false ->
  List.length (filter f l) < List.length (filter g l).
Proof.
  intros Hfg; induction l as [|y l IH]; simpl; [tauto|].
  intros [->|Hin] Hg Hf.
  - rewrite Hg, Hf; simpl.
    assert (List.length (filter f l) <= List.length (filter g l)); [|lia].
    clear -Hfg. induction l as [|z l IH]; simpl; [lia|].
    destruct (f z) eqn:Ef; [rewrite (Hfg z Ef); simpl; lia|].
    destruct (g z); simpl; lia.
  - specialize (IH Hin Hg Hf).
    destruct (f y) eqn:Ef; [rewrite (Hfg y Ef); simpl; lia|].
    destruct (g y); simpl; lia.
Qed.

Lemma unassigned_set c a v w :
  In v (variables c) -> ~ In v (dict_keys a) ->
  unassigned c (dict_set v w a) < unassigned c a.
Proof.
  intros Hv Hn; unfold unassigned, var_diff.
  rewrite (dict_set_absent _ _ _ Hn).
  unfold dict_keys; rewrite map_app; simpl.
  apply filter_length_lt with (x := v); auto.
  - intros y Hy. apply negb_true_iff in Hy; apply negb_true_iff.
    apply var_mem_not_In; apply var_mem_not_In in Hy.
    intros Hin; apply Hy, in_or_app; left; assumption.
  - apply negb_true_iff, var_mem_not_In; assumption.
  - apply negb_false_iff, var_mem_In, in_or_app; right; left; reflexivity.
Qed.

Lemma values_nodup (a sol : assignment) :
  NoDup (dict_values sol) -> NoDup (dict_keys a) -> part_of a sol ->
  NoDup (dict_values a).
Proof.
  intros Hsol Hk Hp.
  assert (Hinj : forall k1 k2 w, In (k1, w) a -> In (k2, w) a -> k1 = k2).
  { intros k1 k2 w H1 H2.
    apply (In_nodup_keys _ _ _ Hk), Hp, dict_get_In in H1.
    apply (In_nodup_keys _ _ _ Hk), Hp, dict_get_In in H2.
    clear -Hsol H1 H2. unfold dict_values in Hsol.
    induction sol as [|[k0 w0] sol IH]; simpl in *; [tauto|].
    inversion Hsol as [|? ? Hni Hnd]; subst.
    destruct H1 as [E1|H1], H2 as [E2|H2].
    - congruence.
    - injection E1 as -> ->. exfalso; apply Hni.
      apply (in_map snd) in H2; assumption.
    - injection E2 as -> ->. exfalso; apply Hni.
      apply (in_map snd) in H1; assumption.
    - auto. }
  clear Hp Hsol. unfold dict_values, dict_keys in *.
  induction a as [|[k w] a IH]; simpl in *; [constructor|].
  inversion Hk as [|? ? Hni Hnd]; subst. constructor.
  - intros Hin. apply in_map_iff in Hin; destruct Hin as ([k' w'] & E & Hin).
    simpl in E; subst w'.
    assert (k' = k) by (eapply Hinj; [right; eassumption | left; reflexivity]).
    subst k'. apply Hni. apply (in_map fst) in Hin; assumption.
  - apply IH; [assumption|]. intros; eapply Hinj; right; eassumption.
Qed.

(** A part of a consistent assignment is consistent. *)
Lemma part_consistent c a sol :
  consistent_spec c sol -> NoDup (dict_keys a) -> part_of a sol ->
  consistent_spec c a.
Proof.
  intros [Hd Hl Ha] Hk Hp; constructor.
  - eapply values_nodup; eassumption.
  - intros v w Hin. apply Hl. apply dict_get_In, Hp, In_nodup_keys; assumption.
  - intros x y wx wy i j Hx Hy. apply Ha; apply Hp; assumption.
Qed.

Lemma part_of_set a sol v w :
  part_of a sol -> dict_get v sol = Some w -> ~ In v (dict_keys a) ->
  part_of (dict_set v w a) sol.
Proof.
  intros Hp Hs Hn u wu Hg.
  destruct (var_eq_dec u v) as [->|Hne].
  - rewrite dict_get_set_same in Hg; congruence.
  - rewrite dict_get_set_other in Hg by assumption; auto.
Qed.

Section Search.
Variable c : Crossword.
Variable sol : assignment.
Hypothesis W : wf_crossword c.

Lemma tidy_set a v w :
  tidy c a -> In v (variables c) -> ~ In v (dict_keys a) ->
  tidy c (dict_set v w a).
Proof.
  intros [Hn Hi] Hv Hf; rewrite (dict_set_absent _ _ _ Hf).
  unfold tidy, dict_keys in *; rewrite map_app; simpl; split.
  - apply NoDup_app; [assumption | constructor; [simpl; tauto | constructor]|].
    intros u Hu [<-|[]]; auto.
  - intros u Hu; apply in_app_or in Hu; destruct Hu as [Hu|[<-|[]]]; auto.
Qed.

Lemma try_values_answers fuel _var vals :
  In _var (variables c) ->
  (forall a s, ready c (domains s) -> tidy c a -> unassigned c a < fuel ->
               answers c sol (backtrack c fuel) a s) ->
  forall a s,
    ready c (domains s) ->
    tidy c a -> ~ In _var (dict_keys a) -> unassigned c a < S fuel ->
    exists r s',
      try_values (backtrack c fuel) _var vals a s = Ok (r, s') /\
      (solution_in c sol s -> part_of a sol ->
       (forall w, dict_get _var sol = Some w -> In w vals) -> fst r = true).
Proof.
  intros Hvar IH; induction vals as [|i vals IHv]; simpl;
    intros a s Hready Htidy Hfresh Hfuel.
  - eexists _, _; split; [reflexivity|]. intros (Hcp & _) _ Hin.
    destruct (Hcp _var Hvar) as [w Hw]. destruct (Hin w Hw).
  - destruct (IH (dict_set _var i a) s Hready) as (r1 & s1 & H1 & Ht1).
    { apply tidy_set; assumption. }
    { pose proof (unassigned_set c a _var i Hvar Hfresh); lia. }
    rewrite (bind_ok _ _ _ _ _ H1).
    destruct (backtrack_inv _ _ _ _ _ _ H1) as (Hf & _ & Hd).
    destruct r1 as [[|] a1]; simpl in *.
    + eexists _, _; split; [reflexivity|]; auto.
    + rewrite (Hf eq_refl), dict_del_set by assumption.
      destruct (IHv a s1) as (r & s' & H2 & Ht2); try assumption;
        try (rewrite Hd; assumption).
      exists r, s'; split; [assumption|]. intros Hs Hp Hin.
      apply Ht2; [unfold solution_in in *; rewrite Hd; exact Hs | assumption|].
      intros w Hw.
      destruct (Hin w Hw) as [<-|Hv]; [|assumption].
      exfalso. assert (false = true); [|discriminate].
      apply Ht1; [assumption|]. apply part_of_set; assumption.
Qed.

Lemma backtrack_answers : forall fuel a s,
  ready c (domains s) -> tidy c a -> unassigned c a < fuel ->
  answers c sol (backtrack c fuel) a s.
Proof.
  induction fuel as [|fuel IH]; intros a s Hready Htidy Hfuel; [lia|].
  unfold answers; simpl.
  unfold bind at 1; simpl.
  set (s1 := mkState (domains s) (S (searches s))).
  destruct (consistent_total c a (wf_range c W)) as (ok & Hok & Hgood).
  assert (Hl : lift (consistent c a) s1 = Ok (ok, s1))
    by (unfold lift; rewrite Hok; reflexivity).
  rewrite (bind_ok _ _ _ _ _ Hl).
  destruct ok; simpl.
  2:{ eexists _, _; split; [reflexivity|]. intros (_ & Hcs & _) Hp; simpl.
      apply Hgood.
      eapply part_consistent; [eassumption | apply Htidy | assumption]. }
  destruct (assignment_complete c a) eqn:Ec.
  { eexists _, _; split; [reflexivity | reflexivity]. }
  destruct (select_total c a s1 (proj1 Hready)) as [sel Hsel].
  rewrite (bind_ok _ _ _ _ _ Hsel).
  apply select_inv in Hsel; destruct Hsel as [_ Hsel].
  destruct sel as [_var|].
  2:{ unfold assignment_complete in Ec; rewrite Hsel in Ec; discriminate. }
  destruct Hsel as (Hin & dv & Hdv & _).
  apply var_diff_In in Hin; destruct Hin as [Hvar Hfresh].
  rewrite (bind_ok _ _ _ _ _
             (order_domain_values_total c _var a s1 dv W Hready Hvar Hfresh Hdv)).
  destruct (try_values_answers fuel _var dv Hvar IH a s1)
    as (r & s' & Hr & Ht); try assumption.
  exists r, s'; split; [assumption|]. intros Hs Hp; apply Ht;
    [exact Hs | assumption|].
  intros w Hw. destruct Hs as (_ & _ & Hsol).
  destruct (Hsol _var w Hvar Hw) as (ws & Hws & Hinw).
  simpl in Hdv; assert (ws = dv) by congruence; subst; assumption.
Qed.
End Search.

(* ================================================================== *)
(** ** From the constructor to the search *)
(* ================================================================== *)

Lemma init_keys c : dict_keys (domains (init c)) = variables c.
Proof.
  unfold init, dict_keys; simpl. rewrite map_map; simpl. apply map_id.
Qed.

Lemma node_filtered_get (f : Var -> list string) l v :
  In v l ->
  dict_get v (node_filtered (map (fun var => (var, f var)) l))
  = Some (filter (fits v) (f v)).
Proof.
  induction l as [|u l IH]; simpl; [tauto|].
  intros H. var_cases v u; [reflexivity|].
  destruct H as [->|H]; [congruence | auto].
Qed.

Lemma node_filtered_get_inv d v ws :
  dict_get v (node_filtered d) = Some ws ->
  exists ws0, dict_get v d = Some ws0 /\ ws = filter (fits v) ws0.
Proof.
  induction d as [|[k w0] d IH]; simpl; [discriminate|].
  var_cases v k; [intros [= <-]; eauto | exact IH].
Qed.

Lemma propagation_runs c :
  wf_crossword c ->
  exists s1 r s2,
    enforce_node_consistency (init c) = Ok (tt, s1) /\
    ac3 c None s1 = Ok (r, s2) /\
    propagated c r s2.
Proof.
  intros W.
  assert (Hn : NoDup (dict_keys (domains (init c))))
    by (rewrite init_keys; apply (wf_nodup c W)).
  pose proof (enforce_node_consistency_eq _ Hn) as He.
  set (s1 := mkState (node_filtered (domains (init c))) (searches (init c))) in *.
  assert (Hready : ready c (domains s1)).
  { split.
    - intros v Hv; eexists; simpl.
      apply (node_filtered_get (fun _ => words c)); assumption.
    - intros v ws w Hg Hin. simpl in Hg.
      apply node_filtered_get_inv in Hg; destruct Hg as (ws0 & _ & ->).
      apply filter_In in Hin; destruct Hin as [_ Hf].
      apply Nat.eqb_eq in Hf; assumption. }
  assert (Hqwf : queue_wf c (all_arcs c))
    by (intros x y H; apply all_arcs_In; assumption).
  destruct (ac3_loop_total c W (ac3_fuel c (all_arcs c) (domains s1))
              (all_arcs c) s1 Hready Hqwf) as (r & s2 & Hac & Hw).
  { unfold ac3_fuel; lia. }
  assert (Hac3 : ac3 c None s1 = Ok (r, s2)) by exact Hac.
  exists s1, r, s2; split; [exact He|]. split; [exact Hac3|].
  pose proof (ac3_loop_le _ _ _ _ _ _ Hac) as [Hle Hcnt].
  constructor.
  - eapply ready_le; eassumption.
  - rewrite Hcnt; reflexivity.
  - intros sol Hcp Hcs Hwords.
    eapply ac3_loop_holds_sol; try eassumption.
    intros v w Hv Hw'. eexists; split.
    + simpl; apply (node_filtered_get (fun _ => words c)); assumption.
    + apply filter_In; split; [eapply Hwords; eassumption|].
      apply Nat.eqb_eq. apply (cs_lengths c sol Hcs).
      apply dict_get_In; assumption.
  - exact Hw.
Qed.

Lemma solve_unfold c s1 r s2 :
  enforce_node_consistency (init c) = Ok (tt, s1) ->
  ac3 c None s1 = Ok (r, s2) ->
  run c =
  bind (backtrack c (backtrack_fuel c) [])
       (fun r => ret (if fst r then Some (snd r) else None)) s2.
Proof.
  intros He Ha; unfold run, solve.
  rewrite (bind_ok _ _ _ _ _ He), (bind_ok _ _ _ _ _ Ha); reflexivity.
Qed.

Lemma tidy_nil c : tidy c [].
Proof. split; [constructor | intros v []]. Qed.

Lemma unassigned_nil c : unassigned c [] < backtrack_fuel c.
Proof.
  unfold unassigned, backtrack_fuel, var_diff.
  pose proof (filter_length_le (fun v => negb (var_mem v (@dict_keys string [])))
                               (variables c)).
  lia.
Qed.

(* ================================================================== *)
(** ** The corner puzzle is well formed *)
(* ================================================================== *)

Ltac corner_cases x :=
  destruct (var_eq_dec x slot_across) as [->|?];
  [|destruct (var_eq_dec x slot_down) as [->|?]].

Ltac corner_solve :=
  repeat match goal with
         | H : ?a <> ?b |- _ =>
             let E := fresh "E" in
             assert (E := proj2 (var_eqb_neq a b) H); clear H; rewrite ?E
         end;
  simpl; rewrite ?andb_false_r; simpl;
  try discriminate; try (intros [= <- <-]; simpl; auto; lia).

Lemma corner_wf ws : wf_crossword (corner ws).
Proof.
  constructor; simpl.
  - repeat constructor; simpl; intuition discriminate.
  - intros x y i j; unfold corner_overlaps.
    corner_cases x; corner_cases y; corner_solve.
  - intros x y i j; unfold corner_overlaps.
    corner_cases x; corner_cases y; corner_solve.
Qed.

(* ================================================================== *)
(** ** The fuel of the model is never the reason for an outcome *)
(* ================================================================== *)











(** On a well-formed graph [solve] returns: it raises nothing and the
    fuel of the two loops suffices. *)
Lemma solve_returns c :
  wf_crossword c -> exists r s', run c = Ok (r, s').
Proof.
  intros W.
  destruct (propagation_runs c W) as (s1 & r & s2 & He & Ha & P).
  destruct (backtrack_answers c [] W (backtrack_fuel c) [] s2)
    as (res & s3 & Hb & _).
  - apply (pg_ready c r s2 P).
  - apply tidy_nil.
  - apply unassigned_nil.
  - rewrite (solve_unfold c s1 r s2 He Ha), (bind_ok _ _ _ _ _ Hb).
    eexists _, _; reflexivity.
Qed.

(* ================================================================== *)
(** ** The scenarios of the specification, run on the model *)
(* ================================================================== *)

(** Scenario A: ABC has no partner in the other domain and leaves the
    domain of the across slot. *)
Example scenario_A :
  exists s', ac3 (tee 3 ["AAA"; "ABC"; "CCC"]) None
                 (init (tee 3 ["AAA"; "ABC"; "CCC"])) = Ok (true, s')
             /\ domain_list s' = [["AAA"; "CCC"]; ["AAA"; "ABC"; "CCC"]].
Proof. eexists; split; vm_compute; reflexivity. Qed.

(** Scenario B: TO survives for the across slot because OK starts with
    its second letter. *)
Example scenario_B :
  exists s', ac3 (tee 2 ["TO"; "OK"]) None (init (tee 2 ["TO"; "OK"]))
             = Ok (true, s')
             /\ domain_list s' = [["TO"]; ["OK"]].
Proof. eexists; split; vm_compute; reflexivity. Qed.

(** Scenario D: a crossing of AT and AS is found. *)
Example scenario_D :
  exists a s', run (ell ["AT"; "AS"; "TO"]) = Ok (Some a, s')
               /\ dict_values a = ["AT"; "AS"].
Proof. eexists _, _; split; vm_compute; reflexivity. Qed.

(* ================================================================== *)
(** ** The properties of the specification *)
(* ================================================================== *)

(** C1 (soundness of solve).  Whenever [solve] returns an assignment
    rather than the failure value, that assignment has an entry for
    every variable of the graph, its words are pairwise distinct, each
    word is as long as its variable, and any two assigned neighbors
    agree at their overlap. *)
Theorem solve_sound c a s' :
  run c = Ok (Some a, s') -> complete_spec c a /\ consistent_spec c a.
Proof.
  unfold run, solve; intros H.
  inv_bind H as u1 s1 He. inv_bind H as r2 s2 Ha. inv_bind H as r s3 Hb.
  apply backtrack_inv in Hb; destruct Hb as (_ & Ht & _).
  destruct r as [[|] a']; simpl in H; [|discriminate].
  injection H as <- <-. destruct (Ht eq_refl) as [Hc Hk].
  split; [apply complete_sound | apply consistent_sound]; assumption.
Qed.

Lemma solve_sound_witness :
  complete_spec (corner letters) [(slot_across, "AB"); (slot_down, "CA")]
  /\ consistent_spec (corner letters) [(slot_across, "AB"); (slot_down, "CA")].
Proof.
  apply (solve_sound (corner letters) [(slot_across, "AB"); (slot_down, "CA")]
           (mkState [(slot_across, letters_fit); (slot_down, letters_fit)] 4)).
  vm_compute. reflexivity.
Defined.

(** C2 (completeness of solve).  On a well-formed graph, if some
    assignment that is complete and consistent takes its words from the
    word list, then [solve] returns an assignment, and that assignment
    is complete and consistent. *)
Theorem solve_complete c sol :
  wf_crossword c ->
  complete_spec c sol -> consistent_spec c sol ->
  (forall v w, In v (variables c) -> dict_get v sol = Some w -> In w (words c)) ->
  exists a s', run c = Ok (Some a, s') /\ complete_spec c a /\ consistent_spec c a.
Proof.
  intros W Hcp Hcs Hwords.
  destruct (propagation_runs c W) as (s1 & r & s2 & He & Ha & P).
  destruct (backtrack_answers c sol W (backtrack_fuel c) [] s2)
    as (res & s3 & Hb & Ht).
  - apply (pg_ready c r s2 P).
  - apply tidy_nil.
  - apply unassigned_nil.
  - assert (Hfound : fst res = true).
    { apply Ht; [|intros v w; discriminate].
      split; [assumption|]. split; [assumption|].
      apply (pg_sol c r s2 P); assumption. }
    assert (Hrun : run c = Ok (Some (snd res), s3)).
    { rewrite (solve_unfold c s1 r s2 He Ha), (bind_ok _ _ _ _ _ Hb).
      unfold ret; rewrite Hfound; reflexivity. }
    exists (snd res), s3; split; [exact Hrun|].
    apply backtrack_inv in Hb; destruct Hb as (_ & Hgood & _).
    destruct (Hgood Hfound) as [Hc Hk].
    split; [apply complete_sound | apply consistent_sound]; assumption.
Qed.

Lemma solve_complete_witness :
  exists a s', run (corner letters) = Ok (Some a, s')
               /\ complete_spec (corner letters) a
               /\ consistent_spec (corner letters) a.
Proof.
  apply (solve_complete (corner letters) [(slot_down, "BC"); (slot_across, "CA")]).
  - apply corner_wf.
  - apply complete_sound; reflexivity.
  - apply consistent_sound; reflexivity.
  - intros v w [<-|[<-|[]]]; simpl; intros [= <-]; simpl; tauto.
Defined.

(** C3 as stated does not hold: on the corner puzzle with the words AB
    and CD the domain of the across slot is wiped out, AC-3 reports
    failure, and [solve] enters [backtrack] all the same. *)
Lemma wipeout_still_searches : ~ skips_search_on_wipeout (corner ["AB"; "CD"]).
Proof.
  intros H.
  destruct (H (mkState [(slot_across, ["AB"; "CD"]); (slot_down, ["AB"; "CD"])] 0)
              (mkState [(slot_across, []); (slot_down, ["AB"; "CD"])] 0)
              eq_refl eq_refl) as (s3 & Hrun & Hcount).
  vm_compute in Hrun. injection Hrun as <-. discriminate Hcount.
Qed.

(** C3 (amended).  On a well-formed graph, when AC-3 over all arcs
    reports failure, [solve] ignores the report and calls [backtrack]
    on the empty assignment; that single call returns the failure value
    at once (the variable it selects has an empty domain), so [solve]
    returns the failure value, with the store as AC-3 left it. *)
Theorem solve_after_wipeout c s1 s2 :
  wf_crossword c ->
  enforce_node_consistency (init c) = Ok (tt, s1) ->
  ac3 c None s1 = Ok (false, s2) ->
  run c = Ok (None, mkState (domains s2) 1).
Proof.
  intros W He Ha.
  destruct (propagation_runs c W) as (s1' & r & s2' & He' & Ha' & P).
  assert (s1' = s1) by congruence; subst s1'.
  assert (Hr : r = false /\ s2' = s2) by (split; congruence).
  destruct Hr as [-> ->].
  destruct (pg_wipeout c false s2 P eq_refl) as (x & Hx & Hempty).
  rewrite (solve_unfold c s1 false s2 He Ha).
  set (s3 := mkState (domains s2) 1).
  assert (Hready : ready c (domains s3)) by apply (pg_ready c false s2 P).
  assert (Hb : backtrack c (backtrack_fuel c) [] s2 = Ok ((false, []), s3)).
  { unfold backtrack_fuel; simpl.
    assert (Ht : tick s2 = Ok (tt, s3))
      by (unfold tick, s3; rewrite (pg_count c false s2 P); reflexivity).
    rewrite (bind_ok _ _ _ _ _ Ht).
    assert (Hl : lift (consistent c []) s3 = Ok (true, s3)) by reflexivity.
    rewrite (bind_ok _ _ _ _ _ Hl); simpl.
    assert (Hinc : assignment_complete c [] = false).
    { destruct (assignment_complete c []) eqn:E; [|reflexivity].
      apply complete_iff in E. destruct (E x Hx). }
    rewrite Hinc.
    destruct (select_total c [] s3 (proj1 Hready)) as [sel Hsel].
    rewrite (bind_ok _ _ _ _ _ Hsel).
    apply select_inv in Hsel; destruct Hsel as [_ Hsel].
    destruct sel as [v|].
    2:{ unfold assignment_complete in Hinc; rewrite Hsel in Hinc; discriminate. }
    destruct Hsel as (Hin & dv & Hdv & Hmin).
    assert (Hxin : In x (var_diff (variables c) (@dict_keys string [])))
      by (apply var_diff_In; split; [assumption | intros []]).
    specialize (Hmin x [] Hxin Hempty); simpl in Hmin.
    assert (dv = []) by (destruct dv; [reflexivity | simpl in Hmin; lia]); subst dv.
    apply var_diff_In in Hin; destruct Hin as [Hv Hfresh].
    rewrite (bind_ok _ _ _ _ _
               (order_domain_values_total c v [] s3 [] W Hready Hv Hfresh Hdv)).
    reflexivity. }
  rewrite (bind_ok _ _ _ _ _ Hb). reflexivity.
Qed.

Lemma solve_after_wipeout_witness :
  run (corner ["AB"; "CD"])
  = Ok (None, mkState [(slot_across, []); (slot_down, ["AB"; "CD"])] 1).
Proof.
  apply (solve_after_wipeout (corner ["AB"; "CD"])
           (mkState [(slot_across, ["AB"; "CD"]); (slot_down, ["AB"; "CD"])] 0)
           (mkState [(slot_across, []); (slot_down, ["AB"; "CD"])] 0)).
  - apply corner_wf.
  - reflexivity.
  - reflexivity.
Defined.

(** C4 (arc-consistency postcondition).  On a well-formed graph, when
    [ac3] seeded with every ordered pair of neighbors returns success,
    then for every variable [x], every neighbor [y] of [x] with overlap
    [(i, j)] and every word [w] left in the domain of [x] there is a word
    [w'] left in the domain of [y] with [w[i] == w'[j]]. *)
Theorem ac3_arc_consistent c s s' :
  wf_crossword c ->
  ac3 c None s = Ok (true, s') ->
  forall x y i j dx w,
    In x (variables c) -> In y (neighbors c x) ->
    overlaps c x y = Some (i, j) ->
    dict_get x (domains s') = Some dx -> In w dx ->
    exists dy w', dict_get y (domains s') = Some dy /\ In w' dy /\ agree_at w i w' j.
Proof.
  intros W H x y i j dx w Hx Hy Ho Hdx Hw.
  unfold ac3 in H. inv_bind H as d s0 Hd. injection Hd as <- <-.
  assert (Hq : queue_wf c (all_arcs c))
    by (intros u v Huv; apply all_arcs_In; assumption).
  assert (Hinv : arcs_inv c (all_arcs c) (domains s))
    by (intros u v Hu Hv; left; apply all_arcs_In; auto).
  exact (ac3_loop_arc_consistent c _ _ _ _ W Hq Hinv H x y Hx Hy i j dx w Ho Hdx Hw).
Qed.

Lemma ac3_arc_consistent_witness :
  exists dy w',
    dict_get slot_down [(slot_across, ["AB"; "DD"]); (slot_down, ["CA"; "DD"])]
    = Some dy
    /\ In w' dy /\ agree_at "AB" 0 w' 1.
Proof.
  apply (ac3_arc_consistent (corner ["AB"; "CA"; "DD"])
           (init (corner ["AB"; "CA"; "DD"]))
           (mkState [(slot_across, ["AB"; "DD"]); (slot_down, ["CA"; "DD"])] 0)
           (corner_wf _) eq_refl
           slot_across slot_down 0 1 ["AB"; "DD"] "AB").
  - simpl; tauto.
  - vm_compute; tauto.
  - reflexivity.
  - reflexivity.
  - simpl; tauto.
Defined.

(** C5, evaluated on the code.  On the corner puzzle with the words AB
    and CA, the across slot must try AB (one value eliminated) before CA
    (two), and the down slot must try CA (one) before AB (two).
    [order_domain_values] returns the domain in the order in which the
    set happens to iterate, so whichever of the two orders that is, one
    of the two slots gets its values in descending order. *)
Theorem order_domain_values_unsorted :
  (exists s',
      order_domain_values (corner ["CA"; "AB"]) slot_across []
                          (init (corner ["CA"; "AB"]))
      = Ok (["CA"; "AB"], s')
      /\ ascending (eliminated (corner ["CA"; "AB"])
                               (domains (init (corner ["CA"; "AB"]))) []
                               slot_across)
                   ["CA"; "AB"] = false)
  /\ (exists s',
         order_domain_values (corner ["AB"; "CA"]) slot_down []
                             (init (corner ["AB"; "CA"]))
         = Ok (["AB"; "CA"], s')
         /\ ascending (eliminated (corner ["AB"; "CA"])
                                  (domains (init (corner ["AB"; "CA"]))) []
                                  slot_down)
                      ["AB"; "CA"] = false).
Proof.
  split.
  - exists (init (corner ["CA"; "AB"])); split; vm_compute; reflexivity.
  - exists (init (corner ["AB"; "CA"])); split; vm_compute; reflexivity.
Qed.

(** C6 (value ordering returns the domain).  Whenever
    [order_domain_values(var, assignment)] returns, the collection it
    returns is a rearrangement of the current domain of [var]: it has
    every word of the domain and no other word. *)
Theorem order_domain_values_exact c var a s vals s' :
  order_domain_values c var a s = Ok (vals, s') ->
  exists dv, dict_get var (domains s) = Some dv
             /\ Permutation vals dv
             /\ forall w, In w vals <-> In w dv.
Proof.
  intros H; apply order_domain_values_inv in H; destruct H as [Hg _].
  exists vals; split; [assumption|]. split; [apply Permutation_refl | tauto].
Qed.

Lemma order_domain_values_exact_witness :
  exists dv, dict_get slot_across (domains (init (corner letters))) = Some dv
             /\ Permutation letters dv
             /\ forall w, In w letters <-> In w dv.
Proof.
  apply (order_domain_values_exact (corner letters) slot_across []
           (init (corner letters)) letters (init (corner letters))).
  reflexivity.
Defined.

(** C7 (value ordering leaves the domains alone).  Whenever
    [order_domain_values(var, assignment)] returns, the domain store is
    the one it was before the call: every variable has the same domain. *)
Theorem order_domain_values_frame c var a s vals s' :
  order_domain_values c var a s = Ok (vals, s') ->
  domains s' = domains s
  /\ forall v, dict_get v (domains s') = dict_get v (domains s).
Proof.
  intros H; apply order_domain_values_inv in H; destruct H as [_ ->]; auto.
Qed.

Lemma order_domain_values_frame_witness :
  domains (init (corner letters)) = domains (init (corner letters))
  /\ forall v, dict_get v (domains (init (corner letters)))
               = dict_get v (domains (init (corner letters))).
Proof.
  apply (order_domain_values_frame (corner letters) slot_down
           [(slot_across, "AB")]
           (init (corner letters)) letters (init (corner letters))).
  reflexivity.
Defined.

(** C8 (a failed search undoes its entries).  Whenever [backtrack(a)]
    returns the failure value, the dictionary [a] holds on return exactly
    the entries it held on entry. *)
Theorem backtrack_failure_restores c fuel a s a' s' :
  backtrack c fuel a s = Ok ((false, a'), s') -> a' = a.
Proof.
  intros H; apply backtrack_inv in H; destruct H as (Hf & _).
  apply Hf; reflexivity.
Qed.

Lemma backtrack_failure_restores_witness :
  [(slot_across, "AB")] = [(slot_across, "AB")].
Proof.
  apply (backtrack_failure_restores (corner ["AB"]) 2 [(slot_across, "AB")]
           (init (corner ["AB"])) [(slot_across, "AB")]
           (mkState [(slot_across, ["AB"]); (slot_down, ["AB"])] 2)).
  reflexivity.
Defined.

(** C9 (propagation only removes words).  After
    [enforce_node_consistency()], after [revise(x, y)] and after
    [ac3(arcs)], the domain of every variable is contained in the domain
    it had before the call. *)
Theorem propagation_shrinks c :
  (forall s u s',
      enforce_node_consistency s = Ok (u, s') -> domains_shrink s s')
  /\ (forall x y s r s', revise c x y s = Ok (r, s') -> domains_shrink s s')
  /\ (forall arcs s r s', ac3 c arcs s = Ok (r, s') -> domains_shrink s s').
Proof.
  assert (Hle : forall s s', state_le s' s -> domains_shrink s s').
  { intros s s' [Hle _] v ws' Hg.
    destruct (store_le_get _ _ _ _ Hle Hg) as (ws & Hg0 & Hs).
    exists ws; split; [assumption | apply shrunk_incl; assumption]. }
  repeat split.
  - intros s u s' H; apply Hle; eapply enforce_node_consistency_le; eassumption.
  - intros x y s r s' H; apply Hle; eapply revise_le; eassumption.
  - intros arcs s r s' H; apply Hle. unfold ac3 in H.
    inv_bind H as d s0 Hd. injection Hd as <- <-.
    eapply ac3_loop_le; eassumption.
Qed.

Lemma propagation_shrinks_witness :
  domains_shrink (init (corner ["AB"; "CA"; "DDD"]))
                 (mkState [(slot_across, ["AB"; "CA"]); (slot_down, ["AB"; "CA"])] 0)
  /\ domains_shrink (init (corner ["AB"; "CA"; "DD"]))
                    (mkState [(slot_across, ["AB"; "DD"]);
                              (slot_down, ["AB"; "CA"; "DD"])] 0)
  /\ domains_shrink (init (corner ["AB"; "CA"; "DD"]))
                    (mkState [(slot_across, ["AB"; "DD"]);
                              (slot_down, ["CA"; "DD"])] 0).
Proof.
  destruct (propagation_shrinks (corner ["AB"; "CA"; "DD"])) as (H1 & H2 & H3).
  split; [|split].
  - apply (H1 (init (corner ["AB"; "CA"; "DDD"])) tt); reflexivity.
  - apply (H2 slot_across slot_down (init (corner ["AB"; "CA"; "DD"])) true);
      reflexivity.
  - apply (H3 None (init (corner ["AB"; "CA"; "DD"])) true); reflexivity.
Defined.

(** C10 (no out-of-range read in [consistent]).  If every overlap index
    pair of the graph lies within the lengths of its two variables, then
    for an assignment of graph variables [consistent] returns a Boolean
    (it raises nothing, in particular no [IndexError]); and an entry
    whose word is not as long as its variable makes it return [False],
    which happens before any letter is read. *)
Theorem consistent_index_safe c a :
  (forall x y i j, overlaps c x y = Some (i, j) ->
                   i < var_length x /\ j < var_length y) ->
  incl (dict_keys a) (variables c) ->
  (exists b, consistent c a = Ok b)
  /\ (forall v w, In (v, w) a -> String.length w <> var_length v ->
                  consistent c a = Ok false).
Proof.
  intros Hr _; split.
  - destruct (consistent_total c a Hr) as (b & Hb & _); eauto.
  - intros v w Hin Hne; unfold consistent.
    destruct (negb _); [reflexivity|].
    destruct (existsb _ a) eqn:E; [reflexivity|].
    exfalso; apply Hne. eapply lengths_check; eassumption.
Qed.

Lemma consistent_index_safe_witness :
  (exists b, consistent (corner letters)
                        [(slot_across, "AB"); (slot_down, "A")] = Ok b)
  /\ (forall v w, In (v, w) [(slot_across, "AB"); (slot_down, "A")] ->
                  String.length w <> var_length v ->
                  consistent (corner letters)
                             [(slot_across, "AB"); (slot_down, "A")] = Ok false).
Proof.
  apply (consistent_index_safe (corner letters)
           [(slot_across, "AB"); (slot_down, "A")]).
  - apply (wf_range _ (corner_wf letters)).
  - simpl; intros v [<-|[<-|[]]]; simpl; tauto.
Defined.

(* ================================================================== *)
(** ** Further properties of the code *)
(* ================================================================== *)

(** *** Node consistency *)

Lemma node_filtered_get_some d v ws :
  dict_get v d = Some ws ->
  dict_get v (node_filtered d) = Some (filter (fits v) ws).
Proof.
  induction d as [|[k w0] d IH]; simpl; [discriminate|].
  var_cases v k; [intros [= ->]; reflexivity | exact IH].
Qed.

Lemma node_filtered_keys d : dict_keys (node_filtered d) = dict_keys d.
Proof.
  unfold node_filtered, dict_keys; rewrite map_map; reflexivity.
Qed.

Lemma filter_idem {A} (f : A -> bool) l : filter f (filter f l) = filter f l.
Proof.
  induction l as [|x l IH]; simpl; [reflexivity|].
  destruct (f x) eqn:E; simpl; [rewrite E, IH; reflexivity | exact IH].
Qed.

Lemma node_filtered_idem d : node_filtered (node_filtered d) = node_filtered d.
Proof.
  unfold node_filtered; rewrite map_map; apply map_ext; intros [k ws]; simpl.
  rewrite filter_idem; reflexivity.
Qed.

(** X1.  On a store (a dictionary, so with distinct keys)
    [enforce_node_consistency] raises nothing; it keeps the keys and
    their order, and the domain it leaves for a variable is the old
    domain without the words whose length differs from the variable's:
    the words of the right length all stay, in their order. *)
Theorem node_consistency_exact s :
  NoDup (dict_keys (domains s)) ->
  exists s',
    enforce_node_consistency s = Ok (tt, s')
    /\ dict_keys (domains s') = dict_keys (domains s)
    /\ forall v ws,
        dict_get v (domains s) = Some ws ->
        dict_get v (domains s')
        = Some (filter (fun w => String.length w =? var_length v) ws).
Proof.
  intros Hn; eexists; split; [apply enforce_node_consistency_eq; exact Hn|].
  simpl; split; [apply node_filtered_keys|].
  intros v ws Hg; apply (node_filtered_get_some _ _ _ Hg).
Qed.

Lemma node_consistency_exact_witness :
  exists s',
    enforce_node_consistency (init (corner letters)) = Ok (tt, s')
    /\ dict_keys (domains s') = dict_keys (domains (init (corner letters)))
    /\ forall v ws,
        dict_get v (domains (init (corner letters))) = Some ws ->
        dict_get v (domains s')
        = Some (filter (fun w => String.length w =? var_length v) ws).
Proof.
  apply (node_consistency_exact (init (corner letters))).
  simpl. repeat constructor; simpl; intuition discriminate.
Defined.

(** X2.  Node consistency is idempotent: a second run, on the store the
    first run left, removes nothing. *)
Theorem node_consistency_idempotent s s' :
  NoDup (dict_keys (domains s)) ->
  enforce_node_consistency s = Ok (tt, s') ->
  enforce_node_consistency s' = Ok (tt, s').
Proof.
  intros Hn H. rewrite (enforce_node_consistency_eq _ Hn) in H.
  injection H as <-.
  rewrite enforce_node_consistency_eq; simpl.
  - rewrite node_filtered_idem; reflexivity.
  - rewrite node_filtered_keys; exact Hn.
Qed.

Lemma node_consistency_idempotent_witness :
  enforce_node_consistency
    (mkState [(slot_across, letters_fit); (slot_down, letters_fit)] 0)
  = Ok (tt, mkState [(slot_across, letters_fit); (slot_down, letters_fit)] 0).
Proof.
  apply (node_consistency_idempotent (init (corner letters))).
  - simpl. repeat constructor; simpl; intuition discriminate.
  - reflexivity.
Defined.

(** *** [revise] *)

(** X3.  What [revise(x, y)] changes when it returns: no domain other
    than that of [x]; nothing at all when it returns [False]; and when
    it returns [True] the domain of [x] has lost at least one word. *)
Theorem revise_effect c x y s r s' :
  revise c x y s = Ok (r, s') ->
  (forall v, v <> x -> dict_get v (domains s') = dict_get v (domains s))
  /\ (r = false -> s' = s)
  /\ (r = true ->
      exists dx dx', dict_get x (domains s) = Some dx
                     /\ dict_get x (domains s') = Some dx'
                     /\ List.length dx' < List.length dx).
Proof.
  intros H; apply revise_inv in H.
  destruct (overlaps c x y) as [[i j]|].
  - destruct H as (dx & dy & Hdx & _ & -> & Hf & Ht). repeat split.
    + intros v Hv; simpl; apply dict_get_set_other; assumption.
    + exact Hf.
    + intros Hr; eexists dx, _; split; [assumption|]. split.
      * simpl; apply dict_get_set_same.
      * apply Ht; assumption.
  - destruct H as [-> ->]; repeat split; auto; discriminate.
Qed.

Lemma revise_effect_witness :
  (forall v, v <> slot_across ->
             dict_get v [(slot_across, ["AB"; "DD"]); (slot_down, ["AB"; "CA"; "DD"])]
             = dict_get v (domains (init (corner ["AB"; "CA"; "DD"]))))
  /\ (true = false ->
      mkState [(slot_across, ["AB"; "DD"]); (slot_down, ["AB"; "CA"; "DD"])] 0
      = init (corner ["AB"; "CA"; "DD"]))
  /\ (true = true ->
      exists dx dx',
        dict_get slot_across (domains (init (corner ["AB"; "CA"; "DD"]))) = Some dx
        /\ dict_get slot_across
                    [(slot_across, ["AB"; "DD"]); (slot_down, ["AB"; "CA"; "DD"])]
           = Some dx'
        /\ List.length dx' < List.length dx).
Proof.
  apply (revise_effect (corner ["AB"; "CA"; "DD"]) slot_across slot_down
           (init (corner ["AB"; "CA"; "DD"])) true
           (mkState [(slot_across, ["AB"; "DD"]); (slot_down, ["AB"; "CA"; "DD"])] 0)).
  reflexivity.
Defined.

(** X4.  What [revise(x, y)] keeps, over the overlap [(i, j)]: a word
    stays in the domain of [x] exactly when it was there and some word of
    the domain of [y] has at index [j] the letter it has at index [i].
    So for two different variables the arc is consistent afterwards. *)
Theorem revise_keeps_supported c x y i j s r s' dx :
  overlaps c x y = Some (i, j) ->
  dict_get x (domains s) = Some dx ->
  revise c x y s = Ok (r, s') ->
  exists dx',
    dict_get x (domains s') = Some dx'
    /\ (forall w, In w dx' <->
                  In w dx /\ exists dy w', dict_get y (domains s) = Some dy
                                           /\ In w' dy /\ agree_at w i w' j)
    /\ (x <> y -> arc_consistent c (domains s') x y).
Proof.
  intros Ho Hdx H; apply revise_inv in H; rewrite Ho in H.
  destruct H as (dx0 & dy & Hdx0 & Hdy & -> & _).
  assert (dx0 = dx) by congruence; subst dx0.
  assert (Hiff : forall w,
             In w (filter (fun wx => has_match wx i dy j) dx) <->
             In w dx /\ exists dy0 w', dict_get y (domains s) = Some dy0
                                       /\ In w' dy0 /\ agree_at w i w' j).
  { intros w; rewrite filter_In, has_match_iff; split.
    - intros (Hin & w' & Hw' & Hag); split; [assumption|].
      exists dy, w'; repeat split; auto.
      apply Hdy; intros E; rewrite E in Hin; destruct Hin.
    - intros (Hin & dy0 & w' & Hg & Hw' & Hag); split; [assumption|].
      assert (dy0 = dy).
      { assert (Hne : dx <> []) by (intros E; rewrite E in Hin; destruct Hin).
        specialize (Hdy Hne); congruence. }
      subst; eauto. }
  eexists; split; [simpl; apply dict_get_set_same|]. split; [exact Hiff|].
  intros Hxy i' j' dx1 w Ho' Hg Hin.
  rewrite Ho in Ho'; injection Ho' as <- <-.
  simpl in Hg; rewrite dict_get_set_same in Hg; injection Hg as <-.
  apply Hiff in Hin; destruct Hin as (_ & dy0 & w' & Hg0 & Hw' & Hag).
  exists dy0, w'; repeat split; auto.
  simpl; rewrite dict_get_set_other; [assumption | congruence].
Qed.

Lemma revise_keeps_supported_witness :
  exists dx',
    dict_get slot_across
             [(slot_across, ["AB"; "DD"]); (slot_down, ["AB"; "CA"; "DD"])]
    = Some dx'
    /\ (forall w, In w dx' <->
                  In w ["AB"; "CA"; "DD"]
                  /\ exists dy w',
                      dict_get slot_down (domains (init (corner ["AB"; "CA"; "DD"])))
                      = Some dy
                      /\ In w' dy /\ agree_at w 0 w' 1)
    /\ (slot_across <> slot_down ->
        arc_consistent (corner ["AB"; "CA"; "DD"])
                       [(slot_across, ["AB"; "DD"]); (slot_down, ["AB"; "CA"; "DD"])]
                       slot_across slot_down).
Proof.
  apply (revise_keeps_supported (corner ["AB"; "CA"; "DD"]) slot_across slot_down
           0 1 (init (corner ["AB"; "CA"; "DD"])) true
           (mkState [(slot_across, ["AB"; "DD"]); (slot_down, ["AB"; "CA"; "DD"])] 0)
           ["AB"; "CA"; "DD"]); reflexivity.
Defined.

Lemma revise_scan_words y i j dx : forall s tr s',
  revise_scan y i j dx s = Ok (tr, s') ->
  forall wx, In wx dx ->
    exists dy, dict_get y (domains s) = Some dy
               /\ match_found wx i dy j = Ok (has_match wx i dy j).
Proof.
  induction dx as [|w0 dx IH]; simpl; intros s tr s' H wx Hin; [destruct Hin|].
  inv_bind H as dy s1 Hd. apply domain_of_inv in Hd; destruct Hd as [Hd ->].
  inv_bind H as found s2 Hf. apply lift_inv in Hf; destruct Hf as [Hf ->].
  inv_bind H as rest s3 Hr.
  destruct Hin as [<-|Hin].
  - exists dy; split; [assumption|].
    rewrite Hf; f_equal; apply (match_found_inv _ _ _ _ _ Hf).
  - eapply IH; eassumption.
Qed.

Lemma revise_scan_supported y i j dy s : forall dx,
  (dx <> [] -> dict_get y (domains s) = Some dy) ->
  (forall wx, In wx dx -> match_found wx i dy j = Ok true) ->
  revise_scan y i j dx s = Ok ([], s).
Proof.
  induction dx as [|w0 dx IH]; simpl; intros Hy Hall; [reflexivity|].
  rewrite (bind_ok _ _ _ _ _ (domain_of_ok _ _ _ (Hy ltac:(discriminate)))).
  assert (Hl : lift (match_found w0 i dy j) s = Ok (true, s)).
  { unfold lift; rewrite (Hall w0 (or_introl eq_refl)); reflexivity. }
  rewrite (bind_ok _ _ _ _ _ Hl).
  assert (Hrest : revise_scan y i j dx s = Ok ([], s)).
  { apply IH.
    - intros _; apply Hy; discriminate.
    - intros wx Hwx; apply Hall; right; assumption. }
  rewrite (bind_ok _ _ _ _ _ Hrest); reflexivity.
Qed.

(** X5.  [revise] is idempotent: right after [revise(x, y)] returned,
    for two different variables, a second [revise(x, y)] returns [False]
    and removes nothing. *)
Theorem revise_idempotent c x y s r s' :
  x <> y ->
  revise c x y s = Ok (r, s') ->
  revise c x y s' = Ok (false, s').
Proof.
  intros Hxy H. pose proof H as Hinv. apply revise_inv in Hinv.
  unfold revise in *.
  destruct (overlaps c x y) as [[i j]|].
  2:{ reflexivity. }
  destruct Hinv as (dx & dy & Hdx & Hdy & -> & _).
  inv_bind H as dx0 s1 Hd. apply domain_of_inv in Hd; destruct Hd as [Hd ->].
  assert (dx0 = dx) by congruence; subst dx0.
  inv_bind H as tr s2 Hs. clear H.
  pose proof (revise_scan_words _ _ _ _ _ _ _ Hs) as Hwords.
  set (dx' := filter (fun wx => has_match wx i dy j) dx).
  assert (Hgx : dict_get x (domains (revised_state s x i dx dy j)) = Some dx')
    by apply dict_get_set_same.
  rewrite (bind_ok _ _ _ _ _ (domain_of_ok _ _ _ Hgx)).
  assert (Hscan : revise_scan y i j dx' (revised_state s x i dx dy j)
                  = Ok ([], revised_state s x i dx dy j)).
  2:{ rewrite (bind_ok _ _ _ _ _ Hscan). reflexivity. }
  apply (revise_scan_supported y i j dy).
  - intros Hne. simpl. rewrite dict_get_set_other by congruence.
    apply Hdy. intros E; apply Hne; unfold dx'; rewrite E; reflexivity.
  - intros wx Hwx. apply filter_In in Hwx; destruct Hwx as [Hin Hm].
    destruct (Hwords wx Hin) as (dy0 & Hg0 & Hmf).
    assert (dy0 = dy).
    { assert (Hne : dx <> []) by (intros E; rewrite E in Hin; destruct Hin).
      specialize (Hdy Hne); congruence. }
    subst dy0. rewrite Hmf, Hm; reflexivity.
Qed.

Lemma revise_idempotent_witness :
  revise (corner ["AB"; "CA"; "DD"]) slot_across slot_down
         (mkState [(slot_across, ["AB"; "DD"]); (slot_down, ["AB"; "CA"; "DD"])] 0)
  = Ok (false,
        mkState [(slot_across, ["AB"; "DD"]); (slot_down, ["AB"; "CA"; "DD"])] 0).
Proof.
  apply (revise_idempotent (corner ["AB"; "CA"; "DD"]) slot_across slot_down
           (init (corner ["AB"; "CA"; "DD"])) true).
  - discriminate.
  - reflexivity.
Defined.

Lemma match_found_outcome wx i dy j :
  (exists b, match_found wx i dy j = Ok b)
  \/ match_found wx i dy j = Raise IndexError.
Proof.
  induction dy as [|wy dy IH]; simpl; [left; eauto|].
  unfold str_index.
  destruct (String.get i wx); simpl; [|right; reflexivity].
  destruct (String.get j wy); simpl; [|right; reflexivity].
  destruct (Ascii.eqb _ _); [left; eauto | exact IH].
Qed.

Lemma revise_scan_outcome y i j dy s : forall dx,
  dict_get y (domains s) = Some dy ->
  (exists tr, revise_scan y i j dx s = Ok (tr, s))
  \/ revise_scan y i j dx s = Raise IndexError.
Proof.
  intros dx Hy; induction dx as [|wx dx IH]; simpl; [left; eexists; reflexivity|].
  rewrite (bind_ok _ _ _ _ _ (domain_of_ok _ _ _ Hy)).
  destruct (match_found_outcome wx i dy j) as [[b Hb]|Hb].
  - assert (Hl : lift (match_found wx i dy j) s = Ok (b, s))
      by (unfold lift; rewrite Hb; reflexivity).
    rewrite (bind_ok _ _ _ _ _ Hl).
    destruct IH as [[tr Htr]|Hr].
    + rewrite (bind_ok _ _ _ _ _ Htr); left; eexists; reflexivity.
    + right; unfold bind; rewrite Hr; reflexivity.
  - right; unfold bind at 1, lift; rewrite Hb; reflexivity.
Qed.

(** X6.  Missing domains in [revise(x, y)], for two variables that
    overlap: it raises [KeyError] exactly when [x] has no domain, or the
    domain of [x] is not empty and [y] has no domain.  (An empty domain
    of [x] is never compared with anything, so a missing [y] goes
    unnoticed.) *)
Theorem revise_key_error c x y i j s :
  overlaps c x y = Some (i, j) ->
  (revise c x y s = Raise KeyError <->
   dict_get x (domains s) = None
   \/ exists w dx, dict_get x (domains s) = Some (w :: dx)
                   /\ dict_get y (domains s) = None).
Proof.
  intros Ho; unfold revise; rewrite Ho; split.
  - intros H. destruct (dict_get x (domains s)) as [dx|] eqn:Hx; [|left; reflexivity].
    right. rewrite (bind_ok _ _ _ _ _ (domain_of_ok _ _ _ Hx)) in H.
    destruct dx as [|w dx]; [discriminate|].
    exists w, dx; split; [reflexivity|].
    destruct (dict_get y (domains s)) as [dy|] eqn:Hy; [|reflexivity].
    exfalso.
    destruct (revise_scan_outcome y i j dy s (w :: dx) Hy) as [[tr Htr]|Hr].
    + rewrite (bind_ok _ _ _ _ _ Htr) in H.
      rewrite (bind_ok _ _ _ _ _ (for_each_remove _ _ _ _ Hx)) in H.
      discriminate.
    + unfold bind in H; rewrite Hr in H; discriminate.
  - intros [Hx|(w & dx & Hx & Hy)].
    + unfold bind at 1, domain_of, bind, get_domains, raise; rewrite Hx; reflexivity.
    + rewrite (bind_ok _ _ _ _ _ (domain_of_ok _ _ _ Hx)); simpl.
      unfold bind at 1. unfold bind at 1, domain_of, bind, get_domains, raise.
      rewrite Hy; reflexivity.
Qed.

Lemma revise_key_error_witness :
  revise (corner ["AB"]) slot_across slot_down (mkState [(slot_across, ["AB"])] 0)
  = Raise KeyError <->
  dict_get slot_across [(slot_across, ["AB"])] = None
  \/ exists w dx, dict_get slot_across [(slot_across, ["AB"])] = Some (w :: dx)
                  /\ dict_get slot_down [(slot_across, ["AB"])] = None.
Proof.
  apply (revise_key_error (corner ["AB"]) slot_across slot_down 0 1
           (mkState [(slot_across, ["AB"])] 0)).
  reflexivity.
Defined.

(** *** [ac3] *)

Lemma ac3_loop_false c : forall fuel q s s',
  ac3_loop c fuel q s = Ok (false, s') ->
  exists x, dict_get x (domains s') = Some [].
Proof.
  induction fuel as [|fuel IH]; intros q s s' H;
    destruct q as [|[x y] q]; simpl in H; try discriminate.
  inv_bind H as revised s1 Hr. destruct revised; [|eapply IH; eassumption].
  inv_bind H as dx s2 Hd. apply domain_of_inv in Hd; destruct Hd as [Hd ->].
  destruct (List.length dx =? 0) eqn:El; [|eapply IH; eassumption].
  injection H as <-. apply Nat.eqb_eq, length_zero_iff_nil in El; subst dx; eauto.
Qed.

(** X7.  [ac3] returns [False] only with a wiped-out domain: in the
    store it leaves, some variable has the empty domain. *)
Theorem ac3_false_wipeout c arcs s s' :
  ac3 c arcs s = Ok (false, s') ->
  exists x, dict_get x (domains s') = Some [].
Proof.
  unfold ac3; intros H. inv_bind H as d s0 Hd. injection Hd as <- <-.
  eapply ac3_loop_false; eassumption.
Qed.

Lemma ac3_false_wipeout_witness :
  exists x, dict_get x [(slot_across, []); (slot_down, ["AB"; "CD"])] = Some [].
Proof.
  apply (ac3_false_wipeout (corner ["AB"; "CD"]) None
           (init (corner ["AB"; "CD"]))
           (mkState [(slot_across, []); (slot_down, ["AB"; "CD"])] 0)).
  reflexivity.
Defined.




Lemma ac3_loop_noop c :
  wf_crossword c ->
  forall q fuel s,
    ready c (domains s) -> queue_wf c q ->
    (forall x y, In (x, y) q -> arc_consistent c (domains s) x y) ->
    List.length q < fuel ->
    ac3_loop c fuel q s = Ok (true, s).
Proof.
  intros W; induction q as [|[x y] q IH]; intros fuel s Hready Hq Hac Hf.
  - destruct fuel; reflexivity.
  - destruct fuel as [|fuel]; [simpl in Hf; lia|]. simpl.
    destruct (Hq x y (or_introl eq_refl)) as [Hx Hy].
    pose proof Hy as Hy'. apply neighbors_In in Hy'.
    destruct Hy' as (Hyv & Hyx & [i j] & Ho).
    destruct (wf_range c W _ _ _ _ Ho) as [Hi Hj].
    destruct Hready as [Hcover Hnode].
    destruct (Hcover x Hx) as [dx Hdx]. destruct (Hcover y Hyv) as [dy Hdy].
    assert (Hrev := revise_total c x y s i j dx dy Ho Hdx Hdy
       (fun w Hw => eq_ind_r (fun n => i < n) Hi (Hnode _ _ _ Hdx Hw))
       (fun w Hw => eq_ind_r (fun n => j < n) Hj (Hnode _ _ _ Hdy Hw))).
    assert (Hall : forall w, In w dx -> has_match w i dy j = true).
    { intros w Hw. apply has_match_iff.
      destruct (Hac x y (or_introl eq_refl) i j dx w Ho Hdx Hw)
        as (dy0 & w' & Hg & Hw' & Hag).
      assert (dy0 = dy) by congruence; subst; eauto. }
    assert (Htr : filter (fun wx => negb (has_match wx i dy j)) dx = []).
    { clear -Hall. induction dx as [|w dx IH]; simpl; [reflexivity|].
      rewrite (Hall w (or_introl eq_refl)); simpl.
      apply IH; intros; apply Hall; right; assumption. }
    rewrite Htr in Hrev; simpl in Hrev.
    assert (Hs : revised_state s x i dx dy j = s).
    { unfold revised_state.
      rewrite (filter_negb_nil _ _ Htr), (dict_set_id _ _ _ Hdx). apply state_eta. }
    rewrite Hs in Hrev. rewrite (bind_ok _ _ _ _ _ Hrev).
    apply IH.
    + split; assumption.
    + intros u v Huv; apply Hq; right; assumption.
    + intros u v Huv; apply Hac; right; assumption.
    + simpl in Hf; lia.
Qed.

Lemma corner_ready ws :
  Forall (fun w => String.length w = 2) ws ->
  ready (corner ws) (domains (init (corner ws))).
Proof.
  intros Hall; split.
  - intros v [<-|[<-|[]]]; eexists; reflexivity.
  - intros v ws0 w Hg Hin. simpl in Hg.
    rewrite Forall_forall in Hall.
    destruct (var_eq_dec v slot_across) as [->|Hva].
    + injection Hg as <-; apply Hall; assumption.
    + apply var_eqb_neq in Hva; rewrite Hva in Hg.
      destruct (var_eq_dec v slot_down) as [->|Hvd].
      * injection Hg as <-; apply Hall; assumption.
      * apply var_eqb_neq in Hvd; rewrite Hvd in Hg; discriminate.
Qed.

(** X9.  AC-3 is idempotent: on a well-formed graph and a store where
    every variable has a domain of words of its length, when [ac3()]
    returned success a second [ac3()] returns success and removes
    nothing. *)
Theorem ac3_idempotent c s s' :
  wf_crossword c -> ready c (domains s) ->
  ac3 c None s = Ok (true, s') ->
  ac3 c None s' = Ok (true, s').
Proof.
  intros W Hready H.
  unfold ac3 in H. inv_bind H as d s0 Hd. injection Hd as <- <-.
  assert (Hq : queue_wf c (all_arcs c))
    by (intros u v Huv; apply all_arcs_In; assumption).
  assert (Hinv : arcs_inv c (all_arcs c) (domains s))
    by (intros u v Hu Hv; left; apply all_arcs_In; auto).
  pose proof (ac3_loop_arc_consistent c _ _ _ _ W Hq Hinv H) as Hac.
  pose proof (ac3_loop_le _ _ _ _ _ _ H) as [Hle _].
  unfold ac3, bind, get_domains.
  apply ac3_loop_noop; auto.
  - eapply ready_le; eassumption.
  - intros x y Hxy; apply all_arcs_In in Hxy; destruct Hxy; auto.
  - unfold ac3_fuel; lia.
Qed.

Lemma ac3_idempotent_witness :
  ac3 (corner ["AB"; "CA"; "DD"]) None
      (mkState [(slot_across, ["AB"; "DD"]); (slot_down, ["CA"; "DD"])] 0)
  = Ok (true, mkState [(slot_across, ["AB"; "DD"]); (slot_down, ["CA"; "DD"])] 0).
Proof.
  apply (ac3_idempotent (corner ["AB"; "CA"; "DD"])
           (init (corner ["AB"; "CA"; "DD"]))).
  - apply corner_wf.
  - apply corner_ready; repeat constructor.
  - reflexivity.
Defined.

(** X10.  After node consistency AC-3 raises nothing: on a well-formed
    graph and a store where every variable has a domain of words of its
    length, [ac3] over arcs that join neighbors returns, and the store it
    leaves is again of that kind. *)
Theorem ac3_runs_on_ready c arcs s :
  wf_crossword c -> ready c (domains s) ->
  (forall q, arcs = Some q -> queue_wf c q) ->
  exists r s', ac3 c arcs s = Ok (r, s') /\ ready c (domains s').
Proof.
  intros W Hready Hq.
  set (q := match arcs with None => all_arcs c | Some arcs => arcs end).
  assert (Hqwf : queue_wf c q).
  { destruct arcs as [q0|]; [apply Hq; reflexivity|].
    intros u v Huv; apply all_arcs_In; assumption. }
  destruct (ac3_loop_total c W (ac3_fuel c q (domains s)) q s Hready Hqwf)
    as (r & s' & H & _); [unfold ac3_fuel; lia|].
  exists r, s'; split; [exact H|].
  pose proof (ac3_loop_le _ _ _ _ _ _ H) as [Hle _].
  eapply ready_le; eassumption.
Qed.


Lemma ac3_runs_on_ready_witness :
  exists r s', ac3 (corner letters_fit) None (init (corner letters_fit)) = Ok (r, s')
               /\ ready (corner letters_fit) (domains s').
Proof.
  apply (ac3_runs_on_ready (corner letters_fit) None (init (corner letters_fit))).
  - apply corner_wf.
  - apply corner_ready; repeat constructor.
  - discriminate.
Defined.


(** *** [consistent] *)

(** X12.  [consistent] decides consistency: when every overlap index
    pair lies within the lengths of its two variables, it returns a
    Boolean, and that Boolean is [True] exactly when no two entries share
    a word, every word is as long as its variable and assigned neighbors
    agree at their overlap. *)
Theorem consistent_decides c a :
  (forall x y i j, overlaps c x y = Some (i, j) ->
                   i < var_length x /\ j < var_length y) ->
  exists b, consistent c a = Ok b /\ (b = true <-> consistent_spec c a).
Proof.
  intros Hr. destruct (consistent_total c a Hr) as (b & Hb & Ht).
  exists b; split; [assumption|]. split; [|assumption].
  intros ->; apply consistent_sound; assumption.
Qed.

Lemma consistent_decides_witness :
  exists b, consistent (corner letters) [(slot_across, "AB"); (slot_down, "AB")]
            = Ok b
            /\ (b = true <->
                consistent_spec (corner letters)
                                [(slot_across, "AB"); (slot_down, "AB")]).
Proof.
  apply (consistent_decides (corner letters)).
  apply (wf_range _ (corner_wf letters)).
Defined.

(** X13.  Pruning on [consistent] is sound: when every overlap index
    pair lies within the lengths of its two variables, every dictionary
    whose entries are all entries of an assignment that passes
    [consistent] passes it too; so no extension of a rejected partial
    assignment is accepted. *)
Theorem consistent_part c a a' :
  (forall x y i j, overlaps c x y = Some (i, j) ->
                   i < var_length x /\ j < var_length y) ->
  NoDup (dict_keys a') ->
  (forall v w, dict_get v a' = Some w -> dict_get v a = Some w) ->
  consistent c a = Ok true ->
  consistent c a' = Ok true.
Proof.
  intros Hr Hn Hp H. apply consistent_sound in H.
  destruct (consistent_total c a' Hr) as (b & Hb & Ht).
  rewrite Hb, Ht; [reflexivity|].
  eapply part_consistent; eassumption.
Qed.

Lemma consistent_part_witness :
  consistent (corner letters) [(slot_across, "AB")] = Ok true.
Proof.
  apply (consistent_part (corner letters)
           [(slot_across, "AB"); (slot_down, "CA")] [(slot_across, "AB")]).
  - apply (wf_range _ (corner_wf letters)).
  - repeat constructor; simpl; tauto.
  - intros v w; simpl. destruct (var_eqb v slot_across); [tauto | discriminate].
  - reflexivity.
Defined.

(** *** [select_unassigned_variable] *)

Lemma select_key_inv_full c var s k s' :
  select_key c var s = Ok (k, s') ->
  exists ws, dict_get var (domains s) = Some ws
             /\ k = (List.length ws, (- Z.of_nat (List.length (neighbors c var)))%Z).
Proof.
  unfold select_key; intros H; inv_bind H as ws s1 Hw.
  apply domain_of_inv in Hw; destruct Hw as [Hw ->].
  injection H as <- <-; eauto.
Qed.

Lemma pair_ltb_false_lex (k k' : nat * Z) :
  pair_ltb k k' = false ->
  fst k' < fst k \/ (fst k' = fst k /\ (snd k' <= snd k)%Z).
Proof. destruct k, k'; simpl; intros H; revert H; pair_ltb_solve. Qed.

(** X14.  The selector invariant.  When [select_unassigned_variable]
    returns, the store is untouched; it returns [None] exactly when the
    assignment is complete, and otherwise a variable of the graph that
    has no entry in the assignment. *)
Theorem select_unassigned c a s r s' :
  select_unassigned_variable c a s = Ok (r, s') ->
  s' = s
  /\ (r = None <-> assignment_complete c a = true)
  /\ (forall v, r = Some v -> In v (variables c) /\ dict_get v a = None).
Proof.
  intros H; apply select_inv in H; destruct H as [-> H].
  split; [reflexivity|]. unfold assignment_complete.
  destruct r as [v|].
  - destruct H as [Hin _]. split.
    + split; [discriminate|]. intros E.
      apply Nat.eqb_eq, length_zero_iff_nil in E. rewrite E in Hin; destruct Hin.
    + intros v' [= <-]. apply var_diff_In in Hin; destruct Hin as [Hv Hn].
      split; [assumption | apply dict_get_None; assumption].
  - rewrite H; split; [split; reflexivity | discriminate].
Qed.

Lemma select_unassigned_witness :
  init (corner letters) = init (corner letters)
  /\ (Some slot_down = None <->
      assignment_complete (corner letters) [(slot_across, "AB")] = true)
  /\ (forall v, Some slot_down = Some v ->
                In v (variables (corner letters))
                /\ dict_get v [(slot_across, "AB")] = None).
Proof.
  apply (select_unassigned (corner letters) [(slot_across, "AB")]
           (init (corner letters)) (Some slot_down) (init (corner letters))).
  reflexivity.
Defined.

(** X15.  Minimum remaining values, then degree.  The variable that
    [select_unassigned_variable] returns has a domain no larger than
    that of any other unassigned variable, and among the unassigned
    variables with a domain of that size it has the most neighbors. *)
Theorem select_mrv_degree c a s v s' u :
  select_unassigned_variable c a s = Ok (Some v, s') ->
  In u (variables c) -> dict_get u a = None ->
  exists dv du,
    dict_get v (domains s) = Some dv /\ dict_get u (domains s) = Some du
    /\ (List.length dv < List.length du
        \/ (List.length dv = List.length du
            /\ List.length (neighbors c u) <= List.length (neighbors c v))).
Proof.
  unfold select_unassigned_variable; intros H Hu Hua.
  set (vars := var_diff (variables c) (dict_keys a)) in *.
  assert (Huv : In u vars)
    by (apply var_diff_In; split; [assumption | apply dict_get_None; assumption]).
  inv_bind H as keys s1 Hk.
  apply map_m_inv in Hk; [|apply read_only_select_key].
  destruct Hk as [-> Hk]. injection H as Hs _.
  unfold sorted in Hs.
  pose proof (sort_by_head_least pair_ltb pair_ltb_irrefl pair_ltb_asym
                pair_ltb_negtrans (combine keys vars)) as Hl.
  pose proof (sort_by_perm pair_ltb (combine keys vars)) as Hp.
  destruct (sort_by pair_ltb (combine keys vars)) as [|[kh h] t]; [discriminate|].
  simpl in Hs; injection Hs as ->; simpl in Hl.
  assert (Hh : In (kh, v) (combine keys vars)).
  { apply (Permutation_in _ (Permutation_sym Hp)); left; reflexivity. }
  pose proof (Forall2_combine_In _ _ _ _ _ Hk Hh) as Hkv.
  apply select_key_inv_full in Hkv; destruct Hkv as (dv & Hdv & ->).
  destruct (Forall2_combine_ex _ _ _ _ Hk Huv) as [ku Hku].
  pose proof (Forall2_combine_In _ _ _ _ _ Hk Hku) as Hkk.
  apply select_key_inv_full in Hkk; destruct Hkk as (du & Hdu & ->).
  exists dv, du; split; [assumption|]. split; [assumption|].
  specialize (Hl _ (Permutation_in _ Hp Hku)); simpl in Hl.
  apply pair_ltb_false_lex in Hl; simpl in Hl. lia.
Qed.

Lemma select_mrv_degree_witness :
  exists dv du,
    dict_get slot_down [(slot_across, ["AB"; "DD"]); (slot_down, ["AB"])] = Some dv
    /\ dict_get slot_across [(slot_across, ["AB"; "DD"]); (slot_down, ["AB"])]
       = Some du
    /\ (List.length dv < List.length du
        \/ (List.length dv = List.length du
            /\ List.length (neighbors (corner ["AB"; "DD"]) slot_across)
               <= List.length (neighbors (corner ["AB"; "DD"]) slot_down))).
Proof.
  apply (select_mrv_degree (corner ["AB"; "DD"]) []
           (mkState [(slot_across, ["AB"; "DD"]); (slot_down, ["AB"])] 0)
           slot_down
           (mkState [(slot_across, ["AB"; "DD"]); (slot_down, ["AB"])] 0)
           slot_across).
  - reflexivity.
  - simpl; tauto.
  - reflexivity.
Defined.

Lemma map_m_raise {A B} (f : A -> M B) (e : exn) xs s :
  (forall x, In x xs -> (exists y, f x s = Ok (y, s)) \/ f x s = Raise e) ->
  (exists x, In x xs /\ f x s = Raise e) ->
  map_m f xs s = Raise e.
Proof.
  induction xs as [|x xs IH]; simpl; intros Hall [x0 [Hin Hx0]]; [destruct Hin|].
  destruct (Hall x (or_introl eq_refl)) as [[y Hy]|Hr].
  - rewrite (bind_ok _ _ _ _ _ Hy).
    destruct Hin as [->|Hin]; [congruence|].
    unfold bind. rewrite IH; [reflexivity | | eauto].
    intros; apply Hall; right; assumption.
  - unfold bind; rewrite Hr; reflexivity.
Qed.

(** X16.  Missing domains in [select_unassigned_variable]: it returns
    when every unassigned variable of the graph has a domain, and raises
    [KeyError] when one of them has none.  Variables that are assigned
    are not looked up. *)
Theorem select_key_error c a s :
  ((forall u, In u (variables c) -> dict_get u a = None ->
              exists du, dict_get u (domains s) = Some du) ->
   exists r, select_unassigned_variable c a s = Ok (r, s))
  /\ ((exists u, In u (variables c) /\ dict_get u a = None
                 /\ dict_get u (domains s) = None) ->
      select_unassigned_variable c a s = Raise KeyError).
Proof.
  unfold select_unassigned_variable.
  set (vars := var_diff (variables c) (dict_keys a)).
  assert (Hcase : forall u,
             (exists k, select_key c u s = Ok (k, s))
             \/ select_key c u s = Raise KeyError).
  { intros u; unfold select_key, bind, domain_of, bind, get_domains.
    destruct (dict_get u (domains s)); [left; eexists; reflexivity | right; reflexivity]. }
  split.
  - intros Hd.
    destruct (map_m_total (select_key c) vars s) as [keys Hk].
    + intros u Hu. apply var_diff_In in Hu; destruct Hu as [Hu Hn].
      destruct (Hd u Hu) as [du Hdu]; [apply dict_get_None; assumption|].
      eexists; unfold select_key.
      rewrite (bind_ok _ _ _ _ _ (domain_of_ok _ _ _ Hdu)); reflexivity.
    + rewrite (bind_ok _ _ _ _ _ Hk); eexists; reflexivity.
  - intros (u & Hu & Hua & Hud).
    unfold bind. rewrite (map_m_raise (select_key c) KeyError vars s); [reflexivity| |].
    + intros x _; apply Hcase.
    + exists u; split.
      * apply var_diff_In; split; [assumption | apply dict_get_None; assumption].
      * unfold select_key, bind, domain_of, bind, get_domains, raise.
        rewrite Hud; reflexivity.
Qed.

Lemma select_key_error_witness :
  (exists r, select_unassigned_variable (corner letters) [(slot_across, "AB")]
                                        (mkState [(slot_down, letters)] 0)
             = Ok (r, mkState [(slot_down, letters)] 0))
  /\ select_unassigned_variable (corner letters) []
                                (mkState [(slot_down, letters)] 0)
     = Raise KeyError.
Proof.
  split.
  - apply (proj1 (select_key_error (corner letters) [(slot_across, "AB")]
                    (mkState [(slot_down, letters)] 0))).
    intros u [<-|[<-|[]]]; simpl; [discriminate | eexists; reflexivity].
  - apply (proj2 (select_key_error (corner letters) []
                    (mkState [(slot_down, letters)] 0))).
    exists slot_across; simpl; auto.
Defined.

(** *** [order_domain_values] *)

(** X17.  The value ordering raises nothing after node consistency: on
    a well-formed graph and a store where every variable has a domain of
    words of its length, for a variable of the graph that is not
    assigned, [order_domain_values] returns the domain of the variable
    (no [KeyError], no [IndexError] in the key function). *)
Theorem order_domain_values_runs c var a s :
  wf_crossword c -> ready c (domains s) ->
  In var (variables c) -> dict_get var a = None ->
  exists dv, dict_get var (domains s) = Some dv
             /\ order_domain_values c var a s = Ok (dv, s).
Proof.
  intros W Hready Hv Ha.
  destruct (proj1 Hready var Hv) as [dv Hdv].
  exists dv; split; [assumption|].
  apply order_domain_values_total; auto.
  apply dict_get_None; assumption.
Qed.

Lemma order_domain_values_runs_witness :
  exists dv, dict_get slot_down (domains (init (corner letters_fit))) = Some dv
             /\ order_domain_values (corner letters_fit) slot_down
                                    [(slot_across, "AB")]
                                    (init (corner letters_fit))
                = Ok (dv, init (corner letters_fit)).
Proof.
  apply (order_domain_values_runs (corner letters_fit) slot_down
           [(slot_across, "AB")] (init (corner letters_fit))).
  - apply corner_wf.
  - apply corner_ready; repeat constructor.
  - simpl; tauto.
  - reflexivity.
Defined.

(** *** [backtrack] *)

Lemma try_values_grows c recur _var vals (d : dict (list string)) dv :
  In _var (variables c) ->
  dict_get _var d = Some dv -> incl vals dv ->
  (forall a0 s r s', recur a0 s = Ok (r, s') -> search_post c a0 s r s') ->
  (forall a0 s a' s',
      domains s = d -> recur a0 s = Ok ((true, a'), s') ->
      exists ext, a' = a0 ++ ext
        /\ (forall v w, In (v, w) ext ->
              In v (variables c)
              /\ exists ws, dict_get v d = Some ws /\ In w ws)
        /\ (NoDup (dict_keys a0) -> NoDup (dict_keys a'))) ->
  forall a s a' s',
    domains s = d -> ~ In _var (dict_keys a) ->
    try_values recur _var vals a s = Ok ((true, a'), s') ->
    exists ext, a' = a ++ ext
      /\ (forall v w, In (v, w) ext ->
            In v (variables c)
            /\ exists ws, dict_get v d = Some ws /\ In w ws)
      /\ (NoDup (dict_keys a) -> NoDup (dict_keys a')).
Proof.
  intros Hvar Hdv Hincl Hpost Hrec.
  induction vals as [|i vals IH]; simpl; intros a s a' s' Hd Hfresh H;
    [discriminate|].
  inv_bind H as r1 s1 H1.
  pose proof (Hpost _ _ _ _ H1) as (Hf & _ & Hd1).
  destruct r1 as [[|] a1]; simpl in *.
  - unfold ret in H; injection H as <- <-.
    destruct (Hrec _ _ _ _ Hd H1) as (ext & -> & Hext & Hnd).
    rewrite (dict_set_absent _ _ _ Hfresh), <- app_assoc; simpl.
    exists ((_var, i) :: ext); split; [reflexivity|]. split.
    + intros v w [[= <- <-]|Hin]; [|apply Hext; assumption].
      split; [assumption|]. exists dv; split; [assumption|].
      apply Hincl; left; reflexivity.
    + intros Hn. rewrite (dict_set_absent _ _ _ Hfresh), <- app_assoc in Hnd.
      apply Hnd. unfold dict_keys; rewrite map_app; simpl.
      apply NoDup_app; [assumption | constructor; [simpl; tauto | constructor]|].
      intros u Hu [<-|[]]; auto.
  - rewrite (Hf eq_refl), dict_del_set in H by assumption.
    apply (IH (fun w Hw => Hincl w (or_intror Hw)) a s1 a' s');
      [congruence | assumption | assumption].
Qed.

Lemma backtrack_grows c : forall fuel a s a' s',
  backtrack c fuel a s = Ok ((true, a'), s') ->
  exists ext, a' = a ++ ext
    /\ (forall v w, In (v, w) ext ->
          In v (variables c)
          /\ exists ws, dict_get v (domains s) = Some ws /\ In w ws)
    /\ (NoDup (dict_keys a) -> NoDup (dict_keys a')).
Proof.
  induction fuel as [|fuel IH]; simpl; intros a s a' s' H; [discriminate|].
  inv_bind H as u s1 Ht. injection Ht as _ <-.
  inv_bind H as ok s2 Hc. apply lift_inv in Hc; destruct Hc as [Hc ->].
  destruct ok; simpl in H; [|discriminate].
  destruct (assignment_complete c a) eqn:Ec.
  { injection H as <- <-. exists []; rewrite app_nil_r.
    split; [reflexivity|]. split; [intros v w []|auto]. }
  inv_bind H as sel s3 Hs. apply select_inv in Hs; destruct Hs as [-> Hs].
  destruct sel as [_var|]; [|discriminate].
  destruct Hs as [Hin _]. apply var_diff_In in Hin; destruct Hin as [Hvar Hfresh].
  inv_bind H as vals s4 Ho. apply order_domain_values_inv in Ho.
  destruct Ho as [Hvals ->]. simpl in Hvals.
  eapply (try_values_grows c (backtrack c fuel) _var vals (domains s) vals);
    try eassumption.
  - apply incl_refl.
  - apply backtrack_inv.
  - intros a0 s0 a1 s1 Hd0 H0. rewrite <- Hd0. eapply IH; eassumption.
  - reflexivity.
Qed.

(** X18.  What a successful search adds.  When [backtrack(a)] returns
    the assignment, it is [a] with entries appended: the entries of [a]
    are kept, in place; every new entry is for a variable of the graph
    and carries a word of that variable's domain; and no key is
    repeated if none was. *)
Theorem backtrack_extends c fuel a s a' s' :
  backtrack c fuel a s = Ok ((true, a'), s') ->
  exists ext, a' = a ++ ext
    /\ (forall v w, In (v, w) ext ->
          In v (variables c)
          /\ exists ws, dict_get v (domains s) = Some ws /\ In w ws)
    /\ (NoDup (dict_keys a) -> NoDup (dict_keys a')).
Proof. apply backtrack_grows. Qed.

Lemma backtrack_extends_witness :
  exists ext,
    [(slot_across, "AB"); (slot_down, "CA")] = [(slot_across, "AB")] ++ ext
    /\ (forall v w, In (v, w) ext ->
          In v (variables (corner letters_fit))
          /\ exists ws, dict_get v (domains (init (corner letters_fit))) = Some ws
                        /\ In w ws)
    /\ (NoDup (dict_keys [(slot_across, "AB")]) ->
        NoDup (dict_keys [(slot_across, "AB"); (slot_down, "CA")])).
Proof.
  apply (backtrack_extends (corner letters_fit) 2 [(slot_across, "AB")]
           (init (corner letters_fit)) [(slot_across, "AB"); (slot_down, "CA")]
           (mkState (domains (init (corner letters_fit))) 3)).
  reflexivity.
Defined.

(** X19.  The search leaves the domains alone: whatever [backtrack]
    returns, [self.domains] is the store it was called with. *)
Theorem backtrack_frame c fuel a s r s' :
  backtrack c fuel a s = Ok (r, s') -> domains s' = domains s.
Proof.
  intros H; apply backtrack_inv in H; destruct H as (_ & _ & Hd); exact Hd.
Qed.

Lemma backtrack_frame_witness :
  domains (mkState (domains (init (corner letters_fit))) 3)
  = domains (init (corner letters_fit)).
Proof.
  apply (backtrack_frame (corner letters_fit) 2 [(slot_across, "AB")]
           (init (corner letters_fit))
           (true, [(slot_across, "AB"); (slot_down, "CA")])).
  reflexivity.
Defined.



(** *** [solve] *)

(** X21.  On a well-formed graph [solve] returns: none of the lookups
    and index expressions of the propagation and the search raises, the
    AC-3 loop ends and the recursion of the search is no deeper than the
    number of variables plus one. *)
Theorem solve_never_raises c :
  wf_crossword c -> exists r s', run c = Ok (r, s').
Proof. apply solve_returns. Qed.

Lemma solve_never_raises_witness :
  exists r s', run (corner ["AB"; "CD"; "XYZ"]) = Ok (r, s').
Proof.
  apply (solve_never_raises (corner ["AB"; "CD"; "XYZ"])).
  apply corner_wf.
Defined.

Lemma init_get c v ws :
  dict_get v (domains (init c)) = Some ws -> ws = words c.
Proof.
  unfold init; simpl. induction (variables c) as [|u l IH]; simpl; [discriminate|].
  destruct (var_eqb v u); [intros [= <-]; reflexivity | exact IH].
Qed.

Lemma run_inv c r s' :
  run c = Ok (r, s') ->
  exists s1 b s2 res,
    state_le s1 (init c) /\ state_le s2 s1
    /\ enforce_node_consistency (init c) = Ok (tt, s1)
    /\ ac3 c None s1 = Ok (b, s2)
    /\ backtrack c (backtrack_fuel c) [] s2 = Ok (res, s')
    /\ r = (if fst res then Some (snd res) else None).
Proof.
  unfold run, solve; intros H.
  inv_bind H as u1 s1 He. inv_bind H as b s2 Ha. inv_bind H as res s3 Hb.
  injection H as <- <-. destruct u1.
  exists s1, b, s2, res; repeat split; auto.
  - eapply enforce_node_consistency_le; eassumption.
  - eapply enforce_node_consistency_le; eassumption.
  - unfold ac3 in Ha. inv_bind Ha as d s0 Hd. injection Hd as <- <-.
    eapply ac3_loop_le; eassumption.
  - unfold ac3 in Ha. inv_bind Ha as d s0 Hd. injection Hd as <- <-.
    eapply ac3_loop_le; eassumption.
Qed.

(** X22.  The shape of a solution.  In an assignment that [solve]
    returns no variable occurs twice, every key is a variable of the
    graph, and every word is a word of the word list as long as its
    variable. *)
Theorem solve_assignment_shape c a s' :
  run c = Ok (Some a, s') ->
  NoDup (dict_keys a)
  /\ forall v w, In (v, w) a ->
                 In v (variables c) /\ In w (words c)
                 /\ String.length w = var_length v.
Proof.
  intros H. apply run_inv in H.
  destruct H as (s1 & b & s2 & res & [Hle1 _] & [Hle2 _] & _ & _ & Hb & Hr).
  destruct res as [[|] a']; simpl in Hr; [|discriminate]. injection Hr as ->.
  pose proof (backtrack_inv _ _ _ _ _ _ Hb) as (_ & Hgood & _).
  destruct (Hgood eq_refl) as [Hcons _]. apply consistent_sound in Hcons.
  apply backtrack_grows in Hb. destruct Hb as (ext & E & Hext & Hnd).
  simpl in E; subst ext. split; [apply Hnd; constructor|].
  intros v w Hin. destruct (Hext v w Hin) as (Hv & ws & Hws & Hw).
  split; [assumption|]. split; [|apply (cs_lengths c a' Hcons); assumption].
  destruct (store_le_get _ _ _ _ Hle2 Hws) as (ws1 & Hws1 & Hs1).
  destruct (store_le_get _ _ _ _ Hle1 Hws1) as (ws0 & Hws0 & Hs0).
  apply init_get in Hws0; subst ws0.
  apply (shrunk_incl _ _ Hs0), (shrunk_incl _ _ Hs1); assumption.
Qed.

Lemma solve_assignment_shape_witness :
  NoDup (dict_keys [(slot_across, "AB"); (slot_down, "CA")])
  /\ forall v w, In (v, w) [(slot_across, "AB"); (slot_down, "CA")] ->
                 In v (variables (corner letters)) /\ In w (words (corner letters))
                 /\ String.length w = var_length v.
Proof.
  apply (solve_assignment_shape (corner letters)
           [(slot_across, "AB"); (slot_down, "CA")]
           (mkState [(slot_across, letters_fit); (slot_down, letters_fit)] 4)).
  reflexivity.
Defined.

(** X23.  The store [solve] leaves behind, whether it found a solution
    or not: it has a domain for each variable of the graph, in the order
    of the constructor, and every domain holds only words of the word
    list that are as long as the variable. *)
Theorem solve_store c r s' :
  NoDup (variables c) ->
  run c = Ok (r, s') ->
  dict_keys (domains s') = variables c
  /\ forall v ws w, dict_get v (domains s') = Some ws -> In w ws ->
                    In w (words c) /\ String.length w = var_length v.
Proof.
  intros Hn H. apply run_inv in H.
  destruct H as (s1 & b & s2 & res & _ & [Hle2 _] & He & _ & Hb & _).
  apply backtrack_inv in Hb; destruct Hb as (_ & _ & Hd).
  rewrite enforce_node_consistency_eq in He
    by (rewrite init_keys; assumption).
  injection He as <-. simpl in Hle2. rewrite Hd. split.
  - rewrite (store_le_keys _ _ Hle2), node_filtered_keys. apply init_keys.
  - intros v ws w Hws Hw.
    destruct (store_le_get _ _ _ _ Hle2 Hws) as (ws1 & Hws1 & Hs1).
    apply node_filtered_get_inv in Hws1; destruct Hws1 as (ws0 & Hws0 & ->).
    apply init_get in Hws0; subst ws0.
    apply (shrunk_incl _ _ Hs1), filter_In in Hw; destruct Hw as [Hw Hf].
    split; [assumption | apply Nat.eqb_eq; exact Hf].
Qed.

Lemma solve_store_witness :
  dict_keys [(slot_across, @nil string); (slot_down, ["AB"; "CD"])]
  = variables (corner ["AB"; "CD"; "XYZ"])
  /\ forall v ws w,
      dict_get v [(slot_across, []); (slot_down, ["AB"; "CD"])] = Some ws ->
      In w ws ->
      In w (words (corner ["AB"; "CD"; "XYZ"])) /\ String.length w = var_length v.
Proof.
  apply (solve_store (corner ["AB"; "CD"; "XYZ"]) None
           (mkState [(slot_across, []); (slot_down, ["AB"; "CD"])] 1)).
  - apply (wf_nodup _ (corner_wf _)).
  - reflexivity.
Defined.

(** *** [letter_grid] *)

Lemma list_set_eq {A} (x : A) l : forall n,
  list_set n x l = if n <? List.length l then Ok (put n x l) else Raise IndexError.
Proof.
  induction l as [|y l IH]; intros n; simpl; [reflexivity|].
  destruct n as [|n]; [reflexivity|].
  rewrite IH. change (S n <? S (List.length l)) with (n <? List.length l).
  destruct (n <? List.length l); reflexivity.
Qed.

Lemma put_length {A} (x : A) l : forall n, List.length (put n x l) = List.length l.
Proof.
  induction l as [|y l IH]; intros n; simpl; [reflexivity|].
  destruct n; simpl; [reflexivity | rewrite IH; reflexivity].
Qed.

Lemma nth_error_put {A} (x : A) l : forall n m,
  n < List.length l ->
  nth_error (put n x l) m = if m =? n then Some x else nth_error l m.
Proof.
  induction l as [|y l IH]; intros n m Hn; simpl in *; [lia|].
  destruct n as [|n], m as [|m]; simpl; try reflexivity.
  apply IH; lia.
Qed.

Lemma put_Forall {A} (P : A -> Prop) (x : A) l n :
  Forall P l -> P x -> Forall P (put n x l).
Proof.
  intros Hl Hx; revert n; induction Hl as [|y l Hy Hl IH]; intros n; simpl;
    [constructor|].
  destruct n; constructor; auto.
Qed.

Lemma shaped_row height width letters i :
  shaped height width letters -> i < height ->
  exists row, nth_error letters i = Some row /\ List.length row = width.
Proof.
  intros [Hl Hr] Hi.
  destruct (nth_error letters i) as [row|] eqn:E.
  - exists row; split; [reflexivity|].
    rewrite Forall_forall in Hr; apply Hr; eapply nth_error_In; eassumption.
  - apply nth_error_None in E; lia.
Qed.

(** One write, on a grid of known size. *)
Lemma grid_set_shaped height width letters i j ch :
  shaped height width letters ->
  (i < height /\ j < width /\
   exists letters', grid_set i j ch letters = Ok letters'
     /\ shaped height width letters'
     /\ forall i' j', grid_get letters' i' j'
                      = if (i' =? i) && (j' =? j) then Some (Some ch)
                        else grid_get letters i' j')
  \/ (~ (i < height /\ j < width) /\ grid_set i j ch letters = Raise IndexError).
Proof.
  intros Hs. pose proof Hs as [Hl Hr]. unfold grid_set, list_index.
  destruct (Nat.ltb_spec i height) as [Hi|Hi].
  2:{ right; split; [lia|].
      assert (E : nth_error letters i = None) by (apply nth_error_None; lia).
      rewrite E; reflexivity. }
  destruct (shaped_row _ _ _ _ Hs Hi) as (row & Hrow & Hlen).
  rewrite Hrow; simpl. rewrite list_set_eq, Hlen.
  destruct (Nat.ltb_spec j width) as [Hj|Hj].
  2:{ right; split; [lia | reflexivity]. }
  left; split; [assumption|]. split; [assumption|]. simpl.
  rewrite list_set_eq, Hl. destruct (Nat.ltb_spec i height) as [_|]; [|lia].
  eexists; split; [reflexivity|]. split.
  - split; [rewrite put_length; assumption|].
    apply put_Forall; [assumption | rewrite put_length; assumption].
  - intros i' j'; unfold grid_get.
    rewrite nth_error_put by lia.
    destruct (Nat.eqb_spec i' i) as [->|Hne]; simpl; [|reflexivity].
    rewrite nth_error_put by lia. rewrite Hrow.
    destruct (j' =? j); reflexivity.
Qed.

Lemma apply_writes_shaped height width ws : forall letters,
  shaped height width letters ->
  (Forall (fun w => fst (fst w) < height /\ snd (fst w) < width) ws /\
   exists letters', apply_writes ws letters = Ok letters'
     /\ shaped height width letters'
     /\ forall i j, grid_get letters' i j
                    = match last_write ws i j with
                      | Some ch => Some (Some ch)
                      | None => grid_get letters i j
                      end)
  \/ (~ Forall (fun w => fst (fst w) < height /\ snd (fst w) < width) ws
      /\ apply_writes ws letters = Raise IndexError).
Proof.
  induction ws as [|[[i j] ch] ws IH]; intros letters Hs; simpl.
  - left; split; [constructor|]. exists letters; auto.
  - destruct (grid_set_shaped height width letters i j ch Hs)
      as [(Hi & Hj & g1 & H1 & Hs1 & Hget1)|[Hout H1]].
    + rewrite H1; simpl.
      destruct (IH g1 Hs1) as [(Hall & g2 & H2 & Hs2 & Hget2)|[Hnot H2]].
      * left; split; [constructor; auto|].
        exists g2; split; [assumption|]. split; [assumption|].
        intros i' j'. rewrite Hget2.
        destruct (last_write ws i' j'); [reflexivity|]. rewrite Hget1.
        destruct ((i' =? i) && (j' =? j)) eqn:E.
        -- apply andb_true_iff in E; destruct E as [E1 E2].
           apply Nat.eqb_eq in E1, E2; subst.
           rewrite !Nat.eqb_refl; reflexivity.
        -- rewrite (Nat.eqb_sym i i'), (Nat.eqb_sym j j'), E; reflexivity.
      * right; split; [|assumption].
        intros Hall; inversion Hall; subst; contradiction.
    + right; split; [|rewrite H1; reflexivity].
      intros Hall; inversion Hall as [|? ? Hh]; subst; simpl in Hh; contradiction.
Qed.

Lemma fill_word_writes variable word0 rest : forall k letters,
  (forall m, String.get (k + m) word0 = String.get m rest) ->
  fill_word variable word0 (seq k (String.length rest)) letters
  = apply_writes (word_writes variable k rest) letters.
Proof.
  induction rest as [|ch rest IH]; intros k letters Hget; simpl; [reflexivity|].
  unfold str_index. specialize (Hget 0) as H0. rewrite Nat.add_0_r in H0.
  rewrite H0; simpl.
  destruct (grid_set (cell_row variable k) (cell_col variable k) ch letters);
    simpl; try reflexivity.
  apply IH. intros m. specialize (Hget (S m)); simpl in Hget.
  rewrite <- Hget; f_equal; lia.
Qed.

Lemma apply_writes_app ws1 : forall ws2 letters,
  apply_writes (ws1 ++ ws2) letters
  = rbind (apply_writes ws1 letters) (apply_writes ws2).
Proof.
  induction ws1 as [|[[i j] ch] ws1 IH]; intros ws2 letters; simpl; [reflexivity|].
  destruct (grid_set i j ch letters); simpl; auto.
Qed.

Lemma fill_all_writes a : forall letters,
  fill_all a letters = apply_writes (writes_of a) letters.
Proof.
  induction a as [|[v word] a IH]; intros letters; simpl; [reflexivity|].
  unfold writes_of; simpl. rewrite apply_writes_app.
  rewrite (fill_word_writes v word word 0 letters) by reflexivity.
  destruct (apply_writes (word_writes v 0 word) letters); simpl; auto.
Qed.

Lemma word_writes_In variable word : forall k i j ch,
  In (i, j, ch) (word_writes variable k word) <->
  exists m, String.get m word = Some ch
            /\ i = cell_row variable (k + m) /\ j = cell_col variable (k + m).
Proof.
  induction word as [|c rest IH]; intros k i j ch; simpl.
  - split; [tauto | intros (m & H & _); discriminate].
  - rewrite IH; split.
    + intros [[= <- <- <-]|(m & Hm & -> & ->)].
      * exists 0; rewrite Nat.add_0_r; auto.
      * exists (S m); simpl; rewrite Nat.add_succ_r; auto.
    + intros ([|m] & Hm & -> & ->); simpl in Hm.
      * injection Hm as <-; left; rewrite Nat.add_0_r; reflexivity.
      * right; exists m; rewrite Nat.add_succ_r; auto.
Qed.

Lemma writes_of_In a i j ch :
  In (i, j, ch) (writes_of a) <->
  exists v word k, In (v, word) a /\ String.get k word = Some ch
                   /\ i = cell_row v k /\ j = cell_col v k.
Proof.
  unfold writes_of; rewrite in_flat_map; split.
  - intros ([v word] & Hin & Hw); simpl in Hw.
    apply word_writes_In in Hw; destruct Hw as (m & Hm & -> & ->).
    exists v, word, m; auto.
  - intros (v & word & k & Hin & Hk & -> & ->).
    exists (v, word); split; [assumption|]. simpl.
    apply word_writes_In; exists k; auto.
Qed.

Lemma get_Some_lt word : forall k ch, String.get k word = Some ch -> k < String.length word.
Proof.
  induction word as [|c rest IH]; intros k ch; simpl; [discriminate|].
  destruct k; [lia|]. intros H; apply IH in H; lia.
Qed.

Lemma writes_inside height width a :
  Forall (fun w => fst (fst w) < height /\ snd (fst w) < width) (writes_of a) <->
  forall v word, In (v, word) a -> word_inside height width v word.
Proof.
  rewrite Forall_forall; split.
  - intros H v word Hin k Hk.
    destruct (get_in_range word k Hk) as [ch Hc].
    apply (H (cell_row v k, cell_col v k, ch)).
    apply writes_of_In; exists v, word, k; auto.
  - intros H [[i j] ch] Hin; simpl.
    apply writes_of_In in Hin; destruct Hin as (v & word & k & Hin & Hk & -> & ->).
    apply (H v word Hin). eapply get_Some_lt; eassumption.
Qed.

Lemma last_write_None ws i j :
  last_write ws i j = None <-> forall ch, ~ In (i, j, ch) ws.
Proof.
  induction ws as [|[[i' j'] c] ws IH]; simpl; [split; auto|].
  destruct (last_write ws i j) as [c'|] eqn:E.
  - split; [discriminate|]. intros H.
    assert (Hn : forall ch, ~ In (i, j, ch) ws) by (intros ch Hin; apply (H ch); auto).
    apply IH in Hn; discriminate.
  - destruct ((i' =? i) && (j' =? j)) eqn:Eb.
    + split; [discriminate|]. intros H. exfalso.
      apply andb_true_iff in Eb; destruct Eb as [E1 E2].
      apply Nat.eqb_eq in E1, E2; subst. apply (H c); left; reflexivity.
    + split; [|reflexivity]. intros _ ch [[= -> -> <-]|Hin].
      * rewrite !Nat.eqb_refl in Eb; discriminate.
      * revert Hin; apply IH; reflexivity.
Qed.

Lemma last_write_Some ws i j ch :
  last_write ws i j = Some ch -> In (i, j, ch) ws.
Proof.
  induction ws as [|[[i' j'] c] ws IH]; simpl; [discriminate|].
  destruct (last_write ws i j) as [c'|].
  - intros [= ->]; right; apply IH; reflexivity.
  - destruct ((i' =? i) && (j' =? j)) eqn:Eb; [|discriminate].
    apply andb_true_iff in Eb; destruct Eb as [E1 E2].
    apply Nat.eqb_eq in E1, E2; subst. intros [= ->]; left; reflexivity.
Qed.

Lemma blank_shaped height width : shaped height width (repeat (repeat None width) height).
Proof.
  split; [apply repeat_length|].
  apply Forall_forall; intros row Hin. apply repeat_spec in Hin; subst.
  apply repeat_length.
Qed.

Lemma blank_get height width i j :
  i < height -> j < width ->
  grid_get (repeat (repeat None width) height) i j = Some None.
Proof.
  intros Hi Hj; unfold grid_get.
  rewrite nth_error_repeat by assumption. apply nth_error_repeat; assumption.
Qed.

(** X24.  Bounds of [letter_grid].  It returns exactly when every
    letter of every word of the assignment falls on a cell of the grid,
    and the array it returns has [height] rows of [width] cells; when
    some letter falls outside it raises [IndexError].  (So a word longer
    than its slot can make rendering fail, and an empty word never
    does.) *)
Theorem letter_grid_bounds height width a :
  ((forall v word, In (v, word) a -> word_inside height width v word) ->
   exists letters, letter_grid height width a = Ok letters
                   /\ shaped height width letters)
  /\ (~ (forall v word, In (v, word) a -> word_inside height width v word) ->
      letter_grid height width a = Raise IndexError).
Proof.
  unfold letter_grid; rewrite fill_all_writes.
  destruct (apply_writes_shaped height width (writes_of a) _
              (blank_shaped height width))
    as [(Hall & g & Hg & Hs & _)|[Hnot Hg]]; split.
  - intros _; eauto.
  - intros Hn; exfalso; apply Hn. apply writes_inside; assumption.
  - intros Hin; exfalso; apply Hnot. apply writes_inside; assumption.
  - intros _; assumption.
Qed.

Lemma letter_grid_bounds_witness :
  (exists letters,
      letter_grid 2 2 [(slot_across, "AB"); (slot_down, "CA")] = Ok letters
      /\ shaped 2 2 letters)
  /\ letter_grid 2 2 [(slot_across, "ABC")] = Raise IndexError.
Proof.
  split.
  - apply (proj1 (letter_grid_bounds 2 2 [(slot_across, "AB"); (slot_down, "CA")])).
    intros v word [[= <- <-]|[[= <- <-]|[]]] k Hk;
      unfold cell_row, cell_col, slot_across, slot_down; simpl in *; lia.
  - apply (proj2 (letter_grid_bounds 2 2 [(slot_across, "ABC")])).
    intros H. specialize (H slot_across "ABC" (or_introl eq_refl) 2).
    unfold cell_row, cell_col, slot_across in H; simpl in H. lia.
Defined.

(** X25.  What [letter_grid] shows.  In the array it returns, a cell
    that no letter of the assignment falls on holds [None]; and the cell
    of the [k]-th letter of an assigned word holds that letter, provided
    every other letter that falls on the same cell is the same letter
    (which is what crossing words of a consistent assignment do). *)
Theorem letter_grid_cells height width a letters :
  letter_grid height width a = Ok letters ->
  (forall i j,
      i < height -> j < width ->
      (forall v word k, In (v, word) a -> k < String.length word ->
                        ~ (cell_row v k = i /\ cell_col v k = j)) ->
      grid_get letters i j = Some None)
  /\ (forall v word k ch,
         In (v, word) a -> String.get k word = Some ch ->
         (forall v' word' k' ch',
             In (v', word') a -> String.get k' word' = Some ch' ->
             cell_row v' k' = cell_row v k -> cell_col v' k' = cell_col v k ->
             ch' = ch) ->
         grid_get letters (cell_row v k) (cell_col v k) = Some (Some ch)).
Proof.
  unfold letter_grid; rewrite fill_all_writes; intros H.
  destruct (apply_writes_shaped height width (writes_of a) _
              (blank_shaped height width))
    as [(Hall & g & Hg & Hs & Hget)|[_ Hg]]; [|congruence].
  assert (g = letters) by congruence; subst g. split.
  - intros i j Hi Hj Hfree. rewrite Hget.
    assert (E : last_write (writes_of a) i j = None).
    { apply last_write_None. intros ch Hin.
      apply writes_of_In in Hin; destruct Hin as (v & word & k & Hin & Hk & -> & ->).
      apply (Hfree v word k Hin); [eapply get_Some_lt; eassumption | auto]. }
    rewrite E. apply blank_get; assumption.
  - intros v word k ch Hin Hk Hsame. rewrite Hget.
    destruct (last_write (writes_of a) (cell_row v k) (cell_col v k)) as [c|] eqn:E.
    + apply last_write_Some, writes_of_In in E.
      destruct E as (v' & word' & k' & Hin' & Hk' & Er & Ec).
      rewrite (Hsame v' word' k' c Hin' Hk'); auto.
    + exfalso. rewrite last_write_None in E. apply (E ch).
      apply writes_of_In; exists v, word, k; auto.
Qed.

Lemma letter_grid_cells_witness :
  grid_get [[Some "C"%char; None]; [Some "A"%char; Some "B"%char]] 0 1 = Some None
  /\ grid_get [[Some "C"%char; None]; [Some "A"%char; Some "B"%char]]
              (cell_row slot_down 1) (cell_col slot_down 1)
     = Some (Some "A"%char).
Proof.
  destruct (letter_grid_cells 2 2 [(slot_across, "AB"); (slot_down, "CA")]
              [[Some "C"%char; None]; [Some "A"%char; Some "B"%char]] eq_refl)
    as [Hnone Hsome].
  split.
  - apply Hnone; [lia | lia |].
    intros v word k [[= <- <-]|[[= <- <-]|[]]] Hk;
      unfold cell_row, cell_col, slot_across, slot_down; simpl in *; lia.
  - apply (Hsome slot_down "CA" 1 "A"%char); [simpl; tauto | reflexivity|].
    intros v' word' k' ch' [[= <- <-]|[[= <- <-]|[]]] Hk Hr Hc;
      unfold cell_row, cell_col, slot_across, slot_down in *; simpl in *;
        destruct k' as [|[|k']]; simpl in *;
          try discriminate; try lia; congruence.
Defined.
